(** * Live-photo to motion-photo converter: a shallow embedding of [index.js]

    The source file holds two programs.  Lines 1-319 are the interactive
    converter started by [npm start] (module [V1] below); lines 321-578
    are the older command-line muxer it grew out of (module [V2]).  Both
    are embedded function by function, over one model of the Node.js
    run time they call into: strings, POSIX [path], the file system, the
    console, [process.exit], exceptions, and the two external libraries
    (the HEIC transcoder and the embedded-metadata service), which stay
    parameters.  The file system holds directories and regular files and
    nothing else: no symbolic links, devices or sockets. *)

From stdpp Require Import gmap strings list fin_maps pretty.
From Stdlib Require Import Ascii ZArith Lia.
From Stdlib Require String.
From Stdlib.Strings Require Import Byte.

Local Open Scope Z_scope.
Local Open Scope list_scope.
Local Open Scope stdpp_scope.

(** ** JavaScript strings

    A string is the sequence of the bytes of its UTF-8 encoding, which is
    how file names and typed lines reach the program.  [toLowerCase]
    folds the letters [A-Z]: the program only tests whether what it has
    folded is, or ends in, one of a few names made of a dot and ASCII
    letters, and folding the letters beyond the ASCII range as well never
    changes the result of such a test. *)
Module Js.

Definition chars (s : string) : list ascii := String.list_ascii_of_string s.
Definition str (l : list ascii) : string := String.string_of_list_ascii l.

Definition lower_ascii (c : ascii) : ascii :=
  let n := nat_of_ascii c in
  if ((65 <=? n) && (n <=? 90))%nat then ascii_of_nat (n + 32) else c.

(** [String.prototype.toLowerCase] *)
Definition toLowerCase (s : string) : string := str (lower_ascii <$> chars s).

(** [String.prototype.startsWith] and [endsWith] *)
Definition startsWith (s pre : string) : bool :=
  bool_decide (chars pre `prefix_of` chars s).
Definition endsWith (s suf : string) : bool :=
  bool_decide (chars suf `suffix_of` chars s).

(** [String.prototype.trim] strips white space and line terminators at
    both ends: TAB, LF, VT, FF, CR and the space of the ASCII range, and
    U+00A0, U+1680, U+2000 to U+200A, U+2028, U+2029, U+202F, U+205F,
    U+3000 and U+FEFF, which are two or three bytes each. *)
Definition space2 (a b : ascii) : bool :=
  (nat_of_ascii a =? 194)%nat && (nat_of_ascii b =? 160)%nat.

Definition space3 (a b c : ascii) : bool :=
  let x := nat_of_ascii a in
  let y := nat_of_ascii b in
  let z := nat_of_ascii c in
  ((x =? 225) && (y =? 154) && (z =? 128)
   || (x =? 226) && (y =? 128)
      && ((128 <=? z) && (z <=? 138) || (z =? 168) || (z =? 169) || (z =? 175))
   || (x =? 226) && (y =? 129) && (z =? 159)
   || (x =? 227) && (y =? 128) && (z =? 128)
   || (x =? 239) && (y =? 187) && (z =? 191))%nat.

Fixpoint drop_space (l : list ascii) : list ascii :=
  match l with
  | a :: l1 =>
      if Ascii.is_space a then drop_space l1
      else
        match l1 with
        | b :: l2 =>
            if space2 a b then drop_space l2
            else
              match l2 with
              | c :: l3 => if space3 a b c then drop_space l3 else l
              | [] => l
              end
        | [] => l
        end
  | [] => []
  end.

(** The same from the end, on the reversed bytes. *)
Fixpoint drop_space_end (l : list ascii) : list ascii :=
  match l with
  | a :: l1 =>
      if Ascii.is_space a then drop_space_end l1
      else
        match l1 with
        | b :: l2 =>
            if space2 b a then drop_space_end l2
            else
              match l2 with
              | c :: l3 => if space3 c b a then drop_space_end l3 else l
              | [] => l
              end
        | [] => l
        end
  | [] => []
  end.

Definition trim (s : string) : string :=
  str (reverse (drop_space_end (reverse (drop_space (chars s))))).

(** [String.prototype.split] on a one-character separator. *)
Fixpoint split_go (sep : ascii) (cur : list ascii) (l : list ascii)
  : list (list ascii) :=
  match l with
  | [] => [reverse cur]
  | c :: l' =>
      if decide (c = sep) then reverse cur :: split_go sep [] l'
      else split_go sep (c :: cur) l'
  end.
Definition split (sep : ascii) (s : string) : list string :=
  str <$> split_go sep [] (chars s).

(** [Array.prototype.join] with a separator string. *)
Definition join (sep : string) (l : list string) : string := String.concat sep l.

(** A value used as a condition: the empty string is falsy. *)
Definition truthy (s : string) : bool := negb (bool_decide (s = "")).
Definition truthy_opt (o : option string) : bool :=
  match o with Some s => truthy s | None => false end.

(** [a || b] on values that are a string or [undefined]. *)
Definition or_else (o : option string) (b : string) : string :=
  match o with Some s => if truthy s then s else b | None => b end.

(** [JSON.stringify] of a string: the quote and the backslash are
    escaped, control characters are written with their short escape or as
    [\u00XX], every other character stands for itself. *)
Definition quote : string := String (ascii_of_nat 34) "".
Definition backslash : string := String (ascii_of_nat 92) "".

Definition hex_digit (n : nat) : string :=
  String (nth n (chars "0123456789abcdef") "0"%char) "".

Definition json_char (c : ascii) : string :=
  let n := nat_of_ascii c in
  if (n =? 34)%nat then backslash +:+ quote
  else if (n =? 92)%nat then backslash +:+ backslash
  else if (n =? 8)%nat then backslash +:+ "b"
  else if (n =? 12)%nat then backslash +:+ "f"
  else if (n =? 10)%nat then backslash +:+ "n"
  else if (n =? 13)%nat then backslash +:+ "r"
  else if (n =? 9)%nat then backslash +:+ "t"
  else if (n <? 32)%nat then
    backslash +:+ "u00" +:+ hex_digit (n / 16) +:+ hex_digit (n mod 16)
  else String c "".

Definition json_string (s : string) : string :=
  quote +:+ String.concat "" (json_char <$> chars s) +:+ quote.

(** [JSON.stringify] of an array whose elements are already written. *)
Definition json_array (items : list string) : string :=
  "[" +:+ join "," items +:+ "]".

(** A [Set] of strings: its elements in insertion order, each once.
    [set_add] is [Set.prototype.add], [array_to_set] is [new Set(array)];
    [Set.prototype.has] is membership. *)
Definition set_add (s : list string) (x : string) : list string :=
  if bool_decide (x ∈ s) then s else s ++ [x].
Definition array_to_set (l : list string) : list string := foldl set_add [] l.

End Js.

(** ** POSIX [path]

    The functions of Node's [path.posix] that the program calls.  Node
    scans character codes; here each function works on the segments
    between slashes, or on the reversed character list where Node scans
    from the right. *)
Module Path.

Definition is_slash (c : ascii) : bool := bool_decide (c = "/"%char).
Definition is_dot (c : ascii) : bool := bool_decide (c = "."%char).

Definition isAbsolute (p : string) : bool :=
  match p with String c _ => is_slash c | EmptyString => false end.

Fixpoint drop_while (f : ascii → bool) (l : list ascii) : list ascii :=
  match l with
  | c :: l' => if f c then drop_while f l' else l
  | [] => []
  end.
Fixpoint take_while (f : ascii → bool) (l : list ascii) : list ascii :=
  match l with
  | c :: l' => if f c then c :: take_while f l' else []
  | [] => []
  end.

(** [normalizeString]: [stack] holds the segments kept so far, the most
    recent first. *)
Fixpoint normalize_segments (allowAboveRoot : bool) (stack segs : list string)
  : list string :=
  match segs with
  | [] => reverse stack
  | seg :: rest =>
      if decide (seg = "" ∨ seg = ".") then
        normalize_segments allowAboveRoot stack rest
      else if decide (seg = "..") then
        match stack with
        | top :: below =>
            if decide (top = "..") then
              normalize_segments allowAboveRoot
                (if allowAboveRoot then ".." :: stack else stack) rest
            else normalize_segments allowAboveRoot below rest
        | [] =>
            normalize_segments allowAboveRoot
              (if allowAboveRoot then [".."] else []) rest
        end
      else normalize_segments allowAboveRoot (seg :: stack) rest
  end.

Definition normalize (p : string) : string :=
  if decide (p = "") then "."
  else
    let isAbs := isAbsolute p in
    let trailing := Js.endsWith p "/" in
    let body := Js.join "/" (normalize_segments (negb isAbs) [] (Js.split "/" p)) in
    if decide (body = "") then
      if isAbs then "/" else if trailing then "./" else "."
    else (if isAbs then "/" else "") +:+ body +:+ (if trailing then "/" else "").

(** [path.join] of two arguments: empty arguments are skipped. *)
Definition join (a b : string) : string :=
  if decide (a = "") then (if decide (b = "") then "." else normalize b)
  else if decide (b = "") then normalize a
  else normalize (a +:+ "/" +:+ b).

(** [path.basename]: the last non-empty segment. *)
Definition basename (p : string) : string :=
  default "" (last (filter (λ seg, seg ≠ "") (Js.split "/" p))).

(** [path.dirname]: Node looks for the separator from the right and never
    inspects index 0. *)
Definition dirname (p : string) : string :=
  match Js.chars p with
  | [] => "."
  | c0 :: rest =>
      let hasRoot := is_slash c0 in
      let r1 := drop_while is_slash (reverse rest) in
      match drop_while (λ c, negb (is_slash c)) r1 with
      | [] => if hasRoot then "/" else "."
      | _ :: r3 =>
          if hasRoot && bool_decide (r3 = []) then "//"
          else Js.str (c0 :: reverse r3)
      end
  end.

(** The [name] and [ext] of a base name: the extension starts at the last
    dot, unless that dot is the first character or the name is [..]. *)
Definition split_ext (base : string) : string * string :=
  let rb := reverse (Js.chars base) in
  match drop_while (λ c, negb (is_dot c)) rb with
  | [] => (base, "")
  | _ :: pre_rev =>
      if bool_decide (pre_rev = []) || bool_decide (base = "..") then (base, "")
      else (Js.str (reverse pre_rev),
            Js.str ("."%char :: reverse (take_while (λ c, negb (is_dot c)) rb)))
  end.

Record parsed := {
  root : string; dir : string; base : string; name : string; ext : string
}.

(** [path.parse] *)
Definition parse (p : string) : parsed :=
  let b := basename p in
  let r1 := drop_while is_slash (reverse (Js.chars p)) in
  let d :=
    match r1 with
    | [] => if isAbsolute p then "/" else ""
    | _ =>
        match drop_while (λ c, negb (is_slash c)) r1 with
        | [] => ""
        | _ :: r3 => if bool_decide (r3 = []) then "/" else Js.str (reverse r3)
        end
    end in
  {| root := if isAbsolute p then "/" else ""; dir := d; base := b;
     name := (split_ext b).1; ext := (split_ext b).2 |}.

Definition extname (p : string) : string := (split_ext (basename p)).2.

End Path.

(** ** The file system

    A finite map from keys (lists of names below the root) to nodes.  The
    root always exists and is a directory. *)
Inductive node :=
| File (data : list byte)
| Dir.

Abbreviation fsmap := (gmap (list string) node).

Inductive errno := ENOENT | EISDIR | ENOTDIR | EEXIST | ENOTEMPTY | EINVAL.

Global Instance byte_eq_dec : EqDecision byte := Byte.byte_eq_dec.
Global Instance node_eq_dec : EqDecision node.
Proof. solve_decision. Defined.
Global Instance errno_eq_dec : EqDecision errno.
Proof. solve_decision. Defined.

Module Fs.

Definition look (m : fsmap) (k : list string) : option node :=
  if decide (k = []) then Some Dir else m !! k.

Definition parent (k : list string) : list string := reverse (tail (reverse k)).

Definition under (d k : list string) : Prop := d `prefix_of` k.

(** The size [stat] reports; that of a directory is a platform value no
    modelled run depends on. *)
Definition node_size (n : node) : Z :=
  match n with File d => Z.of_nat (length d) | Dir => 4096 end.

Definition is_dir (n : node) : bool :=
  match n with Dir => true | File _ => false end.

Definition read (m : fsmap) (k : list string) : errno + list byte :=
  match look m k with
  | None => inl ENOENT
  | Some Dir => inl EISDIR
  | Some (File d) => inr d
  end.

(** Create or replace a regular file; its directory must exist. *)
Definition write (m : fsmap) (k : list string) (d : list byte) : errno + fsmap :=
  match look m (parent k) with
  | None => inl ENOENT
  | Some (File _) => inl ENOTDIR
  | Some Dir =>
      match look m k with
      | Some Dir => inl EISDIR
      | _ => inr (<[k := File d]> m)
      end
  end.

(** How the operating system reads a path: segment by segment, from the
    root if the path is absolute and from the working directory if not.
    Where a segment is looked up there must be a directory: a missing one
    is [ENOENT], a regular file [ENOTDIR].  Empty segments and [.] stay in
    that directory, [..] goes to the one above.  The result is the key the
    path leads to; the entry itself need not exist.  The empty path names
    nothing. *)
Fixpoint walk (m : fsmap) (cur segs : list string) : errno + list string :=
  match segs with
  | [] => inr cur
  | seg :: rest =>
      match look m cur with
      | None => inl ENOENT
      | Some (File _) => inl ENOTDIR
      | Some Dir =>
          if decide (seg = "" ∨ seg = ".") then walk m cur rest
          else if decide (seg = "..") then walk m (parent cur) rest
          else walk m (cur ++ [seg]) rest
      end
  end.

Definition resolve (m : fsmap) (cwd : list string) (p : string)
  : errno + list string :=
  if decide (p = "") then inl ENOENT
  else walk m (if Path.isAbsolute p then [] else cwd) (Js.split "/" p).

(** [mkdir] with [recursive: true]: the path is read like any other, but
    a directory that is missing on the way is made, the last one
    included.  A directory that exists is not an error; a regular file in
    the way is. *)
Fixpoint mkdirs (m : fsmap) (cur segs : list string) : errno + fsmap :=
  match segs with
  | [] =>
      match look m cur with
      | Some Dir => inr m
      | Some (File _) => inl EEXIST
      | None => inl ENOENT
      end
  | seg :: rest =>
      match look m cur with
      | None => inl ENOENT
      | Some (File _) => inl ENOTDIR
      | Some Dir =>
          if decide (seg = "" ∨ seg = ".") then mkdirs m cur rest
          else if decide (seg = "..") then mkdirs m (parent cur) rest
          else
            match look m (cur ++ [seg]) with
            | None => mkdirs (<[cur ++ [seg] := Dir]> m) (cur ++ [seg]) rest
            | Some _ => mkdirs m (cur ++ [seg]) rest
            end
      end
  end.

Definition mkdir_p (m : fsmap) (cwd : list string) (p : string) : errno + fsmap :=
  if decide (p = "") then inl ENOENT
  else mkdirs m (if Path.isAbsolute p then [] else cwd) (Js.split "/" p).

Definition unlink (m : fsmap) (k : list string) : errno + fsmap :=
  match look m k with
  | None => inl ENOENT
  | Some Dir => inl EISDIR
  | Some (File _) => inr (delete k m)
  end.

Definition child_name (d : list string) (k : list string) : option string :=
  match reverse k with
  | n :: rp => if decide (reverse rp = d) then Some n else None
  | [] => None
  end.

(** The names in a directory, in the order the map enumerates them: one
    fixed order, about which nothing is promised. *)
Definition entries (m : fsmap) (d : list string) : list string :=
  omap (λ kv, child_name d kv.1) (map_to_list m).

Definition readdir (m : fsmap) (k : list string) : errno + list string :=
  match look m k with
  | None => inl ENOENT
  | Some (File _) => inl ENOTDIR
  | Some Dir => inr (entries m k)
  end.

(** The subtree below [src], re-rooted at [dst]. *)
Definition moved (m : fsmap) (src dst : list string) : fsmap :=
  list_to_map ((λ kv, (dst ++ drop (length src) kv.1, kv.2))
                 <$> map_to_list (filter (λ kv, under src kv.1) m)).

Definition rename (m : fsmap) (src dst : list string) : errno + fsmap :=
  match look m src with
  | None => inl ENOENT
  | Some srcn =>
      match look m (parent dst) with
      | None => inl ENOENT
      | Some (File _) => inl ENOTDIR
      | Some Dir =>
          if decide (src = dst) then inr m
          else
            match srcn, look m dst with
            | File d, Some Dir => inl EISDIR
            | File d, _ => inr (<[dst := File d]> (delete src m))
            | Dir, Some (File _) => inl ENOTDIR
            | Dir, target =>
                if decide (src = [] ∨ under src dst) then inl EINVAL
                else if bool_decide (target = Some Dir)
                        && negb (bool_decide (entries m dst = [])) then inl ENOTEMPTY
                else inr (filter (λ kv, ¬ under src kv.1) m ∪ moved m src dst)
            end
      end
  end.

End Fs.

(** ** The key a path leads to

    Whether a path can be read depends on the file system; where it leads
    when it can be read does not ([resolve_key] below): it is the key
    computed here from the path alone, with [.] and empty segments
    dropped and [..] taking the last name away.  The program never goes
    through this function; it serves to say of two paths that they lead
    to different entries. *)
Module Lexical.

Fixpoint walk (stack segs : list string) : list string :=
  match segs with
  | [] => reverse stack
  | seg :: rest =>
      if decide (seg = "" ∨ seg = ".") then walk stack rest
      else if decide (seg = "..") then walk (tail stack) rest
      else walk (seg :: stack) rest
  end.

Definition key (cwd : list string) (p : string) : option (list string) :=
  if decide (p = "") then None
  else Some (walk (if Path.isAbsolute p then [] else reverse cwd) (Js.split "/" p)).

End Lexical.

(** ** Errors, the observable trace and the world *)

Inductive error :=
| SysError (code : errno) (syscall path : string)
| LibError (message : string).

Definition errno_text (c : errno) : string :=
  match c with
  | ENOENT => "ENOENT: no such file or directory"
  | EISDIR => "EISDIR: illegal operation on a directory"
  | ENOTDIR => "ENOTDIR: not a directory"
  | EEXIST => "EEXIST: file already exists"
  | ENOTEMPTY => "ENOTEMPTY: directory not empty"
  | EINVAL => "EINVAL: invalid argument"
  end.

(** [error.message] *)
Definition message (e : error) : string :=
  match e with
  | SysError c call p => errno_text c +:+ ", " +:+ call +:+ " '" +:+ p +:+ "'"
  | LibError msg => msg
  end.

(** Values of metadata tags, and a JavaScript object used as a tag
    mapping: keys in insertion order, each at most once. *)
Inductive tagval :=
| VNum (z : Z)
| VStr (s : string).

Abbreviation tags := (list (string * tagval)).

Global Instance tagval_eq_dec : EqDecision tagval.
Proof. solve_decision. Defined.

Fixpoint tag_get (o : tags) (k : string) : option tagval :=
  match o with
  | [] => None
  | (k', v) :: o' => if decide (k' = k) then Some v else tag_get o' k
  end.

(** [o[k] = v] *)
Fixpoint tag_set (o : tags) (k : string) (v : tagval) : tags :=
  match o with
  | [] => [(k, v)]
  | (k', v') :: o' => if decide (k' = k) then (k, v) :: o' else (k', v') :: tag_set o' k v
  end.

(** A tag is written as [Group:Name] and read back as [Name]: the name of
    a key is what follows its last colon. *)
Definition tag_name (key : string) : string :=
  Js.str (reverse (Path.take_while (λ c, negb (bool_decide (c = ":"%char)))
                     (reverse (Js.chars key)))).

Definition read_names (t : tags) : tags := (λ kv, (tag_name kv.1, kv.2)) <$> t.

Inductive level := Log | Warn | Err.

(** What the process does that the outside can see, in order. *)
Inductive event :=
| Console (l : level) (msg : string)
| Prompt (query : string)
| RlClose
| FsExists (p : string)
| FsLstat (p : string)
| FsStat (p : string)
| FsReaddir (p : string)
| FsMkdir (p : string)
| FsRead (p : string)
| FsWrite (p : string) (data : list byte)
| FsUnlink (p : string)
| FsRename (src dst : string)
| FsStream (p : string)
| ExifRead (p : string)
| ExifWrite (p : string) (t : tags)
| HeicConvert (src dst : string).

Global Instance level_eq_dec : EqDecision level.
Proof. solve_decision. Defined.
Global Instance event_eq_dec : EqDecision event.
Proof. solve_decision. Defined.

(** Work a stream has been asked to do and that Node performs only after
    the running function has given control back: opening a write stream
    (flag [w]: create or truncate), and piping a read stream into a write
    stream, in chunks. *)
Inductive task :=
| OpenWrite (p : string)
| Pipe (src dst : string).

Record World := mkWorld {
  files : fsmap;
  trace : list event;
  problematicFiles : list string;
  processedFiles : list string;
  pending : list task
}.

(** The libraries and the process environment the program is run in. *)
Record Env := mkEnv {
  cwd : list string;
  (** [heicconvert(input, output, quality)] *)
  heicconvert : fsmap → string → string → error + fsmap;
  (** [exiftool.write(file, tags)] *)
  exif_write : fsmap → string → tags → error + fsmap;
  (** [exiftool.read(file)] *)
  exif_read : fsmap → string → error + tags
}.

(** ** Computations

    A JavaScript function body run to its end: it returns, throws, or ends
    the process with [process.exit].  An [await] on a promise that
    rejects throws. *)
Inductive Res (A : Type) :=
| Ret (a : A) (w : World)
| Throw (e : error) (w : World)
| Exit (code : Z) (w : World).
Arguments Ret {A} a w.
Arguments Throw {A} e w.
Arguments Exit {A} code w.

Definition M (A : Type) : Type := World → Res A.

Definition ret {A} (a : A) : M A := λ w, Ret a w.
Definition bind {A B} (m : M A) (k : A → M B) : M B :=
  λ w, match m w with
       | Ret a w' => k a w'
       | Throw e w' => Throw e w'
       | Exit c w' => Exit c w'
       end.
Definition throw {A} (e : error) : M A := λ w, Throw e w.
Definition exit {A} (code : Z) : M A := λ w, Exit code w.

(** [try { body } catch (error) { handler }] *)
Definition try_catch {A} (body : M A) (handler : error → M A) : M A :=
  λ w, match body w with
       | Throw e w' => handler e w'
       | r => r
       end.

Global Instance M_ret : MRet M := @ret.
Global Instance M_bind : MBind M := λ A B k m, bind m k.

Definition final_world {A} (r : Res A) : World :=
  match r with Ret _ w | Throw _ w | Exit _ w => w end.

(** How a run ended, without the world it ended in. *)
Inductive ending (A : Type) :=
| Returned (a : A)
| Thrown (e : error)
| Exited (code : Z).
Arguments Returned {A} a.
Arguments Thrown {A} e.
Arguments Exited {A} code.

Definition ending_of {A} (r : Res A) : ending A :=
  match r with
  | Ret a _ => Returned a
  | Throw e _ => Thrown e
  | Exit c _ => Exited c
  end.

Definition log_to (w : World) (es : list event) : World :=
  mkWorld (files w) (trace w ++ es) (problematicFiles w) (processedFiles w) (pending w).
Definition with_files (w : World) (m : fsmap) : World :=
  mkWorld m (trace w) (problematicFiles w) (processedFiles w) (pending w).

Definition emit (e : event) : M unit := λ w, Ret tt (log_to w [e]).
Definition set_files (m : fsmap) : M unit := λ w, Ret tt (with_files w m).
Definition get_files : M fsmap := λ w, Ret (files w) w.

Definition console_log (msg : string) : M unit := emit (Console Log msg).
Definition console_warn (msg : string) : M unit := emit (Console Warn msg).
Definition console_error (msg : string) : M unit := emit (Console Err msg).

(** [for (const x of xs) body] *)
Fixpoint for_of {A} (xs : list A) (body : A → M unit) : M unit :=
  match xs with
  | [] => ret tt
  | x :: xs' => body x;; for_of xs' body
  end.

Definition when (b : bool) (m : M unit) : M unit := if b then m else ret tt.

Definition nl : string := String (ascii_of_nat 10) "".

(** The bytes [writeFileSync] stores for a string. *)
Definition bytes_of (s : string) : list byte := String.list_byte_of_string s.

(** ** The run time seen from the program: [fs], the two libraries, the
    two global arrays *)
Section Runtime.
Context (env : Env).

Definition locate (p : string) : option (list string) := Lexical.key (cwd env) p.

(** A system call on a path: the path is read in the file system as it is
    at that moment, and the call works on the key it leads to. *)
Definition at_path {A : Type} (m : fsmap) (p : string) (f : list string → errno + A)
  : errno + A :=
  match Fs.resolve m (cwd env) p with inr k => f k | inl c => inl c end.

(** The entry a path names, if it names one. *)
Definition node_at (m : fsmap) (p : string) : option node :=
  match Fs.resolve m (cwd env) p with inr k => Fs.look m k | inl _ => None end.

Definition sys {A} (call p : string) (r : errno + A) : M A :=
  match r with
  | inl c => throw (SysError c call p)
  | inr a => ret a
  end.

Definition existsSync (p : string) : M bool :=
  emit (FsExists p);;
  m ← get_files;
  mret (bool_decide (is_Some (node_at m p))).

Definition stat_node (m : fsmap) (k : list string) : errno + node :=
  match Fs.look m k with Some n => inr n | None => inl ENOENT end.

Definition lstatSync (p : string) : M node :=
  emit (FsLstat p);;
  m ← get_files;
  sys "lstat" p (at_path m p (stat_node m)).

Definition statSync (p : string) : M node :=
  emit (FsStat p);;
  m ← get_files;
  sys "stat" p (at_path m p (stat_node m)).

Definition readFileSync (p : string) : M (list byte) :=
  emit (FsRead p);;
  m ← get_files;
  sys "open" p (at_path m p (Fs.read m)).

Definition writeFileSync (p : string) (d : list byte) : M unit :=
  emit (FsWrite p d);;
  m ← get_files;
  m' ← sys "open" p (at_path m p (λ k, Fs.write m k d));
  set_files m'.

(** [fs.mkdirSync(p, { recursive: true })] *)
Definition mkdirSync (p : string) : M unit :=
  emit (FsMkdir p);;
  m ← get_files;
  m' ← sys "mkdir" p (Fs.mkdir_p m (cwd env) p);
  set_files m'.

Definition readdirSync (p : string) : M (list string) :=
  emit (FsReaddir p);;
  m ← get_files;
  sys "scandir" p (at_path m p (Fs.readdir m)).

(** [fs.unlinkSync], and the promisified [fs.unlink] once awaited. *)
Definition unlinkSync (p : string) : M unit :=
  emit (FsUnlink p);;
  m ← get_files;
  m' ← sys "unlink" p (at_path m p (Fs.unlink m));
  set_files m'.

Definition renameSync (src dst : string) : M unit :=
  emit (FsRename src dst);;
  m ← get_files;
  m' ← sys "rename" src
         (at_path m src (λ ks, at_path m dst (λ kd, Fs.rename m ks kd)));
  set_files m'.

Definition lib {A} (r : error + A) : M A :=
  match r with inl e => throw e | inr a => ret a end.

Definition heicconvert_call (input output : string) : M unit :=
  emit (HeicConvert input output);;
  m ← get_files;
  m' ← lib (heicconvert env m input output);
  set_files m'.

Definition exiftool_write (file : string) (t : tags) : M unit :=
  emit (ExifWrite file t);;
  m ← get_files;
  m' ← lib (exif_write env m file t);
  set_files m'.

Definition exiftool_read (file : string) : M tags :=
  emit (ExifRead file);;
  m ← get_files;
  lib (exif_read env m file).

Definition push_problematic (p : string) : M unit :=
  λ w, Ret tt (mkWorld (files w) (trace w) (problematicFiles w ++ [p])
                 (processedFiles w) (pending w)).
Definition push_processed (ps : list string) : M unit :=
  λ w, Ret tt (mkWorld (files w) (trace w) (problematicFiles w)
                 (processedFiles w ++ ps) (pending w)).
Definition get_problematic : M (list string) := λ w, Ret (problematicFiles w) w.
Definition get_processed : M (list string) := λ w, Ret (processedFiles w) w.

(** [rl.question]: the query is shown, the user's line comes back. *)
Definition prompt (query answer : string) : M string :=
  emit (Prompt (query +:+ nl));; mret answer.

End Runtime.

(** [if (x) ... else ...] on a value that is a string or [null]. *)
Definition if_truthy {A} (o : option string) (yes : string → M A) (no : M A) : M A :=
  match o with
  | Some s => if Js.truthy s then yes s else no
  | None => no
  end.

(** A [for ... of] loop that updates one local variable. *)
Fixpoint for_fold {A S} (xs : list A) (s : S) (body : A → S → M S) : M S :=
  match xs with
  | [] => mret s
  | x :: xs' => s' ← body x s; for_fold xs' s' body
  end.

(** ** The interactive converter ([index.js], lines 1-319) *)
Module V1.
Section Program.
Context (env : Env).

Definition validateDirectory (dir : string) : M bool :=
  if negb (Js.truthy dir) then
    console_error "No directory path provided.";; mret false
  else
    ex ← existsSync env dir;
    if negb ex then
      console_error ("Directory does not exist: " +:+ dir);; mret false
    else
      st ← lstatSync env dir;
      if negb (Fs.is_dir st) then
        console_error ("Path is not a directory: " +:+ dir);; mret false
      else mret true.

Definition validateFile (filePath : string) : M bool :=
  if negb (Js.truthy filePath) then
    console_error "No file path provided.";; mret false
  else
    ex ← existsSync env filePath;
    if negb ex then
      console_error ("File does not exist: " +:+ filePath);; mret false
    else mret true.

Definition convertHeicToJpeg (heicPath : string) : M (option string) :=
  console_log ("Converting HEIC file to JPEG: " +:+ heicPath);;
  try_catch
    (let jpegPath := Path.name (Path.parse heicPath) +:+ ".jpg" in
     heicconvert_call env heicPath jpegPath;;
     console_log ("HEIC file converted to JPEG: " +:+ jpegPath);;
     push_processed [heicPath];;
     mret (Some jpegPath))
    (λ error,
     console_warn ("Error converting HEIC file: " +:+ heicPath +:+ ": "
                   +:+ message error);;
     push_problematic heicPath;;
     mret None).

Definition is_jpeg_name (p : string) : bool :=
  Js.endsWith (Js.toLowerCase p) ".jpg" || Js.endsWith (Js.toLowerCase p) ".jpeg".
Definition is_video_name (p : string) : bool :=
  Js.endsWith (Js.toLowerCase p) ".mov" || Js.endsWith (Js.toLowerCase p) ".mp4".

Definition validateMedia (photoPath videoPath : string) : M bool :=
  okp ← validateFile photoPath;
  if negb okp then console_error "Invalid photo path.";; mret false
  else
    okv ← validateFile videoPath;
    if negb okv then console_error "Invalid video path.";; mret false
    else if negb (is_jpeg_name photoPath) then
      console_error ("Photo isn't a JPEG: " +:+ photoPath);; mret false
    else if negb (is_video_name videoPath) then
      console_error ("Video isn't a MOV or MP4: " +:+ videoPath);; mret false
    else mret true.

Definition mergeFiles (photoPath videoPath outputPath : string) : M string :=
  console_log ("Merging " +:+ photoPath +:+ " and " +:+ videoPath +:+ ".");;
  let outPath := Path.join outputPath (Path.basename photoPath) in
  mkdirSync env (Path.dirname outPath);;
  photoData ← readFileSync env photoPath;
  videoData ← readFileSync env videoPath;
  writeFileSync env outPath (photoData ++ videoData);;
  push_processed [photoPath; videoPath];;
  mret outPath.

Definition motion_tags (offset : Z) : tags :=
  [ ("XMP:MicroVideo", VNum 1);
    ("XMP:MicroVideoVersion", VNum 1);
    ("XMP:MicroVideoOffset", VNum offset);
    ("XMP:MicroVideoPresentationTimestampUs", VNum 1500000) ].

Definition addXmpMetadata (mergedFile : string) (offset : Z) : M unit :=
  exiftool_write env mergedFile (motion_tags offset);;
  try_catch
    (unlinkSync env (mergedFile +:+ "_original"))
    (λ error, console_warn ("Failed to delete " +:+ message error)).

Definition createMotionPhoto (photoPath videoPath outputPath : string) : M unit :=
  ok ← validateMedia photoPath videoPath;
  if negb ok then console_error "Invalid photo or video path."
  else
    merged ← mergeFiles photoPath videoPath outputPath;
    photoStat ← statSync env photoPath;
    mergedStat ← statSync env merged;
    let photoFilesize := Fs.node_size photoStat in
    let mergedFilesize := Fs.node_size mergedStat in
    let offset := mergedFilesize - photoFilesize in
    addXmpMetadata merged offset.

(** The test of the loop in [matchingVideo]. *)
Definition video_match (base file : string) : bool :=
  Js.startsWith file base && is_video_name file.

Definition matchingVideo (photoPath videoDir : string) : M (option string) :=
  let base := Path.name (Path.parse photoPath) in
  files ← readdirSync env videoDir;
  mret (Path.join videoDir <$> List.find (video_match base) files).

Definition candidate (name ext : string) (counter : N) : string :=
  name +:+ "(" +:+ pretty counter +:+ ")" +:+ ext.

(** The [while] loop of [uniquePath]; [fuel] bounds the number of tests
    (see [uniquePath] for the bound). *)
Fixpoint uniquePath_loop (fuel : nat) (destination name ext : string)
    (counter : N) (newFilename : string) : M string :=
  match fuel with
  | O => throw (LibError "uniquePath: bound reached")
  | S fuel' =>
      ex ← existsSync env (Path.join destination newFilename);
      if ex : bool then
        uniquePath_loop fuel' destination name ext (counter + 1)%N
          (candidate name ext counter)
      else mret (Path.join destination newFilename)
  end.

(** One test more than there are entries in the file system is always
    enough ([uniquePath_returns] below), so the bound is never reached. *)
Definition uniquePath (destination filename : string) : M string :=
  λ w,
    let parsed := Path.parse filename in
    uniquePath_loop (S (S (size (files w)))) destination
      (Path.name parsed) (Path.ext parsed) 1 filename w.

Definition movable_exts : list string :=
  [".heic"; ".jpg"; ".jpeg"; ".mov"; ".mp4"; ".png"; ".gif"].

(** The body of the first loop of [processDirectory]. *)
Definition process_file (inputDir outputDir : string)
    (convertAllHeic deleteConverted : bool) (file : string) (matchingPairs : N)
  : M N :=
  let filePath := Path.join inputDir file in
  if Js.endsWith (Js.toLowerCase file) ".heic" then
    wanted ← (if convertAllHeic then mret true
              else v ← matchingVideo filePath inputDir; mret (Js.truthy_opt v));
    if wanted : bool then
      jpeg ← convertHeicToJpeg filePath;
      n ← if_truthy jpeg
            (λ jpegPath,
               video ← matchingVideo jpegPath inputDir;
               if_truthy video
                 (λ videoPath,
                    createMotionPhoto jpegPath videoPath outputDir;;
                    unlinkSync env jpegPath;;
                    mret (matchingPairs + 1)%N)
                 (mret matchingPairs))
            (mret matchingPairs);
      (if deleteConverted then
         ex ← existsSync env filePath;
         if ex : bool then
           try_catch
             (unlinkSync env filePath;;
              console_log ("Deleted converted HEIC file: " +:+ filePath))
             (λ error,
                console_warn ("Failed to delete file " +:+ filePath +:+ ": "
                              +:+ message error))
         else mret tt
       else mret tt);;
      mret n
    else mret matchingPairs
  else if is_jpeg_name file then
    video ← matchingVideo filePath inputDir;
    if_truthy video
      (λ videoPath,
         createMotionPhoto filePath videoPath outputDir;;
         mret (matchingPairs + 1)%N)
      (mret matchingPairs)
  else mret matchingPairs.

(** The body of the loop that moves the files no pair used. *)
Definition move_other (inputDir otherFilesDir : string) (file : string) : M unit :=
  let filePath := Path.join inputDir file in
  if bool_decide (Js.toLowerCase (Path.extname file) ∈ movable_exts) then
    processed ← get_processed;
    if negb (bool_decide (filePath ∈ processed)) then
      uniqueFilePath ← uniquePath otherFilesDir (Path.basename filePath);
      renameSync env filePath uniqueFilePath;;
      console_log ("Moved " +:+ Path.basename uniqueFilePath
                   +:+ " to output directory.")
    else mret tt
  else mret tt.

Definition processDirectory (inputDir outputDir : string)
    (moveOtherImages convertAllHeic deleteConverted : bool) : M unit :=
  console_log ("Processing files in: " +:+ inputDir);;
  okIn ← validateDirectory inputDir;
  (if negb okIn then console_error "Invalid input directory.";; exit 1
   else mret tt);;
  okOut ← validateDirectory outputDir;
  (if negb okOut then console_error "Invalid output directory.";; exit 1
   else mret tt);;
  files ← readdirSync env inputDir;
  matchingPairs ← for_fold files 0%N
                    (process_file inputDir outputDir convertAllHeic deleteConverted);
  console_log "Conversion complete.";;
  console_log ("Found " +:+ pretty matchingPairs
               +:+ " matching HEIC/JPEG and MOV/MP4 pairs.");;
  (if moveOtherImages then
     let otherFilesDir := Path.join outputDir "other_files" in
     mkdirSync env otherFilesDir;;
     for_of files (move_other inputDir otherFilesDir)
   else mret tt);;
  console_log "Cleanup complete.".

Definition or_default (answer default : string) : string :=
  if Js.truthy (Js.trim answer) then Js.trim answer else default.

Definition is_yes (answer : string) : bool :=
  bool_decide (Js.toLowerCase (Js.trim answer) = "y").

Definition report_header : string :=
  "The following files encountered errors during conversion:".

(** The five lines typed at the prompts, in the order they are asked. *)
Record Answers := mkAnswers {
  ansInput : string;
  ansOutput : string;
  ansMove : string;
  ansConvertAll : string;
  ansDelete : string
}.

Definition main (a : Answers) : M unit :=
  console_log ("Welcome to the Apple Live Photos to Google Motion Photos converter." +:+ nl);;
  line ← prompt "Enter the directory path containing HEIC/JPEG/MOV/MP4 files in the same folder or subfolders (default is 'photos'): " (ansInput a);
  let inputDir := or_default line "photos" in
  ok ← validateDirectory inputDir;
  (if negb ok then console_error "Invalid directory path.";; exit 1 else mret tt);;
  line ← prompt "Enter the output directory path (default is 'output'): " (ansOutput a);
  let outputDir := or_default line "output" in
  line ← prompt "Do you want to move non-matching files to the 'other_files' folder in the output directory? (y/n, default is 'n'): " (ansMove a);
  let moveOtherImages := is_yes line in
  line ← prompt "Do you want to convert all HEIC files to JPEG, regardless of whether they have a matching MOV/MP4 file? (y/n, default is 'n'): " (ansConvertAll a);
  let convertAllHeic := is_yes line in
  line ← prompt "Do you want to delete converted HEIC files whether they have a matching MOV/MP4 file or not? (y/n, default is 'n'): " (ansDelete a);
  let deleteConverted := is_yes line in
  processDirectory inputDir outputDir moveOtherImages convertAllHeic deleteConverted;;
  problematic ← get_problematic;
  (if negb (bool_decide (problematic = [])) then
     console_warn report_header;;
     for_of problematic console_warn;;
     writeFileSync env "problematic_files.txt"
       (bytes_of (report_header +:+ nl +:+ Js.join nl problematic))
   else mret tt);;
  emit RlClose;;
  exit 0.

End Program.
End V1.

(** ** The command-line muxer ([index.js], lines 321-578) *)
Module V2.

(** A read stream hands its file over in chunks of at most 64 KiB. *)
Definition highWaterMark : nat := 64 * 1024.

Fixpoint chunks_go (fuel n : nat) (l : list byte) : list (list byte) :=
  match fuel, l with
  | S fuel', _ :: _ => take n l :: chunks_go fuel' n (drop n l)
  | _, _ => []
  end.
Definition chunks (l : list byte) : list (list byte) :=
  chunks_go (length l) highWaterMark l.

Definition append (m : fsmap) (k : list string) (c : list byte) : errno + fsmap :=
  match Fs.look m k with
  | None => inl ENOENT
  | Some Dir => inl EISDIR
  | Some (File d) => inr (<[k := File (d ++ c)]> m)
  end.

Section Program.
Context (env : Env).

Definition enqueue (ts : list task) : M unit :=
  λ w, Ret tt (mkWorld (files w) (trace w) (problematicFiles w)
                 (processedFiles w) (pending w ++ ts)).

(** [fs.createWriteStream], [fs.createReadStream]: the stream object is
    returned at once; the file is opened, created or truncated later. *)
Definition createWriteStream (p : string) : M unit :=
  emit (FsStream p);; enqueue [OpenWrite p].
Definition createReadStream (p : string) : M unit :=
  emit (FsStream p).

Definition run_task (t : task) : M unit :=
  match t with
  | OpenWrite p =>
      m ← get_files;
      m' ← sys "open" p (at_path env m p (λ k, Fs.write m k []));
      set_files m'
  | Pipe src dst =>
      m ← get_files;
      data ← sys "open" src (at_path env m src (Fs.read m));
      for_of (chunks data)
        (λ c, m ← get_files;
              m' ← sys "write" dst (at_path env m dst (λ k, append m k c));
              set_files m')
  end.

(** What happens to the pending stream work once the running function
    awaits: here the streams run to their end, in the order the work was
    asked for, before the awaited call goes on (of all schedules the one
    kindest to the program). *)
Definition run_pending : M unit :=
  λ w, for_of (pending w) run_task
         (mkWorld (files w) (trace w) (problematicFiles w) (processedFiles w) []).

(** Unlike its namesake in the interactive converter, this one ends the
    process itself. *)
Definition validateDirectory (dir : string) : M unit :=
  ex ← existsSync env dir;
  (if negb ex then console_error ("Path doesn't exist: " +:+ dir);; exit 1
   else mret tt);;
  st ← lstatSync env dir;
  if negb (Fs.is_dir st) then
    console_error ("Path is not a directory: " +:+ dir);; exit 1
  else mret tt.

Definition validateMedia (photoPath videoPath : string) : M bool :=
  exp ← existsSync env photoPath;
  if negb exp then
    console_error ("Photo does not exist: " +:+ photoPath);; mret false
  else
    exv ← existsSync env videoPath;
    if negb exv then
      console_error ("Video does not exist: " +:+ videoPath);; mret false
    else if negb (V1.is_jpeg_name photoPath) then
      console_error ("Photo isn't a JPEG: " +:+ photoPath);; mret false
    else if negb (V1.is_video_name videoPath) then
      console_error ("Video isn't a MOV or MP4: " +:+ photoPath);; mret false
    else mret true.

(** [photo.pipe(outfile, { end: false })], then on [end] of the photo
    [video.pipe(outfile)]: two pieces of work for later. *)
Definition mergeFiles (photoPath videoPath outputPath : string) : M string :=
  console_log ("Merging " +:+ photoPath +:+ " and " +:+ videoPath +:+ ".");;
  let outPath := Path.join outputPath (Path.basename photoPath) in
  mkdirSync env (Path.dirname outPath);;
  createWriteStream outPath;;
  createReadStream photoPath;;
  createReadStream videoPath;;
  enqueue [Pipe photoPath outPath; Pipe videoPath outPath];;
  console_log "Merged photo and video.";;
  mret outPath.

Definition addXmpMetadata (mergedFile : string) (offset : Z) : M unit :=
  console_log "Reading existing metadata from file.";;
  run_pending;;
  metadata ← exiftool_read env mergedFile;
  console_log ("Found XMP keys: " +:+ Js.join "," metadata.*1);;
  when (bool_decide (0 < length metadata)%nat)
    (console_warn "Found existing XMP keys. They *may* be affected after this process.");;
  let metadata := tag_set metadata "Xmp.GCamera.MicroVideo" (VNum 1) in
  let metadata := tag_set metadata "Xmp.GCamera.MicroVideoVersion" (VNum 1) in
  let metadata := tag_set metadata "Xmp.GCamera.MicroVideoOffset" (VNum offset) in
  let metadata :=
    tag_set metadata "Xmp.GCamera.MicroVideoPresentationTimestampUs" (VNum 1500000) in
  exiftool_write env mergedFile metadata.

Definition convert (photoPath videoPath outputPath : string) : M unit :=
  merged ← mergeFiles photoPath videoPath outputPath;
  photoStat ← statSync env photoPath;
  mergedStat ← statSync env merged;
  let photoFilesize := Fs.node_size photoStat in
  let mergedFilesize := Fs.node_size mergedStat in
  let offset := mergedFilesize - photoFilesize in
  addXmpMetadata merged offset.

(** [console.log] of the object [path.parse] returns. *)
Definition inspect (q : Path.parsed) : string :=
  "{ root: '" +:+ Path.root q +:+ "', dir: '" +:+ Path.dir q +:+ "', base: '"
  +:+ Path.base q +:+ "', ext: '" +:+ Path.ext q +:+ "', name: '" +:+ Path.name q
  +:+ "' }".

(** Returns the empty string when no video is found. *)
Definition matchingVideo (photoPath : string) : M string :=
  let q := Path.parse photoPath in
  let base := "./" +:+ Path.dir q +:+ "/" +:+ Path.name q in
  console_log (inspect q);;
  console_log ("Looking for videos named: " +:+ base);;
  e1 ← existsSync env (base +:+ ".mov");
  if e1 : bool then mret (base +:+ ".mov")
  else
    e2 ← existsSync env (base +:+ ".mp4");
    if e2 : bool then mret (base +:+ ".mp4")
    else
      e3 ← existsSync env (base +:+ ".MOV");
      if e3 : bool then mret (base +:+ ".MOV")
      else
        e4 ← existsSync env (base +:+ ".MP4");
        if e4 : bool then mret (base +:+ ".MP4")
        else mret "".

(** [Stats.isFile()] *)
Definition is_file (n : node) : bool :=
  match n with File _ => true | Dir => false end.

(** The body of the loop of [processDirectory].  The test is
    [(isFile && endsWith(.jpg)) || endsWith(.jpeg)], as the source
    brackets it. *)
Definition scan_file (fileDir file : string) (filePairs : list (string * string))
  : M (list (string * string)) :=
  let fileFullpath := Path.join fileDir file in
  st ← lstatSync env fileFullpath;
  if (is_file st && Js.endsWith (Js.toLowerCase file) ".jpg")
     || Js.endsWith (Js.toLowerCase file) ".jpeg" then
    videoFile ← matchingVideo fileFullpath;
    if negb (bool_decide (videoFile = "")) then
      mret (filePairs ++ [(fileFullpath, videoFile)])
    else mret filePairs
  else mret filePairs.

Definition json_pair (pair : string * string) : string :=
  Js.json_array [Js.json_string pair.1; Js.json_string pair.2].

Definition processDirectory (fileDir : string) (recurse : bool)
  : M (list (string * string)) :=
  console_log ("Processing dir: " +:+ fileDir);;
  (if recurse then
     console_error "Recursive traversal is not implemented yet.";; exit 1
   else mret tt);;
  files ← readdirSync env fileDir;
  filePairs ← for_fold files [] (scan_file fileDir);
  console_log ("Found " +:+ pretty (length filePairs) +:+ " pairs.");;
  console_log ("subset of found image/video pairs: "
               +:+ Js.json_array (json_pair <$> take 9 filePairs));;
  mret filePairs.

(** The options [yargs] hands to [main]; a string option that was not
    given is [undefined]. *)
Record Args := mkArgs {
  dir : option string;
  recurse : bool;
  photo : option string;
  video : option string;
  output : option string;
  copyall : bool
}.

(** The body of the loop over the pairs in [main]; [processedFiles] is
    the local [Set]. *)
Definition convert_pair (outdir : string) (pair : string * string)
    (processedFiles : list string) : M (list string) :=
  ok ← validateMedia pair.1 pair.2;
  if ok : bool then
    convert pair.1 pair.2 outdir;;
    mret (Js.set_add (Js.set_add processedFiles pair.1) pair.2)
  else mret processedFiles.

(** The files [--copyall] copies: the entries of the directory, joined to
    it, that are not in the set of processed files. *)
Definition remainingFiles (fileDir : string) (names : list string)
    (processedFiles : list string) : list string :=
  filter (λ file, file ∉ processedFiles)
    (Js.array_to_set (Path.join fileDir <$> names)).

(** [fs.copyFileSync] is left open: what it does with a source that is
    not a regular file differs between platforms. *)
Context (copyFileSync : string → string → M unit).

Definition main (args : Args) : M unit :=
  let outdir := Js.or_else (output args) "output" in
  if Js.truthy_opt (dir args) then
    let fileDir := default "" (dir args) in
    validateDirectory fileDir;;
    pairs ← processDirectory fileDir (recurse args);
    processedFiles ← for_fold pairs [] (convert_pair outdir);
    if copyall args then
      names ← readdirSync env fileDir;
      let remaining := remainingFiles fileDir names processedFiles in
      console_log ("Found " +:+ pretty (length remaining)
                   +:+ " remaining files that will copied.");;
      if bool_decide (0 < length remaining)%nat then
        mkdirSync env outdir;;
        for_of remaining
          (λ file, copyFileSync file (Path.join outdir (Path.basename file)))
      else mret tt
    else mret tt
  else
    (if negb (Js.truthy_opt (photo args)) && negb (Js.truthy_opt (video args)) then
       console_error "Either --dir or --photo and --video are required.";; exit 1
     else mret tt);;
    (if (Js.truthy_opt (photo args) && negb (Js.truthy_opt (video args)))
        || (negb (Js.truthy_opt (photo args)) && Js.truthy_opt (video args)) then
       console_error "Both --photo and --video must be provided.";; exit 1
     else mret tt);;
    let photoPath := default "" (photo args) in
    let videoPath := default "" (video args) in
    ok ← validateMedia photoPath videoPath;
    if ok : bool then convert photoPath videoPath outdir else mret tt.

End Program.
End V2.

(** ** A small metadata service and transcoder to run the program on

    The libraries are parameters of the development.  To run the program
    on concrete inputs they are instantiated with a toy container format:
    a file is an image when it starts with the two bytes [ff d8]; its
    metadata is one segment right after them, [e1 01], the offset in
    unary and a [00].  Like the real service, the toy takes the four tags
    under their names in the group [XMP] and refuses any other mapping
    without looking at the file; it gives the tags back under their names
    without the group; and a write leaves the previous file beside the
    new one as [<file>_original]. *)
Module Toy.

(** The unary number in front of [l], and what follows its terminator. *)
Fixpoint ones (l : list byte) : option (nat * list byte) :=
  match l with
  | x00 :: l' => Some (O, l')
  | x01 :: l' => match ones l' with Some (n, r) => Some (S n, r) | None => None end
  | _ => None
  end.

(** The metadata segment of a file and the image data behind it. *)
Definition segment (d : list byte) : option (option nat * list byte) :=
  match d with
  | xff :: xd8 :: rest =>
      match rest with
      | xe1 :: x01 :: rest' =>
          match ones rest' with
          | Some (n, body) => Some (Some n, body)
          | None => Some (None, rest)
          end
      | _ => Some (None, rest)
      end
  | _ => None
  end.

Definition decode (d : list byte) : option tags :=
  match segment d with
  | Some (Some n, _) => Some (read_names (V1.motion_tags (Z.of_nat n)))
  | Some (None, _) => Some []
  | None => None
  end.

(** The offset a tag mapping asks for, if it is the one mapping the toy
    takes. *)
Definition request (t : tags) : option nat :=
  match tag_get t "XMP:MicroVideoOffset" with
  | Some (VNum z) =>
      if decide (0 ≤ z ∧ t = V1.motion_tags z) then Some (Z.to_nat z) else None
  | _ => None
  end.

Definition encode (n : nat) (body : list byte) : list byte :=
  xff :: xd8 :: xe1 :: x01 :: replicate n x01 ++ x00 :: body.

Definition find (home : list string) (m : fsmap) (file : string) : option node :=
  match Fs.resolve m home file with inr k => Fs.look m k | inl _ => None end.

Definition write (home : list string) (m : fsmap) (file : string) (t : tags)
  : error + fsmap :=
  match request t with
  | None => inl (LibError "Tag is not defined")
  | Some n =>
      match Fs.resolve m home file, Fs.resolve m home (file +:+ "_original") with
      | inr k, inr kb =>
          match Fs.look m k with
          | Some (File d) =>
              match segment d, Fs.write m kb d with
              | None, _ => inl (LibError "Not a valid JPG")
              | Some _, inl _ => inl (LibError "Error renaming the original file")
              | Some (_, body), inr m1 => inr (<[k := File (encode n body)]> m1)
              end
          | _ => inl (LibError ("File not found - " +:+ file))
          end
      | _, _ => inl (LibError ("File not found - " +:+ file))
      end
  end.

Definition read (home : list string) (m : fsmap) (file : string) : error + tags :=
  match find home m file with
  | Some (File d) =>
      match decode d with
      | Some t => inr t
      | None => inl (LibError "File format error")
      end
  | _ => inl (LibError ("File not found - " +:+ file))
  end.

(** The transcoder: wraps the input bytes as an image. *)
Definition heic (home : list string) (m : fsmap) (input output : string)
  : error + fsmap :=
  match Fs.resolve m home input, Fs.resolve m home output with
  | inr ki, inr ko =>
      match Fs.look m ki with
      | Some (File d) =>
          if decide (d = []) then inl (LibError "Input buffer is not a HEIC image")
          else
            match Fs.write m ko (xff :: xd8 :: d) with
            | inr m' => inr m'
            | inl _ => inl (LibError "Output file cannot be written")
            end
      | _ => inl (LibError "Input file not found")
      end
  | _, _ => inl (LibError "Input file not found")
  end.

Definition env (home : list string) : Env :=
  mkEnv home (heic home) (write home) (read home).

End Toy.

(** ** Sample inputs *)
Module Sample.

Definition home : list string := ["home"; "u"].
Definition env : Env := Toy.env home.

Definition still : list byte := [xff; xd8; xff; xdb; x10; x20; x30; xff; xd9].
Definition clip : list byte := [x00; x00; x00; x14; x66; x74; x79; x70].
Definition garbage : list byte := [x47; x49; x46; x38].

Definition tree (entries : list (list string * node)) : fsmap :=
  list_to_map ([(["home"], Dir); (home, Dir)] ++ entries).

Definition at_home (p : list string) : list string := home ++ p.

Definition world (entries : list (list string * node)) : World :=
  mkWorld (tree entries) [] [] [] [].

(** One pair in [photos], and an empty [output]. *)
Definition one_pair : World :=
  world [ (at_home ["photos"], Dir);
          (at_home ["photos"; "IMG_0001.jpg"], File still);
          (at_home ["photos"; "IMG_0001.mov"], File clip);
          (at_home ["output"], Dir) ].

(** Two pairs; the still of one of them is not an image. *)
Definition two_pairs : World :=
  world [ (at_home ["photos"], Dir);
          (at_home ["photos"; "IMG_0001.jpg"], File still);
          (at_home ["photos"; "IMG_0001.mov"], File clip);
          (at_home ["photos"; "IMG_0002.jpg"], File garbage);
          (at_home ["photos"; "IMG_0002.mov"], File clip);
          (at_home ["output"], Dir) ].

(** A still whose only video has a longer stem. *)
Definition longer_stem : World :=
  world [ (at_home ["photos"], Dir);
          (at_home ["photos"; "IMG_1.jpg"], File still);
          (at_home ["photos"; "IMG_10.mov"], File clip) ].

(** The same pair after an earlier run: the output already exists, with
    its metadata segment. *)
Definition earlier_output : list byte :=
  Toy.encode 8 (drop 2 still ++ clip).
Definition second_run : World :=
  world [ (at_home ["photos"], Dir);
          (at_home ["photos"; "IMG_0001.jpg"], File still);
          (at_home ["photos"; "IMG_0001.mov"], File clip);
          (at_home ["output"], Dir);
          (at_home ["output"; "IMG_0001.jpg"], File earlier_output) ].


(** A pair, and a live photo whose still cannot be transcoded. *)
Definition bad_heic : World :=
  world [ (at_home ["photos"], Dir);
          (at_home ["photos"; "IMG_0001.jpg"], File still);
          (at_home ["photos"; "IMG_0001.mov"], File clip);
          (at_home ["photos"; "IMG_0003.heic"], File []);
          (at_home ["photos"; "IMG_0003.mov"], File clip);
          (at_home ["output"], Dir) ].

(** A pair, and a directory whose name looks like a still. *)
Definition still_is_directory : World :=
  world [ (at_home ["photos"], Dir);
          (at_home ["photos"; "IMG_0001.jpg"], File still);
          (at_home ["photos"; "IMG_0001.mov"], File clip);
          (at_home ["photos"; "IMG_0004.jpg"], Dir);
          (at_home ["photos"; "IMG_0004.mov"], File clip);
          (at_home ["output"], Dir) ].

Definition answers : V1.Answers :=
  V1.mkAnswers "photos" "" "n" "n" "n".

(** The input directory given as output directory too. *)
Definition in_place : V1.Answers :=
  V1.mkAnswers "photos" "photos" "n" "n" "n".

(** A no-break space, U+00A0, as it is typed. *)
Definition nbsp : string := String (ascii_of_nat 194) (String (ascii_of_nat 160) "").

(** A live photo as the phone stores it: a HEIC still and its video. *)
Definition heic_still : list byte := [x00; x00; x00; x18; x66; x74; x79; x70].
Definition live_photo : World :=
  world [ (at_home ["photos"], Dir);
          (at_home ["photos"; "IMG_0007.heic"], File heic_still);
          (at_home ["photos"; "IMG_0007.mov"], File clip);
          (at_home ["output"], Dir) ].

(** Two directories named like stills, each with a video of its stem. *)
Definition odd_names : World :=
  world [ (at_home ["photos"], Dir);
          (at_home ["photos"; "album.jpeg"], Dir);
          (at_home ["photos"; "album.mov"], File clip);
          (at_home ["photos"; "shots.jpg"], Dir);
          (at_home ["photos"; "shots.mov"], File clip) ].

(** A still without a video, a video without a still, and a text file. *)
Definition no_pairs : World :=
  world [ (at_home ["photos"], Dir);
          (at_home ["photos"; "IMG_0005.jpg"], File still);
          (at_home ["photos"; "IMG_0006.mov"], File clip);
          (at_home ["photos"; "notes.txt"], File garbage);
          (at_home ["output"], Dir) ].

End Sample.

(** ** Vocabulary of the specification

    [media_ok] is the validation rule in the specification's words: both
    files exist, the still ends in an image extension and the video in a
    video extension, compared without regard to case.  [probe] singles
    out the events that touch no file content. *)
Definition media_ok (env : Env) (m : fsmap) (photoPath videoPath : string) : bool :=
  Js.truthy photoPath && bool_decide (is_Some (node_at env m photoPath))
  && Js.truthy videoPath && bool_decide (is_Some (node_at env m videoPath))
  && V1.is_jpeg_name photoPath && V1.is_video_name videoPath.

Definition probe (e : event) : Prop :=
  match e with
  | Console _ _ | Prompt _ | FsExists _ | FsLstat _ => True
  | _ => False
  end.

(** What [main] has printed and asked when it validates the directory. *)
Definition welcome : list event :=
  [ Console Log ("Welcome to the Apple Live Photos to Google Motion Photos converter." +:+ nl);
    Prompt ("Enter the directory path containing HEIC/JPEG/MOV/MP4 files in the same folder or subfolders (default is 'photos'): " +:+ nl) ].

(** The error code of [stat] and [lstat] on a path that names nothing:
    that of reading the path, or [ENOENT] when only the last name is
    missing. *)
Definition stat_errno (env : Env) (m : fsmap) (p : string) : errno :=
  match Fs.resolve m (cwd env) p with inl c => c | inr _ => ENOENT end.

(** The metadata a file carries under a key, as the service reads it. *)
Definition metadata (env : Env) (w : World) (file key : string) : option tagval :=
  match exif_read env (files w) file with
  | inr t => tag_get t key
  | inl _ => None
  end.

(** The four names the command-line muxer probes, in its order. *)
Definition probed_exts : list string := [".mov"; ".mp4"; ".MOV"; ".MP4"].

(** The mapping the command-line muxer writes: what it read, with the four
    keys assigned in source order. *)
Definition assigned_v2 (metadata : tags) (offset : Z) : tags :=
  tag_set
    (tag_set
       (tag_set (tag_set metadata "Xmp.GCamera.MicroVideo" (VNum 1))
          "Xmp.GCamera.MicroVideoVersion" (VNum 1))
       "Xmp.GCamera.MicroVideoOffset" (VNum offset))
    "Xmp.GCamera.MicroVideoPresentationTimestampUs" (VNum 1500000).

Definition slash : ascii := "/"%char.

(** A segment that names an entry: not empty, not [.] or [..], no slash. *)
Definition plain (s : string) : Prop :=
  s ≠ "" ∧ s ≠ "." ∧ s ≠ ".." ∧ slash ∉ Js.chars s.

(** The file names [uniquePath] tests, in order: the given one, then the
    numbered ones from [counter] on. *)
Fixpoint tried (name ext : string) (counter : N) (newFilename : string) (j : nat)
  : string :=
  match j with
  | O => newFilename
  | S j' => tried name ext (counter + 1)%N (V1.candidate name ext counter) j'
  end.

(** What is known of the metadata service.  The four motion-photo tags,
    written under their names in the group [XMP], are read back from the
    file with the values written, under their names without the group.
    What is read from a file depends on that file only.  A mapping with a
    key that has a dot in it is refused: such a key is no tag name. *)
Definition reads_back_what_was_written (env : Env) : Prop :=
  ∀ m file offset m' key v,
    exif_write env m file (V1.motion_tags offset) = inr m' →
    tag_get (V1.motion_tags offset) key = Some v →
    ∃ t', exif_read env m' file = inr t' ∧ tag_get t' (tag_name key) = Some v.

Definition refuses_dotted_names (env : Env) : Prop :=
  ∀ m file t key,
    key ∈ t.*1 → "."%char ∈ Js.chars key → ∃ e, exif_write env m file t = inl e.

Definition reads_the_file_only (env : Env) : Prop :=
  ∀ m m' file,
    node_at env m file = node_at env m' file →
    exif_read env m file = exif_read env m' file.


(** A computation is orderly when, however it ends, every entry of the
    two global lists is still there, in its place, and the process has
    not been ended with a status outside [codes]. *)
Definition orderly {A} (codes : list Z) (m : M A) : Prop :=
  ∀ w,
    problematicFiles w `prefix_of` problematicFiles (final_world (m w))
    ∧ processedFiles w `prefix_of` processedFiles (final_world (m w))
    ∧ ∀ c, ending_of (m w) = Exited c → c ∈ codes.
(** * Properties *)

(** ** The string and path functions on the documented examples of Node *)

Example lower_ex : Js.toLowerCase "IMG_0001.JpEg" = "img_0001.jpeg".
Proof. vm_compute. reflexivity. Qed.
Example ends_ex : Js.endsWith "a/b.mov" ".mov" = true ∧ Js.endsWith "ov" ".mov" = false.
Proof. vm_compute. auto. Qed.
Example split_ex : Js.split "/" "a//b/" = ["a"; ""; "b"; ""] ∧ Js.split "/" "" = [""].
Proof. vm_compute. auto. Qed.
Example trim_ex : Js.trim "  photos dir   " = "photos dir".
Proof. vm_compute. reflexivity. Qed.
(** A no-break space is trimmed like a space, and so are the other
    spaces beyond the ASCII range (here U+FEFF, U+2003, U+3000, U+1680,
    U+2028, U+205F); inside the text they stay. *)
Example trim_nbsp_ex :
  let utf8 (codes : list Z) := Js.str ((λ z, ascii_of_nat (Z.to_nat z)) <$> codes) in
  Js.trim (Sample.nbsp +:+ "photos" +:+ Sample.nbsp +:+ " ") = "photos"
  ∧ Js.trim ("a" +:+ Sample.nbsp +:+ "b") = "a" +:+ Sample.nbsp +:+ "b"
  ∧ Js.trim (utf8 [239; 187; 191; 226; 128; 131] +:+ "photos"
             +:+ utf8 [227; 128; 128; 225; 154; 128; 226; 128; 168; 226; 129; 159])
    = "photos"
  ∧ Js.trim (utf8 [226; 128; 139] +:+ "photos") = utf8 [226; 128; 139] +:+ "photos".
Proof. cbv zeta. repeat split; vm_compute; reflexivity. Qed.
Example normalize_ex :
  Path.normalize "a/./b/../../c/" = "c/" ∧ Path.normalize "../a/../../b" = "../../b"
  ∧ Path.normalize "/../a//b" = "/a/b" ∧ Path.normalize "./" = "./"
  ∧ Path.normalize "a/.." = "." ∧ Path.normalize "/" = "/".
Proof. vm_compute. repeat split. Qed.
Example join_ex :
  Path.join "out" "IMG_0001.jpg" = "out/IMG_0001.jpg" ∧ Path.join "out/" "a.jpg" = "out/a.jpg"
  ∧ Path.join "" "" = "." ∧ Path.join "./photos" "x.mov" = "photos/x.mov"
  ∧ Path.join "/" "x" = "/x" ∧ Path.join "a" ".." = ".".
Proof. vm_compute. repeat split. Qed.
Example basename_ex :
  Path.basename "photos/IMG.jpg" = "IMG.jpg" ∧ Path.basename "a/b/" = "b"
  ∧ Path.basename "/" = "" ∧ Path.basename "x" = "x".
Proof. vm_compute. repeat split. Qed.
Example dirname_ex :
  Path.dirname "a/b" = "a" ∧ Path.dirname "/a" = "/" ∧ Path.dirname "a" = "."
  ∧ Path.dirname "a/b/" = "a" ∧ Path.dirname "/a/b" = "/a" ∧ Path.dirname "//a" = "//"
  ∧ Path.dirname "a//b" = "a/" ∧ Path.dirname "" = ".".
Proof. vm_compute. repeat split. Qed.
Example parse_ex :
  Path.parse "photos/IMG.0001.jpg" = {| Path.root := ""; Path.dir := "photos"; Path.base := "IMG.0001.jpg"; Path.name := "IMG.0001"; Path.ext := ".jpg" |}
  ∧ Path.parse "/a.jpg" = {| Path.root := "/"; Path.dir := "/"; Path.base := "a.jpg"; Path.name := "a"; Path.ext := ".jpg" |}
  ∧ Path.parse ".bashrc" = {| Path.root := ""; Path.dir := ""; Path.base := ".bashrc"; Path.name := ".bashrc"; Path.ext := "" |}
  ∧ Path.parse "x/.." = {| Path.root := ""; Path.dir := "x"; Path.base := ".."; Path.name := ".."; Path.ext := "" |}
  ∧ Path.parse "a." = {| Path.root := ""; Path.dir := ""; Path.base := "a."; Path.name := "a"; Path.ext := "." |}
  ∧ Path.parse "..b" = {| Path.root := ""; Path.dir := ""; Path.base := "..b"; Path.name := "."; Path.ext := ".b" |}
  ∧ Path.parse "x//a.tar.gz/" = {| Path.root := ""; Path.dir := "x/"; Path.base := "a.tar.gz"; Path.name := "a.tar"; Path.ext := ".gz" |}.
Proof. vm_compute. repeat split. Qed.
Example key_ex :
  Lexical.key ["home"; "u"] "photos/../out/./a.jpg" = Some ["home"; "u"; "out"; "a.jpg"]
  ∧ Lexical.key ["home"; "u"] "/tmp//x" = Some ["tmp"; "x"]
  ∧ Lexical.key ["home"] "../../.." = Some [] ∧ Lexical.key ["home"] "" = None.
Proof. vm_compute. repeat split. Qed.

Arguments Path.join : simpl never.
Arguments Path.basename : simpl never.
Arguments Path.dirname : simpl never.
Arguments Path.parse : simpl never.
Arguments Lexical.key : simpl never.
Arguments Path.normalize : simpl never.

(** ** Running computations *)

Lemma run_bind {A B} (m : M A) (k : A → M B) w :
  (m ≫= k) w = match m w with
               | Ret a w' => k a w'
               | Throw e w' => Throw e w'
               | Exit c w' => Exit c w'
               end.
Proof. reflexivity. Qed.

Lemma bind_Ret {A B} (m : M A) (k : A → M B) w b w' :
  (m ≫= k) w = Ret b w' → ∃ a w1, m w = Ret a w1 ∧ k a w1 = Ret b w'.
Proof. rewrite run_bind. destruct (m w); [eauto | done..]. Qed.

(** A run is determined by how it ended and the world it ended in. *)
Lemma ending_Returned {A} (r : Res A) a :
  ending_of r = Returned a → r = Ret a (final_world r).
Proof. by destruct r; intros [= ->]. Qed.


Lemma ending_Exited {A} (r : Res A) c :
  ending_of r = Exited c → r = Exit c (final_world r).
Proof. by destruct r; intros [= ->]. Qed.

Lemma succeeded {E A} (x : E + A) :
  (match x with inr _ => true | inl _ => false end) = true → ∃ a, x = inr a.
Proof. destruct x; [done|eauto]. Qed.

Lemma log_to_app w es1 es2 : log_to (log_to w es1) es2 = log_to w (es1 ++ es2).
Proof. unfold log_to; simpl. by rewrite <- app_assoc. Qed.

Lemma log_to_nil w : log_to w [] = w.
Proof. destruct w; unfold log_to; simpl. by rewrite app_nil_r. Qed.

Tactic Notation "unfold_M" :=
  unfold console_log, console_warn, console_error, when;
  unfold mbind, M_bind, mret, M_ret, bind, ret, throw, exit, emit, get_files,
    set_files, sys, lib.
Tactic Notation "unfold_M" "in" hyp(H) :=
  unfold console_log, console_warn, console_error, when in H;
  unfold mbind, M_bind, mret, M_ret, bind, ret, throw, exit, emit, get_files,
    set_files, sys, lib in H.

(** ** The file system *)

Lemma look_ne m k : k ≠ [] → Fs.look m k = m !! k.
Proof. intros Hk. unfold Fs.look. by rewrite decide_False. Qed.

Lemma snoc_ne {A} (l : list A) x : l ++ [x] ≠ [].
Proof. by destruct l. Qed.

Lemma mkdirs_lookup m cur segs m' k :
  Fs.mkdirs m cur segs = inr m' →
  m' !! k = m !! k ∨ (m !! k = None ∧ m' !! k = Some Dir).
Proof.
  revert m cur. induction segs as [|seg rest IH]; intros m cur H; simpl in H.
  { destruct (Fs.look m cur) as [[]|]; simplify_eq. by left. }
  destruct (Fs.look m cur) as [[]|]; [done| |done].
  case_decide; [by eapply IH|]. case_decide; [by eapply IH|].
  destruct (Fs.look m (cur ++ [seg])) as [n|] eqn:Hl; [by eapply IH|].
  apply IH in H. rewrite look_ne in Hl by apply snoc_ne.
  destruct (decide (k = cur ++ [seg])) as [->|Hne].
  - rewrite lookup_insert_eq in H. right. split; [done|]. by destruct H as [->|[? _]].
  - by rewrite lookup_insert_ne in H.
Qed.

(** [mkdir -p] changes no entry; it only adds directories. *)
Lemma mkdir_p_lookup m cwd p m1 k :
  Fs.mkdir_p m cwd p = inr m1 →
  m1 !! k = m !! k ∨ (m !! k = None ∧ m1 !! k = Some Dir).
Proof. unfold Fs.mkdir_p. case_decide; [done|]. apply mkdirs_lookup. Qed.

Lemma mkdir_p_look m cwd p m1 k :
  Fs.mkdir_p m cwd p = inr m1 →
  Fs.look m1 k = Fs.look m k ∨ (Fs.look m k = None ∧ Fs.look m1 k = Some Dir).
Proof.
  intros H. unfold Fs.look. case_decide; [by left|]. by eapply mkdir_p_lookup.
Qed.

Lemma mkdir_p_file m cwd p m1 k d :
  Fs.mkdir_p m cwd p = inr m1 → m1 !! k = Some (File d) ↔ m !! k = Some (File d).
Proof.
  intros H. destruct (mkdir_p_lookup _ _ _ _ k H) as [->|[-> ->]]; naive_solver.
Qed.

Lemma mkdir_p_keeps m cwd p m1 k n :
  Fs.mkdir_p m cwd p = inr m1 → Fs.look m k = Some n → Fs.look m1 k = Some n.
Proof.
  intros H Hk. destruct (mkdir_p_look _ _ _ _ k H) as [->|[? _]]; congruence.
Qed.

Lemma look_write m k d m' k' :
  Fs.write m k d = inr m' →
  Fs.look m' k' = if decide (k' = k) then Some (File d) else Fs.look m k'.
Proof.
  unfold Fs.write. destruct (Fs.look m (Fs.parent k)) as [[]|]; [done| |done].
  intros H.
  assert (k ≠ [] ∧ m' = <[k := File d]> m) as [Hk ->].
  { unfold Fs.look in H. destruct (decide (k = [])); [done|].
    split; [done|]. destruct (m !! k) as [[]|]; by simplify_eq. }
  unfold Fs.look. destruct (decide (k' = k)) as [->|].
  - rewrite decide_False by done. by rewrite lookup_insert_eq.
  - by rewrite lookup_insert_ne.
Qed.

Lemma write_inv m k d m' :
  Fs.write m k d = inr m' →
  k ≠ [] ∧ Fs.look m k ≠ Some Dir ∧ m' = <[k := File d]> m.
Proof.
  unfold Fs.write. destruct (Fs.look m (Fs.parent k)) as [[]|]; [done| |done].
  destruct (Fs.look m k) as [[]|] eqn:Hk; intros [= <-]; (split; [|done]);
    intros ->; by vm_compute in Hk.
Qed.

(** *** Reading paths *)

(** A path that can be read can still be read, and leads to the same
    key, when every directory is still there. *)
Lemma walk_mono m m' cur segs k :
  (∀ k, Fs.look m k = Some Dir → Fs.look m' k = Some Dir) →
  Fs.walk m cur segs = inr k → Fs.walk m' cur segs = inr k.
Proof.
  intros Hd. revert cur. induction segs as [|seg rest IH]; intros cur; simpl; [done|].
  destruct (Fs.look m cur) as [[]|] eqn:Hc; [done| |done].
  rewrite (Hd _ Hc). repeat case_decide; apply IH.
Qed.

(** Where a path leads is the key computed from the path alone. *)
Lemma walk_key m cur segs k :
  Fs.walk m cur segs = inr k → k = Lexical.walk (reverse cur) segs.
Proof.
  revert cur. induction segs as [|seg rest IH]; intros cur; simpl.
  { intros [= <-]. by rewrite reverse_involutive. }
  destruct (Fs.look m cur) as [[]|]; [done| |done]. repeat case_decide.
  - apply IH.
  - intros E%IH. unfold Fs.parent in E. by rewrite reverse_involutive in E.
  - intros E%IH. by rewrite reverse_app in E.
Qed.

Section Primitives.
Context (env : Env).

Lemma resolve_key m p k : Fs.resolve m (cwd env) p = inr k → locate env p = Some k.
Proof.
  unfold Fs.resolve, locate, Lexical.key. case_decide; [done|].
  destruct (Path.isAbsolute p); by intros ->%walk_key.
Qed.

Lemma resolve_mono m m' p k :
  (∀ k, Fs.look m k = Some Dir → Fs.look m' k = Some Dir) →
  Fs.resolve m (cwd env) p = inr k → Fs.resolve m' (cwd env) p = inr k.
Proof. intros Hd. unfold Fs.resolve. case_decide; [done|]. by apply walk_mono. Qed.

Lemma node_at_Some m p n :
  node_at env m p = Some n
  ↔ ∃ k, Fs.resolve m (cwd env) p = inr k ∧ Fs.look m k = Some n.
Proof.
  unfold node_at. destruct (Fs.resolve m (cwd env) p) as [c|k].
  { split; [done|]. by intros (? & ? & _). }
  split; [by exists k|]. by intros (k' & [= <-] & ?).
Qed.

Lemma node_at_key m p n :
  node_at env m p = Some n → ∃ k, locate env p = Some k ∧ Fs.look m k = Some n.
Proof. intros (k & Hk%resolve_key & Hn)%node_at_Some. eauto. Qed.

Lemma node_at_empty m : node_at env m "" = None.
Proof. reflexivity. Qed.

(** An entry a path names is still named by it when the directories are
    still there and the entry is. *)
Lemma node_at_mono m m' p n :
  (∀ k, Fs.look m k = Some Dir → Fs.look m' k = Some Dir) →
  (∀ k, locate env p = Some k → Fs.look m k = Some n → Fs.look m' k = Some n) →
  node_at env m p = Some n → node_at env m' p = Some n.
Proof.
  intros Hd Hn (k & Hk & Hl)%node_at_Some. apply node_at_Some. exists k.
  split; [by eapply resolve_mono|]. apply Hn; [by eapply resolve_key|done].
Qed.

(** Two file systems with the same directories name the same entry by a
    path if they agree on the key the path leads to. *)
Lemma node_at_same m m' p :
  (∀ k, Fs.look m k = Some Dir ↔ Fs.look m' k = Some Dir) →
  (∀ k, locate env p = Some k → Fs.look m' k = Fs.look m k) →
  node_at env m' p = node_at env m p.
Proof.
  intros Hd Hn. unfold node_at.
  destruct (Fs.resolve m (cwd env) p) as [c|k] eqn:Hk.
  - destruct (Fs.resolve m' (cwd env) p) as [c'|k'] eqn:Hk'; [done|].
    apply (resolve_mono m' m) in Hk'; [congruence|]. intros k0. apply Hd.
  - apply (resolve_mono m m') in Hk as Hk'; [|intros k0; apply Hd].
    rewrite Hk'. apply Hn. by eapply resolve_key.
Qed.

(** What a change of one key that is not a directory, before or after,
    does to the entries paths name. *)
Lemma node_at_change m m' k0 p :
  (∀ k, k ≠ k0 → Fs.look m' k = Fs.look m k) →
  Fs.look m k0 ≠ Some Dir → Fs.look m' k0 ≠ Some Dir →
  (locate env p ≠ Some k0 → node_at env m' p = node_at env m p)
  ∧ (∀ n, node_at env m p = Some n → locate env p = Some k0 →
          node_at env m' p = Fs.look m' k0).
Proof.
  intros Hother H0 H0'.
  assert (∀ k, Fs.look m k = Some Dir ↔ Fs.look m' k = Some Dir) as Hd.
  { intros k. destruct (decide (k = k0)) as [->|Hk]; [naive_solver|].
    by rewrite Hother. }
  split.
  - intros Hne. apply node_at_same; [done|]. intros k Hk. apply Hother. congruence.
  - intros n (k & Hk & Hl)%node_at_Some Hloc.
    pose proof (resolve_key _ _ _ Hk) as Hk0. rewrite Hloc in Hk0. injection Hk0 as <-.
    unfold node_at. by rewrite (resolve_mono m m' p k0 (λ k, proj1 (Hd k)) Hk).
Qed.

Lemma mkdir_p_node_at m p m1 q n :
  Fs.mkdir_p m (cwd env) p = inr m1 → node_at env m q = Some n → node_at env m1 q = Some n.
Proof.
  intros H. apply node_at_mono.
  - intros k. by eapply mkdir_p_keeps.
  - intros k _. by eapply mkdir_p_keeps.
Qed.

Lemma run_existsSync p w :
  existsSync env p w
  = Ret (bool_decide (is_Some (node_at env (files w) p))) (log_to w [FsExists p]).
Proof. reflexivity. Qed.

Lemma run_readFileSync p w :
  readFileSync env p w
  = match at_path env (files w) p (Fs.read (files w)) with
    | inr d => Ret d (log_to w [FsRead p])
    | inl c => Throw (SysError c "open" p) (log_to w [FsRead p])
    end.
Proof. unfold readFileSync; unfold_M; simpl. by destruct (at_path _ _ _ _). Qed.

Lemma run_writeFileSync p d w :
  writeFileSync env p d w
  = match at_path env (files w) p (λ k, Fs.write (files w) k d) with
    | inr m' => Ret tt (with_files (log_to w [FsWrite p d]) m')
    | inl c => Throw (SysError c "open" p) (log_to w [FsWrite p d])
    end.
Proof. unfold writeFileSync; unfold_M; simpl. by destruct (at_path _ _ _ _). Qed.

Lemma run_mkdirSync p w :
  mkdirSync env p w
  = match Fs.mkdir_p (files w) (cwd env) p with
    | inr m' => Ret tt (with_files (log_to w [FsMkdir p]) m')
    | inl c => Throw (SysError c "mkdir" p) (log_to w [FsMkdir p])
    end.
Proof. unfold mkdirSync; unfold_M; simpl. by destruct (Fs.mkdir_p _ _ _). Qed.

Lemma run_statSync p w :
  statSync env p w
  = match node_at env (files w) p with
    | Some n => Ret n (log_to w [FsStat p])
    | None =>
        Throw (SysError (stat_errno env (files w) p) "stat" p) (log_to w [FsStat p])
    end.
Proof.
  unfold statSync, node_at, at_path, stat_node, stat_errno; unfold_M; simpl.
  destruct (Fs.resolve (files w) (cwd env) p) as [c|k]; simpl; [done|].
  by destruct (Fs.look (files w) k).
Qed.

Lemma run_lstatSync p w :
  lstatSync env p w
  = match node_at env (files w) p with
    | Some n => Ret n (log_to w [FsLstat p])
    | None =>
        Throw (SysError (stat_errno env (files w) p) "lstat" p) (log_to w [FsLstat p])
    end.
Proof.
  unfold lstatSync, node_at, at_path, stat_node, stat_errno; unfold_M; simpl.
  destruct (Fs.resolve (files w) (cwd env) p) as [c|k]; simpl; [done|].
  by destruct (Fs.look (files w) k).
Qed.

Lemma run_unlinkSync p w :
  unlinkSync env p w
  = match at_path env (files w) p (Fs.unlink (files w)) with
    | inr m' => Ret tt (with_files (log_to w [FsUnlink p]) m')
    | inl c => Throw (SysError c "unlink" p) (log_to w [FsUnlink p])
    end.
Proof. unfold unlinkSync; unfold_M; simpl. by destruct (at_path _ _ _ _). Qed.

Lemma run_readdirSync p w :
  readdirSync env p w
  = match at_path env (files w) p (Fs.readdir (files w)) with
    | inr names => Ret names (log_to w [FsReaddir p])
    | inl c => Throw (SysError c "scandir" p) (log_to w [FsReaddir p])
    end.
Proof. unfold readdirSync; unfold_M; simpl. by destruct (at_path _ _ _ _). Qed.

Lemma at_path_read m p d :
  at_path env m p (Fs.read m) = inr d ↔ node_at env m p = Some (File d).
Proof.
  unfold at_path, node_at, Fs.read.
  destruct (Fs.resolve m (cwd env) p) as [c|k]; simpl; [done|].
  destruct (Fs.look m k) as [[]|]; naive_solver.
Qed.

(** A successful write: the path leads to a key that is not the root and
    held no directory; afterwards the path names the file written, and
    every path that leads elsewhere names what it named. *)
Lemma at_path_write m p d m2 :
  at_path env m p (λ k, Fs.write m k d) = inr m2 →
  ∃ kp,
    locate env p = Some kp ∧ kp ≠ [] ∧ m2 = <[kp := File d]> m
    ∧ Fs.look m kp ≠ Some Dir
    ∧ node_at env m2 p = Some (File d)
    ∧ (∀ q, locate env q ≠ Some kp → node_at env m2 q = node_at env m q)
    ∧ (∀ q n, node_at env m q = Some n → locate env q = Some kp →
              node_at env m2 q = Some (File d)).
Proof.
  unfold at_path. destruct (Fs.resolve m (cwd env) p) as [c|kp] eqn:Hkp; [done|].
  intros H. pose proof (λ k', look_write _ _ _ _ k' H) as Hlook.
  apply write_inv in H as (Hne & Hnd & ->). exists kp.
  assert (∀ k, k ≠ kp → Fs.look (<[kp := File d]> m) k = Fs.look m k) as Hother.
  { intros k Hk. rewrite Hlook. by rewrite decide_False. }
  assert (Fs.look (<[kp := File d]> m) kp = Some (File d)) as Hat.
  { rewrite Hlook. by rewrite decide_True. }
  destruct (node_at_change m (<[kp := File d]> m) kp p Hother Hnd) as [_ Hp];
    [by rewrite Hat|].
  split_and!; try done.
  - by eapply resolve_key.
  - unfold node_at. rewrite (resolve_mono m _ p kp); [done| |done].
    intros k Hk. rewrite Hother; [done|]. intros ->. by apply Hnd.
  - intros q. apply (node_at_change m (<[kp := File d]> m) kp q Hother Hnd).
    by rewrite Hat.
  - intros q n Hq Hloc.
    destruct (node_at_change m (<[kp := File d]> m) kp q Hother Hnd) as [_ Hq'];
      [by rewrite Hat|].
    by rewrite (Hq' n Hq Hloc).
Qed.

Lemma node_size_app (a b : list byte) :
  Fs.node_size (File (a ++ b)) = (Fs.node_size (File a) + Fs.node_size (File b))%Z.
Proof. simpl. rewrite length_app. lia. Qed.

(** ** The muxer of the interactive converter *)

(** Every way [mergeFiles] can return: the directory could be made, both
    inputs were read, the output was written. *)
Lemma mergeFiles_Ret photoPath videoPath outputPath w outPath w' :
  V1.mergeFiles env photoPath videoPath outputPath w = Ret outPath w' →
  ∃ m1 photo video m2,
    outPath = Path.join outputPath (Path.basename photoPath)
    ∧ Fs.mkdir_p (files w) (cwd env) (Path.dirname outPath) = inr m1
    ∧ at_path env m1 photoPath (Fs.read m1) = inr photo
    ∧ at_path env m1 videoPath (Fs.read m1) = inr video
    ∧ at_path env m1 outPath (λ k, Fs.write m1 k (photo ++ video)) = inr m2
    ∧ w' = mkWorld m2
             (trace w ++
                [Console Log ("Merging " +:+ photoPath +:+ " and " +:+ videoPath +:+ ".");
                 FsMkdir (Path.dirname outPath); FsRead photoPath; FsRead videoPath;
                 FsWrite outPath (photo ++ video)])
             (problematicFiles w) (processedFiles w ++ [photoPath; videoPath])
             (pending w).
Proof.
  unfold V1.mergeFiles. intros H.
  apply bind_Ret in H as ([] & w1 & H1 & H). injection H1 as <-.
  apply bind_Ret in H as ([] & w2 & H2 & H).
  rewrite run_mkdirSync in H2.
  destruct (Fs.mkdir_p _ _ _) as [|m1] eqn:Hmk; [done|]. injection H2 as <-.
  apply bind_Ret in H as (photo & w3 & H3 & H). rewrite run_readFileSync in H3.
  destruct (at_path env _ photoPath _) as [|photo'] eqn:Hp; [done|]. injection H3 as -> <-.
  apply bind_Ret in H as (video & w4 & H4 & H). rewrite run_readFileSync in H4.
  destruct (at_path env _ videoPath _) as [|video'] eqn:Hv; [done|]. injection H4 as -> <-.
  apply bind_Ret in H as ([] & w5 & H5 & H). rewrite run_writeFileSync in H5.
  destruct (at_path env _ (Path.join _ _) _) as [|m2] eqn:Hw; [done|]. injection H5 as <-.
  apply bind_Ret in H as ([] & w6 & H6 & H). injection H6 as <-. injection H as <- <-.
  exists m1, photo, video, m2. simpl in *.
  repeat split; try done. unfold log_to, with_files; simpl. by rewrite <- !app_assoc.
Qed.

(** The muxer of the interactive converter writes the concatenation
    before it returns: whenever [mergeFiles] returns, the file at the
    derived output path [path.join(outputPath, path.basename(photoPath))]
    holds exactly the bytes of the still followed at once by the bytes of
    the video, and so its size is the sum of the two sizes. *)
Lemma mergeFiles_writes_concatenation
    photoPath videoPath outputPath w outPath w' photo video :
  node_at env (files w) photoPath = Some (File photo) →
  node_at env (files w) videoPath = Some (File video) →
  V1.mergeFiles env photoPath videoPath outputPath w = Ret outPath w' →
  outPath = Path.join outputPath (Path.basename photoPath)
  ∧ node_at env (files w') outPath = Some (File (photo ++ video))
  ∧ Fs.node_size (File (photo ++ video))
    = (Fs.node_size (File photo) + Fs.node_size (File video))%Z.
Proof.
  intros Hp0 Hv0 (m1 & photo' & video' & m2 & -> & Hmk & Hp & Hv & Hw & ->)%mergeFiles_Ret.
  apply at_path_read in Hp, Hv.
  rewrite (mkdir_p_node_at _ _ _ _ _ Hmk Hp0) in Hp.
  rewrite (mkdir_p_node_at _ _ _ _ _ Hmk Hv0) in Hv.
  injection Hp as <-. injection Hv as <-.
  apply at_path_write in Hw as (ko & _ & _ & _ & _ & Hout & _).
  split; [done|]. split; [done|]. apply node_size_app.
Qed.

(** X20: the other way [mergeFiles] can end: with the error of a
    file-system call, in which case no regular file has been created or
    changed (at most, directories were made).  It never ends the
    process. *)
Lemma mergeFiles_Throw photoPath videoPath outputPath w :
  match V1.mergeFiles env photoPath videoPath outputPath w with
  | Ret _ _ => True
  | Throw e w' =>
      (∃ c call p, e = SysError c call p)
      ∧ ∀ k d, files w' !! k = Some (File d) ↔ files w !! k = Some (File d)
  | Exit _ _ => False
  end.
Proof.
  unfold V1.mergeFiles. rewrite !run_bind. simpl.
  rewrite run_bind, run_mkdirSync. simpl.
  destruct (Fs.mkdir_p _ _ _) as [c|m1] eqn:Hmk.
  { split; [eauto|done]. }
  rewrite run_bind, run_readFileSync. simpl.
  destruct (at_path env m1 photoPath (Fs.read m1)) as [c|photo].
  { split; [eauto|]. intros k d. by eapply mkdir_p_file. }
  rewrite run_bind, run_readFileSync. simpl.
  destruct (at_path env m1 videoPath (Fs.read m1)) as [c|video].
  { split; [eauto|]. intros k d. by eapply mkdir_p_file. }
  rewrite run_bind, run_writeFileSync. simpl.
  destruct (at_path env m1 _ (λ k, Fs.write m1 k _)) as [c|m2]; [|done].
  split; [eauto|]. intros k d. by eapply mkdir_p_file.
Qed.

(** When [mergeFiles] returns it has changed one entry, the one the
    output path leads to; of all others it has changed none, and added
    only directories (those [mkdirSync] makes on the way to the
    output). *)
Lemma mergeFiles_frame photoPath videoPath outputPath w outPath w' :
  V1.mergeFiles env photoPath videoPath outputPath w = Ret outPath w' →
  ∃ ko,
    locate env outPath = Some ko
    ∧ ∀ k, k ≠ ko →
           files w' !! k = files w !! k
           ∨ (files w !! k = None ∧ files w' !! k = Some Dir).
Proof.
  intros (m1 & photo & video & m2 & -> & Hmk & Hp & Hv & Hw & ->)%mergeFiles_Ret.
  apply at_path_write in Hw as (ko & Hko & _ & -> & _). exists ko.
  split; [done|]. intros k Hk. simpl. rewrite lookup_insert_ne by done.
  by eapply mkdir_p_lookup.
Qed.

End Primitives.

(** Reading a path in a file system: every directory on the way has to
    be there, also one that [..] leaves again, and a name followed by a
    slash has to be a directory. *)
Example resolve_ex :
  let m := files Sample.one_pair in
  Fs.resolve m Sample.home "photos/IMG_0001.jpg"
  = inr (Sample.at_home ["photos"; "IMG_0001.jpg"])
  ∧ Fs.resolve m Sample.home "photos/new.jpg" = inr (Sample.at_home ["photos"; "new.jpg"])
  ∧ Fs.resolve m Sample.home "./photos/../output/" = inr (Sample.at_home ["output"])
  ∧ Fs.resolve m Sample.home "/home/u/photos" = inr (Sample.at_home ["photos"])
  ∧ Fs.resolve m Sample.home "nowhere/../photos" = inl ENOENT
  ∧ Fs.resolve m Sample.home "nowhere/new.jpg" = inl ENOENT
  ∧ Fs.resolve m Sample.home "photos/IMG_0001.jpg/" = inl ENOTDIR
  ∧ Fs.resolve m Sample.home "photos/IMG_0001.jpg/.." = inl ENOTDIR
  ∧ Fs.resolve m Sample.home "" = inl ENOENT.
Proof. cbv zeta. repeat split; vm_compute; reflexivity. Qed.

Example node_at_ex :
  let m := files Sample.one_pair in
  node_at Sample.env m "photos" = Some Dir
  ∧ node_at Sample.env m "photos/" = Some Dir
  ∧ node_at Sample.env m "nowhere/../photos" = None
  ∧ node_at Sample.env m "photos/IMG_0001.jpg" = Some (File Sample.still)
  ∧ node_at Sample.env m "photos/IMG_0001.jpg/" = None.
Proof. cbv zeta. repeat split; vm_compute; reflexivity. Qed.

(** [mkdir -p] makes what is missing on the way, also where the path goes
    back up. *)
Example mkdir_ex :
  let m := files Sample.one_pair in
  (∃ m', Fs.mkdir_p m Sample.home "output/a/b" = inr m'
         ∧ m' !! Sample.at_home ["output"; "a"] = Some Dir
         ∧ m' !! Sample.at_home ["output"; "a"; "b"] = Some Dir)
  ∧ (∃ m', Fs.mkdir_p m Sample.home "tmp/../other" = inr m'
           ∧ m' !! Sample.at_home ["tmp"] = Some Dir
           ∧ m' !! Sample.at_home ["other"] = Some Dir)
  ∧ Fs.mkdir_p m Sample.home "photos/IMG_0001.jpg" = inl EEXIST
  ∧ Fs.mkdir_p m Sample.home "photos/IMG_0001.jpg/x" = inl ENOTDIR.
Proof.
  cbv zeta. split_and!.
  - destruct (succeeded (Fs.mkdir_p (files Sample.one_pair) Sample.home "output/a/b")
                ltac:(vm_compute; reflexivity)) as [m' Hm].
    exists m'. split; [done|].
    assert (match Fs.mkdir_p (files Sample.one_pair) Sample.home "output/a/b" with
            | inr m' => m' !! Sample.at_home ["output"; "a"] = Some Dir
                        ∧ m' !! Sample.at_home ["output"; "a"; "b"] = Some Dir
            | inl _ => False
            end) as H by (vm_compute; auto).
    by rewrite Hm in H.
  - destruct (succeeded (Fs.mkdir_p (files Sample.one_pair) Sample.home "tmp/../other")
                ltac:(vm_compute; reflexivity)) as [m' Hm].
    exists m'. split; [done|].
    assert (match Fs.mkdir_p (files Sample.one_pair) Sample.home "tmp/../other" with
            | inr m' => m' !! Sample.at_home ["tmp"] = Some Dir
                        ∧ m' !! Sample.at_home ["other"] = Some Dir
            | inl _ => False
            end) as H by (vm_compute; auto).
    by rewrite Hm in H.
  - vm_compute. reflexivity.
  - vm_compute. reflexivity.
Qed.

(** ** Validation *)

Lemma chars_str l : Js.chars (Js.str l) = l.
Proof. apply String.list_ascii_of_string_of_list_ascii. Qed.

Lemma str_chars s : Js.str (Js.chars s) = s.
Proof. apply String.string_of_list_ascii_of_string. Qed.

Lemma length_chars s : length (Js.chars s) = String.length s.
Proof. induction s; simpl; [done|]. by f_equal. Qed.

Lemma endsWith_suffix s suf : Js.endsWith s suf = true ↔ Js.chars suf `suffix_of` Js.chars s.
Proof. unfold Js.endsWith. apply bool_decide_eq_true. Qed.

Lemma endsWith_toLowerCase s suf :
  Js.endsWith s suf = true → Js.endsWith (Js.toLowerCase s) (Js.toLowerCase suf) = true.
Proof.
  rewrite !endsWith_suffix. unfold Js.toLowerCase. rewrite !chars_str.
  intros [k ->]. exists (Js.lower_ascii <$> k). by rewrite fmap_app.
Qed.

Lemma endsWith_same_length s a b :
  String.length a = String.length b →
  Js.endsWith s a = true → Js.endsWith s b = true → a = b.
Proof.
  rewrite !endsWith_suffix. intros Hlen [k1 H1] [k2 H2].
  rewrite <- (str_chars a), <- (str_chars b). f_equal.
  rewrite H1 in H2. apply app_inj_2 in H2 as [_ ?]; [done|].
  by rewrite !length_chars.
Qed.

(** A name ending in [.txt] is not a video name. *)
Lemma txt_is_not_video v : Js.endsWith v ".txt" = true → V1.is_video_name v = false.
Proof.
  intros H%endsWith_toLowerCase. change (Js.toLowerCase ".txt") with ".txt" in H.
  unfold V1.is_video_name.
  apply orb_false_iff. split; apply not_true_is_false; intros H'.
  - by pose proof (endsWith_same_length _ ".txt" ".mov" eq_refl H H').
  - by pose proof (endsWith_same_length _ ".txt" ".mp4" eq_refl H H').
Qed.

Section Validation.
Context (env : Env).

Lemma run_validateFile f w :
  V1.validateFile env f w
  = if negb (Js.truthy f) then Ret false (log_to w [Console Err "No file path provided."])
    else if bool_decide (is_Some (node_at env (files w) f))
         then Ret true (log_to w [FsExists f])
         else Ret false (log_to w [FsExists f; Console Err ("File does not exist: " +:+ f)]).
Proof.
  unfold V1.validateFile. destruct (negb (Js.truthy f)); [done|].
  rewrite run_bind, run_existsSync.
  destruct (bool_decide _); unfold_M; simpl; by rewrite ?log_to_app.
Qed.

Lemma run_validateDirectory d w :
  V1.validateDirectory env d w
  = if negb (Js.truthy d) then
      Ret false (log_to w [Console Err "No directory path provided."])
    else match node_at env (files w) d with
         | None =>
             Ret false (log_to w [FsExists d; Console Err ("Directory does not exist: " +:+ d)])
         | Some (File _) =>
             Ret false (log_to w [FsExists d; FsLstat d;
                                  Console Err ("Path is not a directory: " +:+ d)])
         | Some Dir => Ret true (log_to w [FsExists d; FsLstat d])
         end.
Proof.
  unfold V1.validateDirectory. destruct (negb (Js.truthy d)); [done|].
  rewrite run_bind, run_existsSync.
  destruct (node_at env (files w) d) as [n|] eqn:E.
  - rewrite bool_decide_eq_true_2 by eauto. simpl.
    rewrite run_bind, run_lstatSync. simpl. rewrite E.
    destruct n; unfold_M; simpl; by rewrite ?log_to_app.
  - rewrite bool_decide_eq_false_2 by (by intros [? ?]).
    unfold_M; simpl. by rewrite ?log_to_app.
Qed.

(** [validateMedia] computes [media_ok], looks at no file content, and
    when it accepts has done exactly the two existence tests. *)
Lemma run_validateMedia photoPath videoPath w :
  ∃ es,
    V1.validateMedia env photoPath videoPath w
    = Ret (media_ok env (files w) photoPath videoPath) (log_to w es)
    ∧ Forall probe es
    ∧ (media_ok env (files w) photoPath videoPath = true
       → es = [FsExists photoPath; FsExists videoPath]).
Proof.
  unfold V1.validateMedia, media_ok.
  rewrite run_bind, run_validateFile.
  destruct (Js.truthy photoPath); simpl.
  2:{ eexists. unfold_M; simpl. rewrite log_to_app. split; [done|].
      split; [|done]. repeat constructor. }
  destruct (bool_decide (is_Some (node_at env (files w) photoPath))); simpl.
  2:{ eexists. unfold_M; simpl. rewrite log_to_app. split; [done|].
      split; [|done]. repeat constructor. }
  rewrite run_bind, run_validateFile. simpl.
  destruct (Js.truthy videoPath); simpl.
  2:{ eexists. unfold_M; simpl. rewrite !log_to_app. split; [done|].
      split; [|done]. repeat constructor. }
  destruct (bool_decide (is_Some (node_at env (files w) videoPath))); simpl.
  2:{ eexists. unfold_M; simpl. rewrite !log_to_app. split; [done|].
      split; [|done]. repeat constructor. }
  destruct (V1.is_jpeg_name photoPath); simpl.
  2:{ eexists. unfold_M; simpl. rewrite !log_to_app. split; [done|].
      split; [|done]. repeat constructor. }
  destruct (V1.is_video_name videoPath); simpl.
  2:{ eexists. unfold_M; simpl. rewrite !log_to_app. split; [done|].
      split; [|done]. repeat constructor. }
  eexists. unfold_M; simpl. rewrite !log_to_app. split; [done|].
  split; [|done]. repeat constructor.
Qed.

(** What [createMotionPhoto] does with the verdict. *)
Lemma run_createMotionPhoto photoPath videoPath outputPath w es :
  V1.validateMedia env photoPath videoPath w
  = Ret (media_ok env (files w) photoPath videoPath) (log_to w es) →
  V1.createMotionPhoto env photoPath videoPath outputPath w
  = if media_ok env (files w) photoPath videoPath then
      (merged ← V1.mergeFiles env photoPath videoPath outputPath;
       photoStat ← statSync env photoPath;
       mergedStat ← statSync env merged;
       V1.addXmpMetadata env merged
         (Fs.node_size mergedStat - Fs.node_size photoStat))
        (log_to w es)
    else Ret tt (log_to w (es ++ [Console Err "Invalid photo or video path."])).
Proof.
  intros Hrun. unfold V1.createMotionPhoto. rewrite run_bind, Hrun.
  destruct (media_ok env (files w) photoPath videoPath); simpl; [done|].
  unfold_M; simpl. by rewrite log_to_app.
Qed.

(** C3: [createMotionPhoto] starts with the validation, which is the rule
    [media_ok] (both files exist, the still's name ends in [.jpg] or
    [.jpeg] and the video's in [.mov] or [.mp4], case folded) and touches
    no file content.  If it rejects, [createMotionPhoto] returns with the
    file system as it was, having only logged; if it accepts, the merge
    and everything after it run after the two existence tests.  A video
    path ending in [.txt] is rejected. *)
Theorem createMotionPhoto_validates_first photoPath videoPath outputPath w :
  ∃ es,
    Forall probe es
    ∧ V1.validateMedia env photoPath videoPath w
      = Ret (media_ok env (files w) photoPath videoPath) (log_to w es)
    ∧ (if media_ok env (files w) photoPath videoPath then
         es = [FsExists photoPath; FsExists videoPath]
         ∧ V1.createMotionPhoto env photoPath videoPath outputPath w
           = (merged ← V1.mergeFiles env photoPath videoPath outputPath;
              photoStat ← statSync env photoPath;
              mergedStat ← statSync env merged;
              V1.addXmpMetadata env merged
                (Fs.node_size mergedStat - Fs.node_size photoStat))
               (log_to w es)
       else
         V1.createMotionPhoto env photoPath videoPath outputPath w
         = Ret tt (log_to w (es ++ [Console Err "Invalid photo or video path."])))
    ∧ (Js.endsWith videoPath ".txt" = true
       → media_ok env (files w) photoPath videoPath = false).
Proof.
  destruct (run_validateMedia photoPath videoPath w) as (es & Hrun & Hes & Hok).
  exists es. split; [done|]. split; [done|]. split.
  - rewrite (run_createMotionPhoto _ _ outputPath _ _ Hrun).
    destruct (media_ok env (files w) photoPath videoPath); [|done].
    split; [by apply Hok|done].
  - intros Htxt%txt_is_not_video. unfold media_ok. rewrite Htxt.
    by rewrite andb_false_r.
Qed.

End Validation.

(** ** Fatal directory errors *)

Lemma or_default_truthy answer default :
  Js.truthy default = true → Js.truthy (V1.or_default answer default) = true.
Proof. unfold V1.or_default. by destruct (Js.truthy (Js.trim answer)) eqn:E. Qed.

Section Fatal.
Context (env : Env).

(** C8: a directory that does not exist, or a path that is not a
    directory, ends the run with exit status 1 ([NotFoundError] is the
    message [Directory does not exist], [InvalidInputError] the message
    [Path is not a directory]).  Up to that point the process has printed,
    asked for the path and probed it, and nothing else: the file system
    and both global lists are as before, and no directory was listed.
    This holds for [main] on the path typed (or [photos]) and for
    [processDirectory] on its input directory. *)
Theorem invalid_directory_is_fatal (a : V1.Answers) inputDir outputDir
    (moveOtherImages convertAllHeic deleteConverted : bool) w :
  let dir := V1.or_default (V1.ansInput a) "photos" in
  (node_at env (files w) dir = None →
   V1.main env a w
   = Exit 1 (log_to w (welcome ++
       [FsExists dir; Console Err ("Directory does not exist: " +:+ dir);
        Console Err "Invalid directory path."])))
  ∧ (∀ d, node_at env (files w) dir = Some (File d) →
     V1.main env a w
     = Exit 1 (log_to w (welcome ++
         [FsExists dir; FsLstat dir; Console Err ("Path is not a directory: " +:+ dir);
          Console Err "Invalid directory path."])))
  ∧ (Js.truthy inputDir = true → node_at env (files w) inputDir = None →
     V1.processDirectory env inputDir outputDir moveOtherImages convertAllHeic
       deleteConverted w
     = Exit 1 (log_to w
         [Console Log ("Processing files in: " +:+ inputDir); FsExists inputDir;
          Console Err ("Directory does not exist: " +:+ inputDir);
          Console Err "Invalid input directory."]))
  ∧ (∀ d, Js.truthy inputDir = true → node_at env (files w) inputDir = Some (File d) →
     V1.processDirectory env inputDir outputDir moveOtherImages convertAllHeic
       deleteConverted w
     = Exit 1 (log_to w
         [Console Log ("Processing files in: " +:+ inputDir); FsExists inputDir;
          FsLstat inputDir; Console Err ("Path is not a directory: " +:+ inputDir);
          Console Err "Invalid input directory."])).
Proof.
  intros dir.
  assert (Js.truthy dir = true) as Hdir by by apply or_default_truthy.
  repeat split.
  - intros Hnone. unfold V1.main, prompt. rewrite !run_bind. simpl.
    rewrite !run_bind. simpl. rewrite run_bind, run_validateDirectory.
    fold dir. rewrite Hdir. simpl. rewrite Hnone. unfold_M; simpl.
    by rewrite !log_to_app.
  - intros d Hfile. unfold V1.main, prompt. rewrite !run_bind. simpl.
    rewrite !run_bind. simpl. rewrite run_bind, run_validateDirectory.
    fold dir. rewrite Hdir. simpl. rewrite Hfile. unfold_M; simpl.
    by rewrite !log_to_app.
  - intros Hin Hnone. unfold V1.processDirectory. rewrite !run_bind. simpl.
    rewrite run_bind, run_validateDirectory. rewrite Hin. simpl. rewrite Hnone.
    unfold_M; simpl. by rewrite !log_to_app.
  - intros d Hin Hfile. unfold V1.processDirectory. rewrite !run_bind. simpl.
    rewrite run_bind, run_validateDirectory. rewrite Hin. simpl. rewrite Hfile.
    unfold_M; simpl. by rewrite !log_to_app.
Qed.

End Fatal.

Lemma invalid_directory_is_fatal_witness :
  let a := V1.mkAnswers "  nowhere " "" "" "" "" in
  node_at Sample.env (files Sample.one_pair) (V1.or_default (V1.ansInput a) "photos") = None
  ∧ V1.main Sample.env a Sample.one_pair
    = Exit 1 (log_to Sample.one_pair (welcome ++
        [FsExists (V1.or_default (V1.ansInput a) "photos");
         Console Err ("Directory does not exist: "
                      +:+ V1.or_default (V1.ansInput a) "photos");
         Console Err "Invalid directory path."])).
Proof.
  cbv zeta.
  assert (node_at Sample.env (files Sample.one_pair)
            (V1.or_default (V1.ansInput (V1.mkAnswers "  nowhere " "" "" "" "")) "photos")
          = None) as Hnone by (vm_compute; reflexivity).
  split; [exact Hnone|].
  exact (proj1 (invalid_directory_is_fatal Sample.env _ "" "" false false false
                  Sample.one_pair) Hnone).
Defined.

(** ** The pair resolver *)
Section Resolver.
Context (env : Env).

Lemma run_matchingVideo photoPath videoDir w :
  V1.matchingVideo env photoPath videoDir w
  = match at_path env (files w) videoDir (Fs.readdir (files w)) with
    | inr names =>
        Ret (Path.join videoDir
               <$> List.find (V1.video_match (Path.name (Path.parse photoPath))) names)
          (log_to w [FsReaddir videoDir])
    | inl c => Throw (SysError c "scandir" videoDir) (log_to w [FsReaddir videoDir])
    end.
Proof.
  unfold V1.matchingVideo. rewrite run_bind, run_readdirSync.
  by destruct (at_path _ _ _ _).
Qed.


Lemma run_matchingVideo_v2 photoPath w :
  let q := Path.parse photoPath in
  let base := "./" +:+ Path.dir q +:+ "/" +:+ Path.name q in
  let there ext := bool_decide (is_Some (node_at env (files w) (base +:+ ext))) in
  ∃ es,
    V2.matchingVideo env photoPath w
    = Ret (match List.find there probed_exts with
           | Some ext => base +:+ ext
           | None => ""
           end) (log_to w es)
    ∧ Forall probe es.
Proof.
  intros q base there. unfold V2.matchingVideo, existsSync. fold q. fold base.
  unfold_M. simpl. unfold probed_exts, List.find, there.
  repeat (destruct (bool_decide _);
          [eexists; rewrite !log_to_app; split; [done|]; repeat constructor|]).
  eexists. rewrite !log_to_app. split; [done|]. repeat constructor.
Qed.


End Resolver.



(** ** The offset annotator *)

Lemma tag_get_set_eq o k v : tag_get (tag_set o k v) k = Some v.
Proof.
  induction o as [|[k' v'] o IH]; simpl.
  - by rewrite decide_True.
  - destruct (decide (k' = k)) as [->|]; simpl.
    + by rewrite decide_True.
    + by rewrite decide_False.
Qed.

Lemma tag_get_set_ne o k v k' : k ≠ k' → tag_get (tag_set o k v) k' = tag_get o k'.
Proof.
  intros Hne. induction o as [|[k0 v0] o IH]; simpl.
  - by rewrite decide_False.
  - destruct (decide (k0 = k)) as [->|]; simpl.
    + by rewrite !decide_False.
    + destruct (decide (k0 = k')); [done|apply IH].
Qed.

Lemma tag_set_key o k v : k ∈ (tag_set o k v).*1.
Proof.
  induction o as [|[k' v'] o IH]; simpl; [by left|].
  case_decide; simpl; [by left|by right].
Qed.

Lemma tag_set_keys o k v k' : k' ∈ o.*1 → k' ∈ (tag_set o k v).*1.
Proof.
  induction o as [|[k0 v0] o IH]; simpl; [by intros ?%elem_of_nil|].
  intros [->|Hin]%elem_of_cons; case_decide; simpl; subst;
    first [by left | right; by auto].
Qed.

Section Annotator.
Context (env : Env).

Lemma run_addXmpMetadata mergedFile offset w :
  let t := V1.motion_tags offset in
  let sidecar := mergedFile +:+ "_original" in
  V1.addXmpMetadata env mergedFile offset w
  = match exif_write env (files w) mergedFile t with
    | inl e => Throw e (log_to w [ExifWrite mergedFile t])
    | inr m2 =>
        match at_path env m2 sidecar (Fs.unlink m2) with
        | inr m3 =>
            Ret tt (with_files (log_to w [ExifWrite mergedFile t; FsUnlink sidecar]) m3)
        | inl c =>
            Ret tt (with_files
                      (log_to w
                         [ExifWrite mergedFile t; FsUnlink sidecar;
                          Console Warn ("Failed to delete "
                                        +:+ message (SysError c "unlink" sidecar))])
                      m2)
        end
    end.
Proof.
  intros t sidecar. unfold V1.addXmpMetadata, exiftool_write, try_catch.
  fold t. fold sidecar. unfold_M. simpl.
  destruct (exif_write env (files w) mergedFile t) as [e|m2]; simpl; [done|].
  rewrite run_unlinkSync. simpl.
  destruct (at_path env m2 sidecar (Fs.unlink m2)) as [c|m3]; simpl.
  - unfold with_files, log_to; simpl. by rewrite <- !app_assoc.
  - unfold with_files, log_to; simpl. by rewrite <- !app_assoc.
Qed.

(** A successful [unlink]: the path named a regular file; afterwards it
    names nothing, and every path that leads elsewhere names what it
    named. *)
Lemma at_path_unlink m p m3 :
  at_path env m p (Fs.unlink m) = inr m3 →
  ∃ k d,
    locate env p = Some k ∧ k ≠ [] ∧ m !! k = Some (File d) ∧ m3 = delete k m
    ∧ node_at env m p = Some (File d)
    ∧ node_at env m3 p = None
    ∧ ∀ q, locate env q ≠ Some k → node_at env m3 q = node_at env m q.
Proof.
  unfold at_path, Fs.unlink.
  destruct (Fs.resolve m (cwd env) p) as [c|k] eqn:Hk; [done|].
  destruct (Fs.look m k) as [[d|]|] eqn:Hl; [|done..]. intros [= <-].
  assert (k ≠ []) as Hne. { intros ->. by vm_compute in Hl. }
  pose proof (resolve_key env _ _ _ Hk) as Hloc.
  assert (∀ k', k' ≠ k → Fs.look (delete k m) k' = Fs.look m k') as Hother.
  { intros k' Hk'. unfold Fs.look. case_decide; [done|]. by rewrite lookup_delete_ne. }
  assert (Fs.look (delete k m) k = None) as Hat.
  { rewrite look_ne by done. apply lookup_delete_eq. }
  rewrite look_ne in Hl by done.
  assert (node_at env m p = Some (File d)) as Hp0.
  { apply node_at_Some. exists k. split; [done|]. by rewrite look_ne. }
  exists k, d. split_and!; try done.
  - destruct (node_at_change env m (delete k m) k p Hother) as [_ Hp].
    { rewrite look_ne by done. by rewrite Hl. }
    { by rewrite Hat. }
    by rewrite (Hp (File d)).
  - intros q. apply (node_at_change env m (delete k m) k q Hother).
    + rewrite look_ne by done. by rewrite Hl.
    + by rewrite Hat.
Qed.

Lemma at_path_unlink_fails m p c :
  at_path env m p (Fs.unlink m) = inl c → ∀ d, node_at env m p ≠ Some (File d).
Proof.
  unfold at_path, node_at, Fs.unlink.
  destruct (Fs.resolve m (cwd env) p) as [c'|k]; simpl; [done|].
  by destruct (Fs.look m k) as [[]|].
Qed.

(** Every way the annotator of the command-line muxer can return. *)
Lemma addXmpMetadata_v2_Ret mergedFile offset w w' :
  V2.addXmpMetadata env mergedFile offset w = Ret tt w' →
  ∃ w0 t,
    V2.run_pending env (log_to w [Console Log "Reading existing metadata from file."])
    = Ret tt w0
    ∧ exif_read env (files w0) mergedFile = inr t
    ∧ exif_write env (files w0) mergedFile (assigned_v2 t offset) = inr (files w')
    ∧ ∃ es, trace w' = trace w0 ++ ExifRead mergedFile :: es
            ++ [ExifWrite mergedFile (assigned_v2 t offset)].
Proof.
  unfold V2.addXmpMetadata. intros H.
  apply bind_Ret in H as ([] & w1 & H1 & H). injection H1 as <-.
  apply bind_Ret in H as ([] & w0 & H0 & H).
  apply bind_Ret in H as (t & w2 & H2 & H).
  unfold exiftool_read in H2. unfold_M in H2. simpl in H2.
  destruct (exif_read env (files w0) mergedFile) as [|t'] eqn:Hr; [done|].
  injection H2 as -> <-.
  exists w0, t. split; [done|]. split; [done|].
  unfold exiftool_write in H. unfold_M in H. simpl in H.
  fold (assigned_v2 t offset) in H.
  destruct (bool_decide (0 < length t)%nat); simpl in H.
  - destruct (exif_write env (files w0) mergedFile (assigned_v2 t offset)); [done|].
    injection H as <-. simpl. split; [done|].
    eexists [_; _]. by rewrite <- !app_assoc.
  - destruct (exif_write env (files w0) mergedFile (assigned_v2 t offset)); [done|].
    injection H as <-. simpl. split; [done|].
    eexists [_]. by rewrite <- !app_assoc.
Qed.

(** The mapping the command-line muxer writes is one the service
    refuses: its keys are written with dots. *)
Lemma assigned_v2_refused m mergedFile t offset :
  refuses_dotted_names env →
  ∃ e, exif_write env m mergedFile (assigned_v2 t offset) = inl e.
Proof.
  intros Hrefuse. apply (Hrefuse _ _ _ "Xmp.GCamera.MicroVideo").
  - unfold assigned_v2. do 3 apply tag_set_keys. apply tag_set_key.
  - apply (bool_decide_unpack _). vm_compute. exact I.
Qed.

Lemma addXmpMetadata_v2_never_returns mergedFile offset w w' :
  refuses_dotted_names env →
  V2.addXmpMetadata env mergedFile offset w ≠ Ret tt w'.
Proof.
  intros Hrefuse (w0 & t & _ & _ & Hw & _)%addXmpMetadata_v2_Ret.
  destruct (assigned_v2_refused (files w0) mergedFile t offset Hrefuse) as [e He].
  congruence.
Qed.

(** C6: a successful metadata write is always followed by the removal of
    [<file>_original].  In the interactive converter, if the service left
    a regular file there it is gone afterwards and nothing else has
    changed; if the removal fails the annotator still returns normally,
    the files being as the service left them and the failure printed as a
    warning.  The annotator of the command-line muxer has no removal,
    and no successful write either: the service refuses the mapping it
    hands over, whose keys are written with dots, so that annotator never
    returns and leaves no sidecar behind. *)
Theorem addXmpMetadata_sidecar mergedFile offset w :
  let sidecar := mergedFile +:+ "_original" in
  (∀ m2,
     exif_write env (files w) mergedFile (V1.motion_tags offset) = inr m2 →
     ∃ w',
       V1.addXmpMetadata env mergedFile offset w = Ret tt w'
       ∧ ((∃ d, node_at env m2 sidecar = Some (File d))
          → node_at env (files w') sidecar = None
            ∧ ∀ k, locate env sidecar ≠ Some k → files w' !! k = m2 !! k)
       ∧ ((∀ d, node_at env m2 sidecar ≠ Some (File d))
          → files w' = m2
            ∧ ∃ msg, last (trace w') = Some (Console Warn ("Failed to delete " +:+ msg))))
  ∧ (refuses_dotted_names env →
     (∀ m t, ∃ e, exif_write env m mergedFile (assigned_v2 t offset) = inl e)
     ∧ ∀ w', V2.addXmpMetadata env mergedFile offset w ≠ Ret tt w').
Proof.
  intros sidecar. split.
  - intros m2 Hw. rewrite run_addXmpMetadata, Hw. fold sidecar.
    destruct (at_path env m2 sidecar (Fs.unlink m2)) as [c|m3] eqn:Hu.
    + eexists. split; [done|]. simpl. split.
      * intros [d Hd]. by eapply at_path_unlink_fails in Hu.
      * intros _. split; [done|]. eexists. apply last_Some.
        exists (trace w ++ [ExifWrite mergedFile (V1.motion_tags offset); FsUnlink sidecar]).
        by rewrite <- app_assoc.
    + eexists. split; [done|]. simpl.
      apply at_path_unlink in Hu as (k & d & Hk & Hne & Hd & -> & Hthere & Hgone & _).
      split.
      * intros _. split; [done|].
        intros k' Hk'. apply lookup_delete_ne. congruence.
      * intros Hno. by destruct (Hno d).
  - intros Hrefuse. split.
    + intros m t. by apply assigned_v2_refused.
    + intros w'. by apply addXmpMetadata_v2_never_returns.
Qed.

End Annotator.

(** ** Paths: splitting, normalising, resolving *)

Lemma chars_app a b : Js.chars (a +:+ b) = Js.chars a ++ Js.chars b.
Proof. induction a; simpl; [done|]. by f_equal. Qed.

Lemma chars_inj a b : Js.chars a = Js.chars b → a = b.
Proof. intros H. by rewrite <- (str_chars a), <- (str_chars b), H. Qed.

Lemma str_inj a b : Js.str a = Js.str b → a = b.
Proof. intros H. by rewrite <- (chars_str a), <- (chars_str b), H. Qed.

Lemma split_go_no_sep sep cur l :
  sep ∉ l → Js.split_go sep cur l = [reverse cur ++ l].
Proof.
  revert cur. induction l as [|c l IH]; intros cur Hl; simpl.
  { by rewrite app_nil_r. }
  apply not_elem_of_cons in Hl as [Hc Hl].
  rewrite decide_False by done. rewrite IH by done.
  by rewrite reverse_cons, <- app_assoc.
Qed.

Lemma split_go_sep sep cur l l' :
  Js.split_go sep cur (l ++ sep :: l') = Js.split_go sep cur l ++ Js.split_go sep [] l'.
Proof.
  revert cur. induction l as [|c l IH]; intros cur; simpl.
  { by rewrite decide_True. }
  destruct (decide (c = sep)); [by rewrite IH|apply IH].
Qed.

Lemma split_go_free sep cur l seg :
  sep ∉ cur → seg ∈ Js.split_go sep cur l → sep ∉ seg.
Proof.
  revert cur. induction l as [|c l IH]; intros cur Hcur; simpl.
  { intros ->%list_elem_of_singleton. by rewrite elem_of_reverse. }
  destruct (decide (c = sep)) as [->|].
  - intros [->|H]%elem_of_cons; [by rewrite elem_of_reverse|].
    eapply IH; [|done]. apply not_elem_of_nil.
  - apply IH. by apply not_elem_of_cons.
Qed.

(** Appending separator-free text to a string extends its last segment. *)
Lemma split_go_snoc sep cur l l' :
  sep ∉ l' →
  ∃ segs seg, Js.split_go sep cur l = segs ++ [seg]
              ∧ Js.split_go sep cur (l ++ l') = segs ++ [seg ++ l'].
Proof.
  intros Hl'. revert cur. induction l as [|c l IH]; intros cur; simpl.
  { exists [], (reverse cur). split; [done|]. by apply split_go_no_sep. }
  destruct (decide (c = sep)).
  - destruct (IH []) as (segs & seg & -> & ->). by exists (reverse cur :: segs), seg.
  - apply IH.
Qed.

Lemma split_free p seg : seg ∈ Js.split "/" p → slash ∉ Js.chars seg.
Proof.
  unfold Js.split. intros (l & -> & Hl)%list_elem_of_fmap. rewrite chars_str.
  eapply split_go_free; [|done]. apply not_elem_of_nil.
Qed.

Lemma split_slash a b :
  Js.split "/" (a +:+ "/" +:+ b) = Js.split "/" a ++ Js.split "/" b.
Proof.
  unfold Js.split. rewrite !chars_app. simpl.
  change (Js.chars a ++ "/"%char :: Js.chars b)
    with (Js.chars a ++ slash :: Js.chars b).
  by rewrite split_go_sep, fmap_app.
Qed.

Lemma split_plain f : slash ∉ Js.chars f → Js.split "/" f = [f].
Proof.
  intros H. unfold Js.split. rewrite split_go_no_sep by done. simpl.
  by rewrite str_chars.
Qed.

Lemma split_join segs :
  segs ≠ [] → Forall (λ s, slash ∉ Js.chars s) segs →
  Js.split "/" (Js.join "/" segs) = segs.
Proof.
  intros Hne Hfree. induction Hfree as [|s segs Hs Hfree IH]; [done|].
  destruct segs as [|s' segs].
  { simpl. by apply split_plain. }
  change (Js.join "/" (s :: s' :: segs)) with (s +:+ "/" +:+ Js.join "/" (s' :: segs)).
  rewrite split_slash, split_plain by done. rewrite IH by done. done.
Qed.

Lemma walk_app stack a b :
  Lexical.walk stack (a ++ b) = Lexical.walk (reverse (Lexical.walk stack a)) b.
Proof.
  revert stack. induction a as [|seg a IH]; intros stack; simpl.
  { by rewrite reverse_involutive. }
  repeat case_decide; apply IH.
Qed.

Lemma walk_plain stack f : plain f → Lexical.walk stack [f] = reverse stack ++ [f].
Proof.
  intros (? & ? & ? & _). simpl.
  rewrite decide_False by (by intros [?|?]). rewrite decide_False by done.
  by rewrite reverse_cons.
Qed.

Lemma walk_snoc_plain stack segs f :
  plain f → Lexical.walk stack (segs ++ [f]) = Lexical.walk stack segs ++ [f].
Proof.
  intros Hf. rewrite walk_app, walk_plain by done. by rewrite reverse_involutive.
Qed.

Lemma walk_cons_empty stack segs : Lexical.walk stack ("" :: segs) = Lexical.walk stack segs.
Proof. reflexivity. Qed.

Lemma walk_snoc_empty stack segs : Lexical.walk stack (segs ++ [""]) = Lexical.walk stack segs.
Proof. rewrite walk_app. simpl. by rewrite reverse_involutive. Qed.

(** Normalising the segments does not change where they lead: from any
    directory when [..] may climb above the start, from the root
    otherwise. *)
Lemma normalize_segments_walk allow base stack segs :
  (allow = false → base = [] ∧ ".." ∉ stack) →
  Forall (λ s, s ≠ "" ∧ s ≠ ".") stack →
  Lexical.walk base (Path.normalize_segments allow stack segs)
  = Lexical.walk base (reverse stack ++ segs).
Proof.
  revert stack. induction segs as [|seg segs IH]; intros stack Hallow Hstack; simpl.
  { by rewrite app_nil_r. }
  destruct (decide (seg = "" ∨ seg = ".")) as [Hskip|Hseg].
  { rewrite IH by done. rewrite !(walk_app _ (reverse stack)). simpl.
    by rewrite decide_True. }
  destruct (decide (seg = "..")) as [->|Hdd].
  - destruct stack as [|top below].
    + destruct allow.
      * rewrite IH; [done|done|]. by repeat constructor.
      * destruct Hallow as [-> _]; [done|].
        rewrite IH; [done| |done]. intros _. split; [done|]. apply not_elem_of_nil.
    + destruct (decide (top = "..")) as [->|Htop].
      * destruct allow.
        -- rewrite IH; [|done|by constructor].
           rewrite (reverse_cons (".." :: below) ".."). by rewrite <- app_assoc.
        -- destruct Hallow as [_ Hno]; [done|]. exfalso. apply Hno. by left.
      * inversion Hstack as [|?? [??] Hbelow]; subst.
        rewrite IH; [| |done].
        2:{ intros [-> Hno]%Hallow. split; [done|]. by apply not_elem_of_cons in Hno as [_ ?]. }
        rewrite reverse_cons, <- app_assoc. simpl.
        rewrite !(walk_app _ (reverse below)). simpl.
        rewrite decide_False by (by intros [?|?]). by rewrite decide_False by done.
  - rewrite IH.
    + by rewrite reverse_cons, <- app_assoc.
    + intros [-> Hno]%Hallow. split; [done|]. apply not_elem_of_cons. done.
    + constructor; [|done]. split; intros ->; apply Hseg; [by left|by right].
Qed.

Lemma append_empty_r s : s +:+ "" = s.
Proof. apply chars_inj. rewrite chars_app. apply app_nil_r. Qed.

Lemma normalize_segments_clean allow stack segs :
  Forall (λ s, s ≠ "" ∧ s ≠ "." ∧ slash ∉ Js.chars s) stack →
  Forall (λ s, slash ∉ Js.chars s) segs →
  Forall (λ s, s ≠ "" ∧ s ≠ "." ∧ slash ∉ Js.chars s)
    (Path.normalize_segments allow stack segs).
Proof.
  intros Hstack Hsegs. revert stack Hstack.
  induction Hsegs as [|seg segs Hseg Hsegs IH]; intros stack Hstack; simpl.
  { by apply Forall_reverse. }
  assert (Forall (λ s, s ≠ "" ∧ s ≠ "." ∧ slash ∉ Js.chars s) (".." :: stack)).
  { constructor; [|done]. repeat split; try done. vm_compute.
    intros H. repeat (apply elem_of_cons in H as [?|H]; [done|]).
    by apply elem_of_nil in H. }
  repeat case_decide; try (by apply IH).
  - destruct stack as [|top below]; [destruct allow; apply IH; [|done]|].
    + inversion H; subst. by constructor.
    + case_decide; [destruct allow; by apply IH|].
      apply IH. by inversion Hstack.
  - apply IH. constructor; [|done].
    split; [|split; [|done]]; intros ->; apply H0; [by left|by right].
Qed.

Lemma join_empty segs :
  Forall (λ s, s ≠ "") segs → Js.join "/" segs = "" → segs = [].
Proof.
  intros Hne. destruct Hne as [|s segs Hs Hne]; [done|].
  unfold Js.join. simpl. destruct segs as [|s' segs]; [done|].
  destruct s; [done|]. simpl. discriminate.
Qed.

Lemma isAbsolute_join segs :
  segs ≠ [] → Forall (λ s, s ≠ "" ∧ s ≠ "." ∧ slash ∉ Js.chars s) segs →
  Path.isAbsolute (Js.join "/" segs) = false.
Proof.
  intros Hne Hsegs. destruct Hsegs as [|s segs (Hs & _ & Hfree) _]; [done|].
  unfold Js.join. simpl. destruct s as [|c s]; [done|].
  assert (c ≠ slash) as Hc. { intros ->. apply Hfree. simpl. by left. }
  destruct segs; simpl; unfold Path.is_slash; by rewrite bool_decide_eq_false.
Qed.

(** Resolving a normalised path gives what resolving the path gives. *)
Lemma resolve_normalize cwd s :
  s ≠ "" → Lexical.key cwd (Path.normalize s) = Lexical.key cwd s.
Proof.
  intros Hs. unfold Path.normalize. rewrite decide_False by done.
  set (segs := Path.normalize_segments (negb (Path.isAbsolute s)) [] (Js.split "/" s)).
  assert (Forall (λ s, s ≠ "" ∧ s ≠ "." ∧ slash ∉ Js.chars s) segs) as Hclean.
  { apply normalize_segments_clean; [done|]. apply Forall_forall. apply split_free. }
  assert (∀ base, (Path.isAbsolute s = true → base = []) →
                  Lexical.walk base segs = Lexical.walk base (Js.split "/" s)) as Hwalk.
  { intros base Hbase. unfold segs. rewrite normalize_segments_walk; [done| |done].
    intros Habs%negb_false_iff. split; [by apply Hbase|apply not_elem_of_nil]. }
  unfold Lexical.key at 2. rewrite (decide_False (P := s = "")) by done.
  destruct (decide (Js.join "/" segs = "")) as [Hbody|Hbody].
  - apply join_empty in Hbody; [|eapply Forall_impl; [done|by intros ? (? & _)]].
    rewrite Hbody in Hwalk. simpl in Hwalk.
    destruct (Path.isAbsolute s) eqn:Habs.
    + rewrite <- Hwalk by done. reflexivity.
    + rewrite <- Hwalk by done.
      destruct (Js.endsWith s "/"); unfold Lexical.key; simpl;
        by rewrite reverse_involutive.
  - assert (segs ≠ []) as Hne by (by intros E; rewrite E in Hbody).
    assert (Js.split "/" (Js.join "/" segs) = segs) as Hsplit.
    { apply split_join; [done|]. eapply Forall_impl; [done|by intros ? (_ & _ & ?)]. }
    pose proof (isAbsolute_join segs Hne Hclean) as Hrel.
    unfold Lexical.key.
    destruct (Path.isAbsolute s) eqn:Habs; destruct (Js.endsWith s "/").
    + rewrite decide_False by done. simpl Path.isAbsolute.
      change ("/" +:+ Js.join "/" segs +:+ "/")
        with ("" +:+ "/" +:+ (Js.join "/" segs +:+ "/" +:+ "")).
      rewrite !split_slash, Hsplit. change (Js.split "/" "") with [""].
      cbn [app]. rewrite walk_cons_empty, walk_snoc_empty.
      change (Path.is_slash "/") with true. cbn iota. by rewrite Hwalk.
    + rewrite decide_False by done. simpl Path.isAbsolute.
      change ("/" +:+ Js.join "/" segs +:+ "")
        with ("" +:+ "/" +:+ (Js.join "/" segs +:+ "")).
      rewrite append_empty_r, split_slash, Hsplit. change (Js.split "/" "") with [""].
      cbn [app]. rewrite walk_cons_empty.
      change (Path.is_slash "/") with true. cbn iota. by rewrite Hwalk.
    + change ("" +:+ Js.join "/" segs +:+ "/")
        with (Js.join "/" segs +:+ "/" +:+ "").
      rewrite decide_False.
      2:{ intros E. apply (f_equal Js.chars) in E. rewrite chars_app in E.
          by destruct (Js.chars (Js.join "/" segs)). }
      assert (Path.isAbsolute (Js.join "/" segs +:+ "/" +:+ "") = false) as ->.
      { destruct (Js.join "/" segs); [done|]. exact Hrel. }
      rewrite split_slash, Hsplit. change (Js.split "/" "") with [""].
      rewrite walk_snoc_empty. by rewrite Hwalk.
    + change ("" +:+ Js.join "/" segs +:+ "") with (Js.join "/" segs +:+ "").
      rewrite append_empty_r. rewrite decide_False by done.
      rewrite Hrel, Hsplit. by rewrite Hwalk.
Qed.

Lemma isAbsolute_append d x : d ≠ "" → Path.isAbsolute (d +:+ x) = Path.isAbsolute d.
Proof. by destruct d. Qed.

(** Joining a plain name to a directory resolves to that name inside the
    directory. *)
Lemma resolve_join cwd d f :
  plain f →
  Lexical.key cwd (Path.join d f)
  = Some (default cwd (Lexical.key cwd d) ++ [f]).
Proof.
  intros Hf. pose proof Hf as (Hne & _ & _ & Hfree). unfold Path.join.
  destruct (decide (d = "")) as [->|Hd].
  - rewrite decide_False by done. rewrite resolve_normalize by done.
    unfold Lexical.key. rewrite decide_False by done.
    assert (Path.isAbsolute f = false) as ->.
    { destruct f as [|c f]; [done|]. simpl. unfold Path.is_slash.
      apply bool_decide_eq_false. intros ->. apply Hfree. by left. }
    rewrite split_plain by done. rewrite walk_plain by done.
    simpl. by rewrite reverse_involutive.
  - rewrite decide_False by done.
    rewrite resolve_normalize by (by destruct d).
    unfold Lexical.key. rewrite decide_False by (by destruct d).
    rewrite decide_False by done. rewrite isAbsolute_append by done.
    rewrite split_slash, (split_plain f) by done.
    by rewrite walk_snoc_plain by done.
Qed.

(** *** The names [uniquePath] tries *)

Lemma pretty_N_go_free x s : slash ∉ Js.chars s → slash ∉ Js.chars (pretty_N_go x s).
Proof.
  revert s. induction (N.lt_wf_0 x) as [x _ IH]; intros s Hs.
  assert (x = 0 ∨ 0 < x)%N as [->|?] by lia.
  - by rewrite pretty_N_go_0.
  - rewrite pretty_N_go_step by done. apply IH.
    { by apply N.div_lt. }
    simpl. apply not_elem_of_cons. split; [|done].
    unfold pretty_N_char. by repeat case_match.
Qed.

Lemma pretty_N_free (x : N) : slash ∉ Js.chars (pretty x).
Proof.
  unfold pretty, pretty_N. case_decide.
  - vm_compute. intros Hin. apply elem_of_cons in Hin as [?|Hin]; [done|].
    by apply elem_of_nil in Hin.
  - apply pretty_N_go_free. apply not_elem_of_nil.
Qed.

Lemma drop_while_sublist f l x : x ∈ Path.drop_while f l → x ∈ l.
Proof.
  induction l as [|c l IH]; simpl; [done|].
  destruct (f c); [|done]. intros ?%IH. by right.
Qed.

Lemma take_while_sublist f l x : x ∈ Path.take_while f l → x ∈ l.
Proof.
  induction l as [|c l IH]; simpl; [done|].
  destruct (f c); [|by intros ?%elem_of_nil].
  intros [->|?%IH]%elem_of_cons; [by left|by right].
Qed.

Lemma basename_free p : slash ∉ Js.chars (Path.basename p).
Proof.
  unfold Path.basename.
  destruct (last _) as [b|] eqn:Hlast; simpl.
  - apply last_Some in Hlast as [l Hl].
    apply (split_free p). 
    assert (b ∈ filter (λ seg, seg ≠ "") (Js.split "/" p)) as Hb.
    { rewrite Hl. apply elem_of_app. right. by left. }
    by apply list_elem_of_filter in Hb as [_ ?].
  - apply not_elem_of_nil.
Qed.

Lemma split_ext_free b :
  slash ∉ Js.chars b →
  (slash ∉ Js.chars (fst (Path.split_ext b)))
  ∧ (slash ∉ Js.chars (snd (Path.split_ext b))).
Proof.
  intros Hb. unfold Path.split_ext.
  destruct (Path.drop_while _ _) as [|c pre_rev] eqn:Hdrop; simpl.
  { split; [done|apply not_elem_of_nil]. }
  destruct (bool_decide (pre_rev = []) || bool_decide (b = "..")); simpl.
  { split; [done|apply not_elem_of_nil]. }
  rewrite !chars_str. split.
  - rewrite elem_of_reverse. intros H. apply Hb.
    apply elem_of_reverse. eapply drop_while_sublist. rewrite Hdrop. by right.
  - apply not_elem_of_cons. split; [done|].
    rewrite elem_of_reverse. intros H%take_while_sublist.
    apply Hb. by apply elem_of_reverse.
Qed.

Lemma candidate_plain filename counter :
  plain (V1.candidate (Path.name (Path.parse filename))
           (Path.ext (Path.parse filename)) counter).
Proof.
  destruct (split_ext_free (Path.basename filename) (basename_free filename))
    as [Hname Hext].
  change (Path.name (Path.parse filename))
    with (fst (Path.split_ext (Path.basename filename))).
  change (Path.ext (Path.parse filename))
    with (snd (Path.split_ext (Path.basename filename))).
  set (name := fst (Path.split_ext (Path.basename filename))) in *.
  set (ext := snd (Path.split_ext (Path.basename filename))) in *.
  unfold V1.candidate.
  assert ("("%char ∈ Js.chars (name +:+ "(" +:+ pretty counter +:+ ")" +:+ ext)) as Hparen.
  { rewrite !chars_app. apply elem_of_app. right. by left. }
  repeat split.
  - intros E. rewrite E in Hparen. by apply elem_of_nil in Hparen.
  - intros E. rewrite E in Hparen. apply elem_of_cons in Hparen as [?|H]; [done|].
    by apply elem_of_nil in H.
  - intros E. rewrite E in Hparen.
    repeat (apply elem_of_cons in Hparen as [?|Hparen]; [done|]).
    by apply elem_of_nil in Hparen.
  - rewrite !chars_app. rewrite !elem_of_app.
    intros [?|[H|[?|[H|?]]]]; try done.
    + apply elem_of_cons in H as [?|H]; [done|]. by apply elem_of_nil in H.
    + by apply pretty_N_free in H.
    + apply elem_of_cons in H as [?|H]; [done|]. by apply elem_of_nil in H.
Qed.

Lemma candidate_inj name ext : Inj (=) (=) (V1.candidate name ext).
Proof.
  intros k k' H. unfold V1.candidate in H.
  apply (inj (String.app name)) in H. apply (inj (String.app "(")) in H.
  apply (f_equal Js.chars) in H. rewrite !chars_app in H.
  apply app_inv_tail in H. apply chars_inj in H. by apply (inj pretty) in H.
Qed.

Lemma tried_S name ext counter newFilename j :
  tried name ext counter newFilename (S j)
  = V1.candidate name ext (counter + N.of_nat j)%N.
Proof.
  revert counter newFilename. induction j as [|j IH]; intros counter newFilename.
  { simpl. by rewrite N.add_0_r. }
  change (tried name ext counter newFilename (S (S j)))
    with (tried name ext (counter + 1)%N (V1.candidate name ext counter) (S j)).
  rewrite IH. f_equal. lia.
Qed.

(** Among [S (size m)] different keys one is not in [m]. *)
Lemma free_key (m : fsmap) (key : nat → list string) :
  Inj (=) (=) key →
  ∃ j, (j < S (size m))%nat ∧ m !! key j = None.
Proof.
  intros Hinj.
  destruct (decide (Forall (λ j, is_Some (m !! key j)) (seq 0 (S (size m)))))
    as [Hall|Hnot].
  - exfalso.
    assert (list_to_set (key <$> seq 0 (S (size m))) ⊆ dom m) as Hsub.
    { intros k (j & -> & Hj)%elem_of_list_to_set%list_elem_of_fmap.
      apply elem_of_dom. by eapply Forall_forall in Hall. }
    apply subseteq_size in Hsub. rewrite size_dom in Hsub.
    rewrite size_list_to_set in Hsub.
    + rewrite length_fmap, length_seq in Hsub. lia.
    + apply NoDup_fmap; [done|apply NoDup_seq].
  - apply not_Forall_Exists in Hnot; [|apply _].
    apply Exists_exists in Hnot as (j & Hj & Hfree).
    exists j. apply elem_of_seq in Hj. split; [lia|].
    by apply eq_None_not_Some.
Qed.

Section UniquePath.
Context (env : Env).

(** A plain name joined to a directory leads into that directory; if the
    map has nothing under that key, the path names nothing. *)
Lemma node_at_join_None m d f :
  plain f →
  m !! (default (cwd env) (locate env d) ++ [f]) = None →
  node_at env m (Path.join d f) = None.
Proof.
  intros Hf Hnone. destruct (node_at env m (Path.join d f)) as [n|] eqn:Hn; [|done].
  apply node_at_key in Hn as (k & Hk & Hl). unfold locate in Hk.
  rewrite resolve_join in Hk by done. injection Hk as <-.
  rewrite look_ne in Hl by apply snoc_ne. unfold locate in Hnone. congruence.
Qed.


(** Every way the loop can return: only probes happened and the path
    returned names no entry. *)
Lemma uniquePath_loop_Ret fuel destination name ext counter newFilename w p w' :
  V1.uniquePath_loop env fuel destination name ext counter newFilename w = Ret p w' →
  (∃ es, w' = log_to w es ∧ Forall probe es) ∧ node_at env (files w) p = None.
Proof.
  revert counter newFilename w.
  induction fuel as [|fuel IH]; intros counter newFilename w; [done|].
  simpl. rewrite run_bind, run_existsSync. simpl.
  destruct (node_at env (files w) (Path.join destination newFilename)) as [n|] eqn:Hn.
  - rewrite bool_decide_eq_true_2 by eauto.
    intros [[es [-> Hes]] Hnone]%IH. split; [|done].
    exists (FsExists (Path.join destination newFilename) :: es).
    split; [by rewrite log_to_app|by constructor].
  - rewrite bool_decide_eq_false_2 by (by intros [? ?]).
    intros [= <- <-]. split; [|done]. eexists. split; [done|]. by repeat constructor.
Qed.



Lemma renameSync_Ret src dst w w' :
  renameSync env src dst w = Ret tt w' →
  ∃ ks kd m',
    Fs.resolve (files w) (cwd env) src = inr ks
    ∧ Fs.resolve (files w) (cwd env) dst = inr kd
    ∧ Fs.rename (files w) ks kd = inr m'
    ∧ w' = with_files (log_to w [FsRename src dst]) m'.
Proof.
  unfold renameSync, at_path. unfold_M. simpl.
  destruct (Fs.resolve (files w) (cwd env) src) as [|ks]; [done|].
  destruct (Fs.resolve (files w) (cwd env) dst) as [|kd]; [done|].
  destruct (Fs.rename (files w) ks kd) as [|m'] eqn:E; [done|].
  intros [= <-]. by exists ks, kd, m'.
Qed.


End UniquePath.


(** ** Annotating twice *)

Lemma tag_get_set o k0 v0 k :
  tag_get (tag_set o k0 v0) k = if decide (k0 = k) then Some v0 else tag_get o k.
Proof.
  case_decide as Hk; [subst; apply tag_get_set_eq|by apply tag_get_set_ne].
Qed.

Lemma tag_get_assigned_v2 t offset k v :
  tag_get (assigned_v2 [] offset) k = Some v →
  tag_get (assigned_v2 t offset) k = Some v.
Proof.
  unfold assigned_v2. rewrite !tag_get_set. by repeat case_decide.
Qed.

Section Idempotence.
Context (env : Env).

(** The sidecar is never the annotated file itself. *)
Lemma sidecar_elsewhere file : locate env (file +:+ "_original") ≠ locate env file.
Proof.
  unfold locate, Lexical.key.
  destruct (decide (file = "")) as [->|Hfile]; [done|].
  rewrite decide_False by (by destruct file).
  rewrite isAbsolute_append by done.
  set (base := if Path.isAbsolute file then [] else reverse (cwd env)).
  unfold Js.split. rewrite chars_app.
  destruct (split_go_snoc slash [] (Js.chars file) (Js.chars "_original"))
    as (segs & seg & Hsplit & Hsplit').
  { vm_compute. intros H. repeat (apply elem_of_cons in H as [?|H]; [done|]).
    by apply elem_of_nil in H. }
  change "/"%char with slash. rewrite Hsplit, Hsplit'. rewrite !fmap_app. simpl.
  assert (slash ∉ seg) as Hseg.
  { eapply (split_go_free slash [] (Js.chars file)); [apply not_elem_of_nil|].
    rewrite Hsplit. apply elem_of_app. right. by left. }
  assert (plain (Js.str (seg ++ Js.chars "_original"))) as Hplain.
  { assert ("_"%char ∈ Js.chars (Js.str (seg ++ Js.chars "_original"))) as Hin.
    { rewrite chars_str. apply elem_of_app. right. by left. }
    repeat split.
    - intros E. rewrite E in Hin. by apply elem_of_nil in Hin.
    - intros E. rewrite E in Hin. apply elem_of_cons in Hin as [?|H]; [done|].
      by apply elem_of_nil in H.
    - intros E. rewrite E in Hin.
      repeat (apply elem_of_cons in Hin as [?|Hin]; [done|]).
      by apply elem_of_nil in Hin.
    - rewrite chars_str. rewrite elem_of_app. intros [?|H]; [done|].
      vm_compute in H. repeat (apply elem_of_cons in H as [?|H]; [done|]).
      by apply elem_of_nil in H. }
  rewrite walk_snoc_plain by done.
  rewrite walk_app. simpl.
  set (X := Lexical.walk base (Js.str <$> segs)).
  intros [= E]. repeat case_decide.
  - rewrite reverse_involutive in E. apply (f_equal length) in E.
    rewrite length_app in E. simpl in E. lia.
  - apply (f_equal length) in E. rewrite length_app, length_reverse in E.
    assert (length (tail (reverse X)) ≤ length X)%nat.
    { rewrite <- (length_reverse X). destruct (reverse X); simpl; lia. }
    simpl in E. lia.
  - rewrite reverse_cons, reverse_involutive in E. apply app_inv_head in E.
    injection E as E. apply str_inj in E. apply (f_equal length) in E.
    rewrite length_app in E. simpl in E. lia.
Qed.

Lemma addXmpMetadata_sets_tags mergedFile offset w w' key v :
  reads_back_what_was_written env → reads_the_file_only env →
  V1.addXmpMetadata env mergedFile offset w = Ret tt w' →
  tag_get (V1.motion_tags offset) key = Some v →
  metadata env w' mergedFile (tag_name key) = Some v.
Proof.
  intros Hback Hlocal Hrun Hkey. rewrite run_addXmpMetadata in Hrun.
  destruct (exif_write env (files w) mergedFile (V1.motion_tags offset))
    as [|m2] eqn:Hw; [done|].
  destruct (Hback _ _ _ _ _ _ Hw Hkey) as (t' & Hread & Hget).
  unfold metadata.
  destruct (at_path env m2 (mergedFile +:+ "_original") (Fs.unlink m2)) as [c|m3] eqn:Hu;
    injection Hrun as <-; simpl.
  - by rewrite Hread.
  - apply at_path_unlink in Hu as (ks & d & Hks & Hne & Hd & -> & _ & _ & Hother).
    rewrite (Hlocal _ m2), Hread; [done|].
    apply Hother. intros E. apply (sidecar_elsewhere mergedFile). congruence.
Qed.

(** *** The stream work: it never ends the process, and leaves nothing
    pending *)

Lemma for_of_pending {A} (xs : list A) (body : A → M unit) w :
  (∀ x w, match body x w with
          | Exit _ _ => False
          | r => pending (final_world r) = pending w
          end) →
  match for_of xs body w with
  | Exit _ _ => False
  | r => pending (final_world r) = pending w
  end.
Proof.
  intros Hb. revert w. induction xs as [|x xs IH]; intros w; simpl; [done|].
  rewrite run_bind. specialize (Hb x w).
  destruct (body x w) as [[] w1|e w1|c w1]; simpl in *; [|done..].
  specialize (IH w1). destruct (for_of xs body w1); simpl in *; congruence.
Qed.

Lemma run_task_pending t w :
  match V2.run_task env t w with
  | Exit _ _ => False
  | r => pending (final_world r) = pending w
  end.
Proof.
  destruct t as [p|src dst]; simpl.
  - unfold_M. simpl. by destruct (at_path env (files w) p _).
  - rewrite run_bind. simpl. rewrite run_bind. unfold sys at 1.
    destruct (at_path env (files w) src _) as [c|data]; simpl; [done|].
    apply for_of_pending. intros c w0. unfold_M. simpl.
    by destruct (at_path env (files w0) dst _).
Qed.

Lemma run_pending_ends w :
  match V2.run_pending env w with
  | Exit _ _ => False
  | r => pending (final_world r) = []
  end.
Proof.
  unfold V2.run_pending.
  apply (for_of_pending (pending w) (V2.run_task env)
           (mkWorld (files w) (trace w) (problematicFiles w) (processedFiles w) [])).
  intros t w0. apply run_task_pending.
Qed.


(** With a service that refuses its keys, the annotator of the
    command-line muxer always ends with an exception; by then the stream
    work has run, and nothing else has touched the files. *)
Lemma addXmpMetadata_v2_throws mergedFile offset w :
  refuses_dotted_names env →
  ∃ e w',
    V2.addXmpMetadata env mergedFile offset w = Throw e w'
    ∧ pending w' = []
    ∧ files w'
      = files (final_world
                 (V2.run_pending env
                    (log_to w [Console Log "Reading existing metadata from file."]))).
Proof.
  intros Hrefuse. unfold V2.addXmpMetadata. rewrite run_bind. simpl.
  rewrite run_bind.
  pose proof (run_pending_ends
                (log_to w [Console Log "Reading existing metadata from file."])) as Hp.
  destruct (V2.run_pending env _) as [[] w0|e w0|c w0]; simpl in *; [|by eauto|done].
  rewrite run_bind. unfold exiftool_read at 1. unfold_M. simpl.
  destruct (exif_read env (files w0) mergedFile) as [e|t]; simpl; [by eauto|].
  fold (assigned_v2 t offset). unfold exiftool_write. unfold_M. simpl.
  destruct (assigned_v2_refused env (files w0) mergedFile t offset Hrefuse) as [e He].
  destruct (bool_decide (0 < length t)%nat); simpl; rewrite He; simpl; by eauto.
Qed.


End Idempotence.

(** *** The toy service obeys the three laws *)

Lemma ones_replicate n body :
  Toy.ones (replicate n x01 ++ x00 :: body) = Some (n, body).
Proof. induction n as [|n IH]; simpl; [done|]. by rewrite IH. Qed.

Lemma toy_decode_encode n body :
  Toy.decode (Toy.encode n body) = Some (read_names (V1.motion_tags (Z.of_nat n))).
Proof.
  unfold Toy.decode, Toy.encode, Toy.segment. by rewrite ones_replicate.
Qed.

Lemma toy_request t n :
  Toy.request t = Some n → t = V1.motion_tags (Z.of_nat n).
Proof.
  unfold Toy.request.
  destruct (tag_get t "XMP:MicroVideoOffset") as [[z|]|]; try done.
  case_decide as H; [|done]. destruct H as [Hz ->]. intros [= <-].
  by rewrite Z2Nat.id.
Qed.

Lemma motion_tags_read_back offset key v :
  tag_get (V1.motion_tags offset) key = Some v →
  tag_get (read_names (V1.motion_tags offset)) (tag_name key) = Some v.
Proof.
  unfold V1.motion_tags. simpl. repeat case_decide; subst; try done; by intros [= <-].
Qed.

Lemma toy_reads_back home : reads_back_what_was_written (Toy.env home).
Proof.
  intros m file offset m' key v. simpl. unfold Toy.write.
  destruct (Toy.request (V1.motion_tags offset)) as [n|] eqn:Hreq; [|done].
  apply toy_request in Hreq. injection Hreq as Hoff.
  destruct (Fs.resolve m home file) as [|k] eqn:Hk; [done|].
  destruct (Fs.resolve m home (file +:+ "_original")) as [|kb]; [done|].
  destruct (Fs.look m k) as [[d|]|] eqn:Hd; try done.
  destruct (Toy.segment d) as [[seg body]|]; [|done].
  destruct (Fs.write m kb d) as [|m1] eqn:Hside; [done|].
  intros [= <-] Hkey.
  assert (k ≠ []) as Hne. { intros ->. by vm_compute in Hd. }
  pose proof (λ k', look_write _ _ _ _ k' Hside) as Hlook.
  apply write_inv in Hside as (Hkb & Hnd & ->).
  assert (Fs.resolve (<[k := File (Toy.encode n body)]> (<[kb := File d]> m)) home file
          = inr k) as Hk'.
  { unfold Fs.resolve in *. destruct (decide (file = "")); [done|].
    apply (walk_mono m); [|done]. intros k0 Hk0.
    assert (k0 ≠ k) as H1 by congruence.
    assert (k0 ≠ kb) as H2 by congruence.
    unfold Fs.look in *. case_decide; [done|].
    by rewrite !lookup_insert_ne. }
  unfold Toy.read, Toy.find. rewrite Hk'. rewrite look_ne by done.
  rewrite lookup_insert_eq, toy_decode_encode, <- Hoff.
  eexists. split; [done|]. by apply motion_tags_read_back.
Qed.

Lemma toy_reads_the_file_only home : reads_the_file_only (Toy.env home).
Proof.
  intros m m' file. simpl. unfold Toy.read.
  change (node_at (Toy.env home) m file) with (Toy.find home m file).
  change (node_at (Toy.env home) m' file) with (Toy.find home m' file).
  by intros ->.
Qed.

Lemma toy_refuses home : refuses_dotted_names (Toy.env home).
Proof.
  intros m file t key Hkey Hdot. simpl. unfold Toy.write.
  destruct (Toy.request t) as [n|] eqn:Hreq; [|by eauto].
  exfalso. apply toy_request in Hreq. subst t. simpl in Hkey.
  repeat (apply elem_of_cons in Hkey as [->|Hkey];
          [vm_compute in Hdot;
           repeat (apply elem_of_cons in Hdot as [?|Hdot]; [done|]);
           by apply elem_of_nil in Hdot|]).
  by apply elem_of_nil in Hkey.
Qed.


(** The sidecar of the interactive converter and the refusal met by the
    command-line muxer, on the sample pair. *)
Lemma addXmpMetadata_sidecar_witness :
  let w := Sample.second_run in
  let sidecar := "output/IMG_0001.jpg_original" in
  (∃ m2 w',
     exif_write Sample.env (files w) "output/IMG_0001.jpg" (V1.motion_tags 8) = inr m2
     ∧ node_at Sample.env m2 sidecar = Some (File Sample.earlier_output)
     ∧ V1.addXmpMetadata Sample.env "output/IMG_0001.jpg" 8 w = Ret tt w'
     ∧ node_at Sample.env (files w') sidecar = None)
  ∧ (∀ m t, ∃ e, exif_write Sample.env m "output/IMG_0001.jpg" (assigned_v2 t 8) = inl e)
  ∧ ∀ w', V2.addXmpMetadata Sample.env "output/IMG_0001.jpg" 8 w ≠ Ret tt w'.
Proof.
  cbv zeta.
  destruct (addXmpMetadata_sidecar Sample.env "output/IMG_0001.jpg" 8 Sample.second_run)
    as [Hv1 Hv2].
  split; [|exact (Hv2 (toy_refuses Sample.home))].
  destruct (succeeded
              (exif_write Sample.env (files Sample.second_run) "output/IMG_0001.jpg"
                 (V1.motion_tags 8)) ltac:(vm_compute; reflexivity)) as [m2 Hw].
  assert (node_at Sample.env m2 "output/IMG_0001.jpg_original"
          = Some (File Sample.earlier_output)) as Hside.
  { assert (match exif_write Sample.env (files Sample.second_run) "output/IMG_0001.jpg"
                    (V1.motion_tags 8) with
            | inr m => node_at Sample.env m "output/IMG_0001.jpg_original"
            | inl _ => None
            end = Some (File Sample.earlier_output)) as H by (vm_compute; reflexivity).
    rewrite Hw in H. exact H. }
  destruct (Hv1 m2 Hw) as (w' & Hrun & Hgone & _).
  exists m2, w'. split; [exact Hw|]. split; [exact Hside|]. split; [exact Hrun|].
  apply Hgone. exists Sample.earlier_output. exact Hside.
Defined.

(** ** The offset *)
Section Offset.
Context (env : Env).

Lemma media_ok_inv m photoPath videoPath :
  media_ok env m photoPath videoPath = true →
  is_Some (node_at env m photoPath) ∧ is_Some (node_at env m videoPath).
Proof.
  unfold media_ok. rewrite !andb_true_iff.
  by intros [[[[[_ Hp%bool_decide_eq_true] _] Hv%bool_decide_eq_true] _] _].
Qed.

(** In the interactive converter the offset handed to the metadata
    service is the size of the merged file minus the size of the still,
    both read with [statSync] from the file system as [mergeFiles] left it,
    that is after the synchronous write of the concatenation.  When the
    output path is not the still itself this is the length of the video. *)
Lemma createMotionPhoto_offset photoPath videoPath outputPath w merged w2 :
  media_ok env (files w) photoPath videoPath = true →
  V1.mergeFiles env photoPath videoPath outputPath
    (log_to w [FsExists photoPath; FsExists videoPath]) = Ret merged w2 →
  ∃ total still video,
    node_at env (files w2) merged = Some (File total)
    ∧ node_at env (files w2) photoPath = Some (File still)
    ∧ node_at env (files w) videoPath = Some (File video)
    ∧ V1.createMotionPhoto env photoPath videoPath outputPath w
      = V1.addXmpMetadata env merged
          (Z.of_nat (length total) - Z.of_nat (length still))
          (log_to w2 [FsStat photoPath; FsStat merged])
    ∧ (locate env merged ≠ locate env photoPath →
       total = still ++ video
       ∧ Z.of_nat (length total) - Z.of_nat (length still) = Z.of_nat (length video)).
Proof.
  intros Hok Hmerge.
  destruct (run_validateMedia env photoPath videoPath w) as (es & Hval & _ & Hes).
  rewrite (run_createMotionPhoto env _ _ outputPath _ _ Hval), Hok.
  rewrite (Hes Hok), run_bind, Hmerge.
  apply media_ok_inv in Hok as [[np Hnp] [nv Hnv]].
  pose proof Hmerge as
    (m1 & photo & video & m2 & -> & Hmk & Hp & Hv & Hw & ->)%mergeFiles_Ret.
  simpl in Hmk. apply at_path_read in Hp, Hv.
  rewrite (mkdir_p_node_at env _ _ _ _ _ Hmk Hnp) in Hp.
  rewrite (mkdir_p_node_at env _ _ _ _ _ Hmk Hnv) in Hv.
  injection Hp as ->. injection Hv as ->.
  pose proof (mkdir_p_node_at env _ _ _ _ _ Hmk Hnp) as Hp1.
  apply at_path_write in Hw as (ko & Hko & _ & _ & _ & Hout & Hother & Hsame).
  set (out := Path.join outputPath (Path.basename photoPath)) in *.
  assert (∃ still, node_at env m2 photoPath = Some (File still)
                   ∧ (locate env out ≠ locate env photoPath → still = photo))
    as (still & Hstill & Hstill').
  { destruct (decide (locate env photoPath = Some ko)) as [Hk|Hk].
    - exists (photo ++ video). split; [by eapply Hsame|]. intros Hne. congruence.
    - exists photo. split; [|done]. by rewrite Hother. }
  exists (photo ++ video), still, video.
  split; [done|]. split; [done|]. split; [done|]. split.
  - rewrite run_bind, run_statSync. simpl. rewrite Hstill.
    rewrite run_bind, run_statSync. simpl. rewrite Hout. simpl.
    by rewrite log_to_app.
  - intros Hne. rewrite (Hstill' Hne). split; [done|]. rewrite length_app. lia.
Qed.

(** What the command-line muxer has done when [mergeFiles] returns: made
    directories and asked for stream work.  No regular file has been
    created or changed yet. *)
Lemma mergeFiles_v2_defers photoPath videoPath outputPath w outPath w' :
  V2.mergeFiles env photoPath videoPath outputPath w = Ret outPath w' →
  outPath = Path.join outputPath (Path.basename photoPath)
  ∧ pending w' = pending w ++ [OpenWrite outPath; Pipe photoPath outPath;
                               Pipe videoPath outPath]
  ∧ Fs.mkdir_p (files w) (cwd env) (Path.dirname outPath) = inr (files w')
  ∧ (∀ k d, files w' !! k = Some (File d) ↔ files w !! k = Some (File d))
  ∧ (∀ q n, node_at env (files w) q = Some n → node_at env (files w') q = Some n).
Proof.
  unfold V2.mergeFiles, V2.createWriteStream, V2.createReadStream, V2.enqueue.
  intros H.
  apply bind_Ret in H as ([] & w1 & [= <-] & H).
  apply bind_Ret in H as ([] & w2 & H2 & H).
  rewrite run_mkdirSync in H2.
  destruct (Fs.mkdir_p _ _ _) as [|m1] eqn:Hmk; [done|]. injection H2 as <-.
  unfold_M in H. simpl in H. injection H as <- <-. simpl in *.
  split; [done|]. split; [by rewrite <- app_assoc|]. split; [done|]. split.
  - intros k d. by eapply mkdir_p_file.
  - intros q n. by eapply mkdir_p_node_at.
Qed.

End Offset.

(** C2, where the code falls short of the claim: the command-line muxer
    measures the merged file before anything has been written to it.
    [mergeFiles] only sets the streams up, and [convert] goes on to
    [statSync] at once.  On a first run the output does not exist yet:
    [statSync] throws and no metadata is written.  On a second run the
    size measured is that of the earlier output (28 bytes here), so the
    offset handed to the metadata service is 19 for a video of 8 bytes
    (the service then refuses the mapping, whose keys are written with
    dots, and the run ends with that exception). *)
Theorem convert_v2_measures_before_the_write :
  let first := V2.convert Sample.env "photos/IMG_0001.jpg" "photos/IMG_0001.mov"
                 "output" Sample.one_pair in
  let second := V2.convert Sample.env "photos/IMG_0001.jpg" "photos/IMG_0001.mov"
                  "output" Sample.second_run in
  ending_of first = Thrown (SysError ENOENT "stat" "output/IMG_0001.jpg")
  ∧ trace (final_world first)
    = [ Console Log "Merging photos/IMG_0001.jpg and photos/IMG_0001.mov.";
        FsMkdir "output"; FsStream "output/IMG_0001.jpg";
        FsStream "photos/IMG_0001.jpg"; FsStream "photos/IMG_0001.mov";
        Console Log "Merged photo and video.";
        FsStat "photos/IMG_0001.jpg"; FsStat "output/IMG_0001.jpg" ]
  ∧ pending (final_world first)
    = [ OpenWrite "output/IMG_0001.jpg";
        Pipe "photos/IMG_0001.jpg" "output/IMG_0001.jpg";
        Pipe "photos/IMG_0001.mov" "output/IMG_0001.jpg" ]
  ∧ node_at Sample.env (files (final_world first)) "output/IMG_0001.jpg" = None
  ∧ ending_of second = Thrown (LibError "Tag is not defined")
  ∧ last (trace (final_world second))
    = Some (ExifWrite "output/IMG_0001.jpg" (assigned_v2 [] 19))
  ∧ Fs.node_size (File Sample.earlier_output) - Fs.node_size (File Sample.still) = 19
  ∧ Fs.node_size (File Sample.clip) = 8.
Proof.
  cbv zeta. repeat (split; [vm_compute; reflexivity|]). vm_compute. reflexivity.
Qed.

(** The same pair in the interactive converter: the offset is the length
    of the video. *)
Example createMotionPhoto_offset_example :
  let r := V1.createMotionPhoto Sample.env "photos/IMG_0001.jpg" "photos/IMG_0001.mov"
             "output" Sample.one_pair in
  ending_of r = Returned tt
  ∧ ExifWrite "output/IMG_0001.jpg" (V1.motion_tags 8) ∈ trace (final_world r)
  ∧ metadata Sample.env (final_world r) "output/IMG_0001.jpg" "MicroVideoOffset"
    = Some (VNum 8).
Proof.
  cbv zeta. split; [vm_compute; reflexivity|]. split; [|vm_compute; reflexivity].
  apply (bool_decide_unpack _). vm_compute. exact I.
Qed.

(** ** A batch run *)

(** C5, where the code falls short of the claim: a failure of the
    metadata write is not caught.  In a directory with two pairs, the
    still of the first pair listed is not an image; the service rejects the
    write, the rejection passes through [createMotionPhoto],
    [processDirectory] and [main], and the run ends there with the
    exception: the process does not reach [process.exit(0)], the other
    pair is never muxed, the problem list is empty and no report is
    written. *)
Theorem main_aborts_when_annotation_fails :
  let r := V1.main Sample.env Sample.answers Sample.two_pairs in
  at_path Sample.env (files Sample.two_pairs) "photos" (Fs.readdir (files Sample.two_pairs))
  = inr ["IMG_0002.mov"; "IMG_0001.mov"; "IMG_0002.jpg"; "IMG_0001.jpg"]
  ∧ ending_of r = Thrown (LibError "Not a valid JPG")
  ∧ last (trace (final_world r))
    = Some (ExifWrite "output/IMG_0002.jpg" (V1.motion_tags 8))
  ∧ problematicFiles (final_world r) = []
  ∧ node_at Sample.env (files (final_world r)) "problematic_files.txt" = None
  ∧ node_at Sample.env (files (final_world r)) "output/IMG_0001.jpg" = None
  ∧ node_at Sample.env (files (final_world r)) "output/IMG_0002.jpg"
    = Some (File (Sample.garbage ++ Sample.clip)).
Proof.
  cbv zeta. repeat (split; [vm_compute; reflexivity|]). vm_compute. reflexivity.
Qed.

(** A read failure inside the merge ends the run the same way. *)
Example main_aborts_when_merge_fails :
  let r := V1.main Sample.env Sample.answers Sample.still_is_directory in
  ending_of r = Thrown (SysError EISDIR "open" "photos/IMG_0004.jpg")
  ∧ node_at Sample.env (files (final_world r)) "problematic_files.txt" = None.
Proof. cbv zeta. split; vm_compute; reflexivity. Qed.

(** The transcoding step beside it does what the claim says: its failure
    is caught, the file is put on the problem list, the batch goes on
    with the next pair, the report is written and the exit status is 0. *)
Example main_survives_failed_conversion :
  let r := V1.main Sample.env Sample.answers Sample.bad_heic in
  ending_of r = Exited 0
  ∧ problematicFiles (final_world r) = ["photos/IMG_0003.heic"]
  ∧ node_at Sample.env (files (final_world r)) "problematic_files.txt"
    = Some (File (bytes_of (V1.report_header +:+ nl +:+ "photos/IMG_0003.heic")))
  ∧ metadata Sample.env (final_world r) "output/IMG_0001.jpg" "MicroVideoOffset"
    = Some (VNum 8).
Proof. cbv zeta. repeat (split; [vm_compute; reflexivity|]). vm_compute. reflexivity. Qed.

(** [uniquePath] on a taken name: the first numbered name is free. *)
Example uniquePath_example :
  ending_of (V1.uniquePath Sample.env "photos" "IMG_0001.jpg" Sample.one_pair)
  = Returned "photos/IMG_0001(1).jpg"
  ∧ ending_of (V1.uniquePath Sample.env "output" "IMG_0001.jpg" Sample.one_pair)
    = Returned "output/IMG_0001.jpg".
Proof. split; vm_compute; reflexivity. Qed.

(** ** The streamed merge of the command-line muxer *)

Lemma chunks_go_concat fuel n (l : list byte) :
  (0 < n)%nat → (length l ≤ fuel)%nat → concat (V2.chunks_go fuel n l) = l.
Proof.
  intros Hn. revert l. induction fuel as [|fuel IH]; intros l Hlen.
  { destruct l; [done|simpl in Hlen; lia]. }
  destruct l as [|b l]; [done|].
  change (V2.chunks_go (S fuel) n (b :: l))
    with (take n (b :: l) :: V2.chunks_go fuel n (drop n (b :: l))).
  simpl concat. rewrite IH; [apply take_drop|].
  rewrite length_drop. simpl in *. lia.
Qed.

Lemma chunks_concat (l : list byte) : concat (V2.chunks l) = l.
Proof.
  apply chunks_go_concat; [|done]. unfold V2.highWaterMark. lia.
Qed.

Section Streams.
Context (env : Env).

(** Replacing the content of a regular file. *)
Lemma insert_file m ko d0 d :
  ko ≠ [] → m !! ko = Some (File d0) →
  (∀ p k, Fs.resolve m (cwd env) p = inr k →
          Fs.resolve (<[ko := File d]> m) (cwd env) p = inr k)
  ∧ (∀ q, locate env q ≠ Some ko →
          node_at env (<[ko := File d]> m) q = node_at env m q)
  ∧ (∀ q, Fs.resolve m (cwd env) q = inr ko →
          node_at env (<[ko := File d]> m) q = Some (File d)).
Proof.
  intros Hne Hd0.
  assert (∀ k, k ≠ ko → Fs.look (<[ko := File d]> m) k = Fs.look m k) as Hother.
  { intros k Hk. unfold Fs.look. case_decide; [done|]. by rewrite lookup_insert_ne. }
  assert (Fs.look (<[ko := File d]> m) ko = Some (File d)) as Hat.
  { rewrite look_ne by done. apply lookup_insert_eq. }
  assert (Fs.look m ko = Some (File d0)) as Hwas by (by rewrite look_ne).
  assert (∀ p k, Fs.resolve m (cwd env) p = inr k →
                 Fs.resolve (<[ko := File d]> m) (cwd env) p = inr k) as Hres.
  { intros p k. apply resolve_mono. intros k0 Hk0. rewrite Hother; [done|]. congruence. }
  split; [done|]. split.
  - intros q. apply (node_at_change env m _ ko q Hother); congruence.
  - intros q Hq. unfold node_at. by rewrite (Hres _ _ Hq).
Qed.

Lemma run_append dst ko c w d0 :
  Fs.resolve (files w) (cwd env) dst = inr ko → ko ≠ [] →
  files w !! ko = Some (File d0) →
  (m ← get_files;
   m' ← sys "write" dst (at_path env m dst (λ k, V2.append m k c));
   set_files m') w
  = Ret tt (with_files w (<[ko := File (d0 ++ c)]> (files w))).
Proof.
  intros Hko Hne Hd0. unfold_M. simpl. unfold at_path. rewrite Hko.
  unfold V2.append, Fs.look. rewrite decide_False by done. by rewrite Hd0.
Qed.

Lemma pipe_chunks dst ko cs w d0 :
  Fs.resolve (files w) (cwd env) dst = inr ko → ko ≠ [] →
  files w !! ko = Some (File d0) →
  for_of cs
    (λ c, m ← get_files;
          m' ← sys "write" dst (at_path env m dst (λ k, V2.append m k c));
          set_files m') w
  = Ret tt (with_files w (<[ko := File (d0 ++ concat cs)]> (files w))).
Proof.
  intros Hko Hne. revert w d0 Hko. induction cs as [|c cs IH]; intros w d0 Hko Hd0.
  { simpl. unfold_M. rewrite app_nil_r, insert_id by done. by destruct w. }
  simpl for_of. rewrite run_bind, (run_append dst ko c w d0) by done.
  rewrite (IH _ (d0 ++ c)).
  - simpl. unfold with_files. simpl. by rewrite insert_insert_eq, <- app_assoc.
  - simpl. by eapply (insert_file (files w) ko d0).
  - apply lookup_insert_eq.
Qed.

(** X19: once the stream work [mergeFiles] asked for has run to its end,
    and provided the output is neither of the inputs, the output holds
    the still followed by the video, and the inputs are as they were. *)
Lemma mergeFiles_v2_streams_concatenation
    photoPath videoPath outputPath w outPath w1 w2 photo video :
  pending w = [] →
  V2.mergeFiles env photoPath videoPath outputPath w = Ret outPath w1 →
  V2.run_pending env w1 = Ret tt w2 →
  node_at env (files w) photoPath = Some (File photo) →
  node_at env (files w) videoPath = Some (File video) →
  locate env outPath ≠ locate env photoPath →
  locate env outPath ≠ locate env videoPath →
  node_at env (files w2) outPath = Some (File (photo ++ video))
  ∧ node_at env (files w2) photoPath = Some (File photo)
  ∧ node_at env (files w2) videoPath = Some (File video).
Proof.
  intros Hpend Hmerge Hrun Hp Hv Hnp Hnv.
  apply mergeFiles_v2_defers in Hmerge as (-> & Hq & _ & _ & Hfiles).
  set (out := Path.join outputPath (Path.basename photoPath)) in *.
  apply Hfiles in Hp, Hv. clear Hfiles.
  unfold V2.run_pending in Hrun. rewrite Hq, Hpend in Hrun. simpl in Hrun.
  apply bind_Ret in Hrun as ([] & wa & Ha & Hrun).
  unfold_M in Ha. simpl in Ha.
  destruct (at_path env (files w1) out (λ k, Fs.write (files w1) k [])) as [|ma] eqn:Hopen;
    [done|]. injection Ha as <-.
  apply at_path_write in Hopen as (ko & Hko & Hne & Hma & _ & Hout & Hother & _).
  rewrite Hko in Hnp, Hnv.
  assert (Fs.resolve ma (cwd env) out = inr ko) as Hres.
  { apply node_at_Some in Hout as (k & Hk & _).
    pose proof (resolve_key env _ _ _ Hk). congruence. }
  assert (ma !! ko = Some (File [])) as Hempty.
  { rewrite Hma. apply lookup_insert_eq. }
  apply bind_Ret in Hrun as ([] & wb & Hb & Hrun).
  apply bind_Ret in Hb as (m & wb0 & [= <- <-] & Hb).
  apply bind_Ret in Hb as (data & wb1 & Hread & Hb). simpl in Hread.
  unfold_M in Hread.
  assert (at_path env ma photoPath (Fs.read ma) = inr photo) as Hrp.
  { apply at_path_read. rewrite Hother; [done|congruence]. }
  rewrite Hrp in Hread. injection Hread as <- <-.
  rewrite (pipe_chunks out ko _ _ []) in Hb; [|done..].
  injection Hb as <-. rewrite chunks_concat in Hrun. simpl in Hrun.
  destruct (insert_file ma ko [] photo Hne Hempty) as (Hres_b & Hother_b & _).
  apply bind_Ret in Hrun as ([] & wc & Hc & Hrun). injection Hrun as <-.
  apply bind_Ret in Hc as (m & wc0 & [= <- <-] & Hc).
  apply bind_Ret in Hc as (data & wc1 & Hread & Hc). simpl in Hread.
  unfold_M in Hread.
  assert (at_path env (<[ko := File photo]> ma) videoPath
            (Fs.read (<[ko := File photo]> ma)) = inr video) as Hrv.
  { apply at_path_read. rewrite Hother_b, Hother; [done|congruence..]. }
  rewrite Hrv in Hread. injection Hread as <- <-.
  rewrite (pipe_chunks out ko _ _ photo) in Hc;
    [|by apply Hres_b|done|apply lookup_insert_eq].
  injection Hc as <-. rewrite chunks_concat. simpl. rewrite insert_insert_eq.
  destruct (insert_file ma ko [] (photo ++ video) Hne Hempty) as (_ & Hother_c & Hat_c).
  split; [by apply Hat_c|].
  split; rewrite Hother_c, Hother; congruence.
Qed.

End Streams.

Example mergeFiles_v2_example :
  let r := (V2.mergeFiles Sample.env "photos/IMG_0001.jpg" "photos/IMG_0001.mov"
              "output" ≫= λ _, V2.run_pending Sample.env) Sample.one_pair in
  ending_of r = Returned tt
  ∧ node_at Sample.env (files (final_world r)) "output/IMG_0001.jpg"
    = Some (File (Sample.still ++ Sample.clip)).
Proof. cbv zeta. split; vm_compute; reflexivity. Qed.

(** ** Where the two muxers part *)

(** C1, where the code falls short of the claim: the muxer of the
    command-line program returns before anything has been written.  With
    the sample pair and an empty [output], its [mergeFiles] returns the
    derived path [output/IMG_0001.jpg] having only asked for stream work:
    no file exists at that path.  [convert] measures the file at once,
    [statSync] throws, and the run of [main] ends there, the three pieces
    of stream work still pending and the output file not made.  The
    muxer of the interactive converter, on the same input, has written
    the 9 bytes of the still followed by the 8 of the video when it
    returns. *)
Theorem mergeFiles_v2_returns_before_writing :
  let photo := "photos/IMG_0001.jpg" in
  let video := "photos/IMG_0001.mov" in
  let merged := "output/IMG_0001.jpg" in
  let r := V2.mergeFiles Sample.env photo video "output" Sample.one_pair in
  let run := V2.main Sample.env (λ _ _, mret tt)
               (V2.mkArgs None false (Some photo) (Some video) (Some "output") false)
               Sample.one_pair in
  let r1 := V1.mergeFiles Sample.env photo video "output" Sample.one_pair in
  ending_of r = Returned merged
  ∧ pending (final_world r) = [OpenWrite merged; Pipe photo merged; Pipe video merged]
  ∧ node_at Sample.env (files (final_world r)) merged = None
  ∧ ending_of run = Thrown (SysError ENOENT "stat" merged)
  ∧ pending (final_world run) = [OpenWrite merged; Pipe photo merged; Pipe video merged]
  ∧ node_at Sample.env (files (final_world run)) merged = None
  ∧ ending_of r1 = Returned merged
  ∧ node_at Sample.env (files (final_world r1)) merged
    = Some (File (Sample.still ++ Sample.clip))
  ∧ Fs.node_size (File (Sample.still ++ Sample.clip)) = 9 + 8.
Proof.
  cbv zeta. repeat (split; [vm_compute; reflexivity|]). vm_compute. reflexivity.
Qed.

(** C9, where the code falls short of the claim: nothing keeps the output
    away from the sources.  With the input directory given as output
    directory, the derived output path is the still itself.  The muxer of
    the interactive converter then replaces the still by the
    concatenation; [createMotionPhoto] measures the still after that, so
    the offset it writes is 0; and [main] ends with status 0, the bytes
    the still had being nowhere any more.  The muxer of the command-line
    program opens the still for writing before it reads it: the still
    ends up holding the video alone. *)
Theorem output_in_the_input_directory_overwrites_the_still :
  let still := "photos/IMG_0001.jpg" in
  let video := "photos/IMG_0001.mov" in
  let r := V1.mergeFiles Sample.env still video "photos" Sample.one_pair in
  let run := V1.main Sample.env Sample.in_place Sample.one_pair in
  let r2 := V2.convert Sample.env still video "photos" Sample.one_pair in
  node_at Sample.env (files Sample.one_pair) still = Some (File Sample.still)
  ∧ Path.join "photos" (Path.basename still) = still
  ∧ ending_of r = Returned still
  ∧ node_at Sample.env (files (final_world r)) still
    = Some (File (Sample.still ++ Sample.clip))
  ∧ ending_of run = Exited 0
  ∧ ExifWrite still (V1.motion_tags 0) ∈ trace (final_world run)
  ∧ metadata Sample.env (final_world run) still "MicroVideoOffset" = Some (VNum 0)
  ∧ (∀ k, files (final_world run) !! k ≠ Some (File Sample.still))
  ∧ (∃ e, ending_of r2 = Thrown e)
  ∧ node_at Sample.env (files (final_world r2)) still = Some (File Sample.clip).
Proof.
  cbv zeta. split_and!; try (vm_compute; reflexivity).
  - apply (bool_decide_unpack _). vm_compute. exact I.
  - intros k Hk.
    assert (bool_decide
              (File Sample.still
               ∈ (map_to_list
                    (files (final_world
                              (V1.main Sample.env Sample.in_place Sample.one_pair)))).*2)
            = false) as Hno by (vm_compute; reflexivity).
    apply bool_decide_eq_false in Hno. apply Hno.
    apply list_elem_of_fmap. exists (k, File Sample.still). split; [done|].
    by apply elem_of_map_to_list.
  - eexists. vm_compute. reflexivity.
Qed.

(** The directory typed at the first prompt: white space around it is
    dropped, also a no-break space; a path through a directory that does
    not exist, or with a slash after the name of a regular file, names
    nothing. *)
Example main_directory_examples :
  let run dir := V1.main Sample.env (V1.mkAnswers dir "" "n" "n" "n") Sample.one_pair in
  ending_of (run (" photos" +:+ Sample.nbsp)) = Exited 0
  ∧ ending_of (run "./photos/") = Exited 0
  ∧ ending_of (run "nowhere/../photos") = Exited 1
  ∧ last (trace (final_world (run "nowhere/../photos")))
    = Some (Console Err "Invalid directory path.")
  ∧ Console Err "Directory does not exist: photos/IMG_0001.jpg/"
    ∈ trace (final_world (run "photos/IMG_0001.jpg/"))
  ∧ Console Err "Path is not a directory: photos/IMG_0001.jpg"
    ∈ trace (final_world (run "photos/IMG_0001.jpg")).
Proof.
  cbv zeta. split_and!; try (vm_compute; reflexivity);
    apply (bool_decide_unpack _); vm_compute; exact I.
Qed.

(** * Further properties of the two programs *)

(** ** The validators *)

Lemma truthy_true s : s ≠ "" → Js.truthy s = true.
Proof. intros H. unfold Js.truthy. by rewrite bool_decide_eq_false_2. Qed.

Section Validators.
Context (env : Env).

(** X1: [validateDirectory] of the interactive converter always returns
    (the [lstatSync] in it cannot throw, coming after the existence
    test); it returns [true] exactly when the path can be read and names
    a directory (in a file system of directories and regular files,
    where [lstat] sees what [stat] sees); it changes nothing and only
    probes; for the empty path it does not look at the file system at
    all. *)
Theorem validateDirectory_verdict dir w :
  ∃ es,
    V1.validateDirectory env dir w
    = Ret (bool_decide (node_at env (files w) dir = Some Dir)) (log_to w es)
    ∧ Forall probe es
    ∧ (dir = "" → es = [Console Err "No directory path provided."]).
Proof.
  rewrite run_validateDirectory. destruct (decide (dir = "")) as [->|Hd].
  { eexists. split; [done|]. split; [|done]. by repeat constructor. }
  rewrite truthy_true by done. simpl.
  destruct (node_at env (files w) dir) as [[d|]|]; eexists;
    (split; [done|]); (split; [by repeat constructor|done]).
Qed.

Lemma run_validateMedia_v2 photoPath videoPath w :
  ∃ es,
    V2.validateMedia env photoPath videoPath w
    = Ret (media_ok env (files w) photoPath videoPath) (log_to w es)
    ∧ Forall probe es
    ∧ (V1.is_jpeg_name photoPath = true → V1.is_video_name videoPath = false →
       is_Some (node_at env (files w) photoPath) →
       is_Some (node_at env (files w) videoPath) →
       last es = Some (Console Err ("Video isn't a MOV or MP4: " +:+ photoPath))).
Proof.
  unfold V2.validateMedia, media_ok.
  rewrite run_bind, run_existsSync. simpl.
  destruct (decide (photoPath = "")) as [->|Hp].
  { eexists. unfold_M. simpl. rewrite log_to_app.
    split; [done|]. split; [by repeat constructor|].
    by intros _ _ [? ?]. }
  rewrite (truthy_true photoPath) by done. simpl.
  destruct (bool_decide (is_Some (node_at env (files w) photoPath))) eqn:Ep; simpl.
  2:{ eexists. unfold_M. simpl. rewrite log_to_app.
      split; [done|]. split; [by repeat constructor|].
      intros _ _ H. by apply bool_decide_eq_false in Ep. }
  rewrite run_bind, run_existsSync. simpl.
  destruct (decide (videoPath = "")) as [->|Hv].
  { eexists. unfold_M. simpl. rewrite !log_to_app.
    split; [done|]. split; [by repeat constructor|].
    by intros _ _ _ [? ?]. }
  rewrite (truthy_true videoPath) by done. simpl.
  destruct (bool_decide (is_Some (node_at env (files w) videoPath))) eqn:Ev; simpl.
  2:{ eexists. unfold_M. simpl. rewrite !log_to_app.
      split; [done|]. split; [by repeat constructor|].
      intros _ _ _ H. by apply bool_decide_eq_false in Ev. }
  destruct (V1.is_jpeg_name photoPath); simpl.
  2:{ eexists. unfold_M. simpl. rewrite !log_to_app.
      split; [done|]. split; [by repeat constructor|done]. }
  destruct (V1.is_video_name videoPath); simpl.
  - eexists. unfold_M. simpl. rewrite !log_to_app.
    split; [done|]. split; [by repeat constructor|done].
  - eexists. unfold_M. simpl. rewrite !log_to_app.
    split; [done|]. split; [by repeat constructor|done].
Qed.

(** X2: the validator of the command-line muxer gives the same verdict as
    that of the interactive converter, on every pair of paths and in
    every state, and like it only probes.  When its last test fails, the
    message it prints names the still, not the video. *)
Theorem validateMedia_v2_verdict photoPath videoPath w :
  ∃ es,
    V2.validateMedia env photoPath videoPath w
    = Ret (media_ok env (files w) photoPath videoPath) (log_to w es)
    ∧ ending_of (V1.validateMedia env photoPath videoPath w)
      = Returned (media_ok env (files w) photoPath videoPath)
    ∧ Forall probe es
    ∧ (V1.is_jpeg_name photoPath = true → V1.is_video_name videoPath = false →
       is_Some (node_at env (files w) photoPath) →
       is_Some (node_at env (files w) videoPath) →
       last es = Some (Console Err ("Video isn't a MOV or MP4: " +:+ photoPath))).
Proof.
  destruct (run_validateMedia env photoPath videoPath w) as (es1 & -> & _ & _).
  destruct (run_validateMedia_v2 photoPath videoPath w) as (es & Hrun & Hes & Hmsg).
  by exists es.
Qed.

Lemma run_validateDirectory_v2 dir w :
  ∃ es,
    V2.validateDirectory env dir w
    = (if bool_decide (node_at env (files w) dir = Some Dir)
       then Ret tt (log_to w es) else Exit 1 (log_to w es))
    ∧ Forall probe es
    ∧ (node_at env (files w) dir = None
       → es = [FsExists dir; Console Err ("Path doesn't exist: " +:+ dir)]).
Proof.
  unfold V2.validateDirectory. rewrite run_bind, run_existsSync. simpl.
  destruct (node_at env (files w) dir) as [n|] eqn:E.
  - rewrite bool_decide_eq_true_2 by eauto. simpl.
    destruct n as [d|]; eexists; rewrite run_bind; simpl;
      rewrite run_bind, run_lstatSync; simpl; rewrite E;
      unfold_M; simpl; rewrite ?log_to_app; (split; [done|]);
      (split; [by repeat constructor|done]).
  - rewrite bool_decide_eq_false_2 by (by intros [? ?]).
    unfold_M. simpl. eexists. rewrite ?log_to_app. split; [done|].
    split; [by repeat constructor|done].
Qed.

(** X3: the validator of the command-line muxer ends the process with
    status 1 unless the path can be read and names a directory (in a file
    system of directories and regular files), in which case it returns;
    either way it has only probed. *)
Theorem validateDirectory_v2_verdict dir w :
  ∃ es,
    V2.validateDirectory env dir w
    = (if bool_decide (node_at env (files w) dir = Some Dir)
       then Ret tt (log_to w es) else Exit 1 (log_to w es))
    ∧ Forall probe es
    ∧ (node_at env (files w) dir = None
       → es = [FsExists dir; Console Err ("Path doesn't exist: " +:+ dir)]).
Proof.
  destruct (run_validateDirectory_v2 dir w) as (es & Hrun & Hes & Hnone).
  exists es. by split_and!.
Qed.

End Validators.

(** ** The transcoding step *)

Lemma resolve_plain cwd f : plain f → Lexical.key cwd f = Some (cwd ++ [f]).
Proof.
  intros Hf. pose proof Hf as (Hne & _ & _ & Hfree).
  unfold Lexical.key. rewrite decide_False by done.
  assert (Path.isAbsolute f = false) as ->.
  { destruct f as [|c f]; [done|]. simpl. unfold Path.is_slash.
    apply bool_decide_eq_false. intros ->. apply Hfree. by left. }
  rewrite split_plain by done. rewrite walk_plain by done.
  by rewrite reverse_involutive.
Qed.

Lemma jpeg_name_plain heicPath : plain (Path.name (Path.parse heicPath) +:+ ".jpg").
Proof.
  destruct (split_ext_free (Path.basename heicPath) (basename_free heicPath))
    as [Hname _].
  change (Path.name (Path.parse heicPath))
    with (fst (Path.split_ext (Path.basename heicPath))).
  set (name := fst (Path.split_ext (Path.basename heicPath))) in *.
  assert ("j"%char ∈ Js.chars (name +:+ ".jpg")) as Hj.
  { rewrite chars_app. apply elem_of_app. right. right. by left. }
  repeat split.
  - intros E. rewrite E in Hj. by apply elem_of_nil in Hj.
  - intros E. rewrite E in Hj. apply elem_of_cons in Hj as [?|H]; [done|].
    by apply elem_of_nil in H.
  - intros E. rewrite E in Hj.
    repeat (apply elem_of_cons in Hj as [?|Hj]; [done|]).
    by apply elem_of_nil in Hj.
  - rewrite chars_app, elem_of_app. intros [?|H]; [done|].
    repeat (apply elem_of_cons in H as [?|H]; [done|]).
    by apply elem_of_nil in H.
Qed.

Section Transcoder.
Context (env : Env).

Lemma run_convertHeicToJpeg heicPath w :
  let jpegPath := Path.name (Path.parse heicPath) +:+ ".jpg" in
  match heicconvert env (files w) heicPath jpegPath with
  | inr m' =>
      V1.convertHeicToJpeg env heicPath w
      = Ret (Some jpegPath)
          (mkWorld m'
             (trace w ++
                [Console Log ("Converting HEIC file to JPEG: " +:+ heicPath);
                 HeicConvert heicPath jpegPath;
                 Console Log ("HEIC file converted to JPEG: " +:+ jpegPath)])
             (problematicFiles w) (processedFiles w ++ [heicPath]) (pending w))
  | inl e =>
      V1.convertHeicToJpeg env heicPath w
      = Ret None
          (mkWorld (files w)
             (trace w ++
                [Console Log ("Converting HEIC file to JPEG: " +:+ heicPath);
                 HeicConvert heicPath jpegPath;
                 Console Warn ("Error converting HEIC file: " +:+ heicPath +:+ ": "
                               +:+ message e)])
             (problematicFiles w ++ [heicPath]) (processedFiles w) (pending w))
  end.
Proof.
  intros jpegPath.
  unfold V1.convertHeicToJpeg, try_catch, heicconvert_call, push_processed,
    push_problematic. fold jpegPath. unfold_M. simpl.
  destruct (heicconvert env (files w) heicPath jpegPath) as [e|m']; simpl;
    by rewrite <- !app_assoc.
Qed.

(** X4: [convertHeicToJpeg] never throws and never ends the process,
    whatever the transcoder does.  The JPEG it asks for is named after
    the stem of the HEIC and lies directly in the working directory, not
    beside the HEIC.  If the transcoder succeeds, the path is returned
    and the HEIC is appended to [processedFiles]; if it fails, [null] is
    returned, the files are as they were, the failure is printed as a
    warning and the HEIC is appended to [problematicFiles]. *)
Theorem convertHeicToJpeg_never_fails heicPath w :
  let jpegPath := Path.name (Path.parse heicPath) +:+ ".jpg" in
  locate env jpegPath = Some (cwd env ++ [jpegPath])
  ∧ match heicconvert env (files w) heicPath jpegPath with
    | inr m' =>
        V1.convertHeicToJpeg env heicPath w
        = Ret (Some jpegPath)
            (mkWorld m'
               (trace w ++
                  [Console Log ("Converting HEIC file to JPEG: " +:+ heicPath);
                   HeicConvert heicPath jpegPath;
                   Console Log ("HEIC file converted to JPEG: " +:+ jpegPath)])
               (problematicFiles w) (processedFiles w ++ [heicPath]) (pending w))
    | inl e =>
        V1.convertHeicToJpeg env heicPath w
        = Ret None
            (mkWorld (files w)
               (trace w ++
                  [Console Log ("Converting HEIC file to JPEG: " +:+ heicPath);
                   HeicConvert heicPath jpegPath;
                   Console Warn ("Error converting HEIC file: " +:+ heicPath +:+ ": "
                                 +:+ message e)])
               (problematicFiles w ++ [heicPath]) (processedFiles w) (pending w))
    end.
Proof.
  intros jpegPath. split.
  - apply resolve_plain, jpeg_name_plain.
  - apply run_convertHeicToJpeg.
Qed.

Lemma bind_Throw {A B} (m : M A) (k : A → M B) w e w' :
  (m ≫= k) w = Throw e w' →
  m w = Throw e w' ∨ ∃ a w1, m w = Ret a w1 ∧ k a w1 = Throw e w'.
Proof.
  rewrite run_bind. destruct (m w); [intros; right; eauto| |done].
  intros [= -> ->]. by left.
Qed.

Lemma try_catch_Ret {A} (body : M A) handler w a w' :
  try_catch body handler w = Ret a w' →
  body w = Ret a w' ∨ ∃ e w1, body w = Throw e w1 ∧ handler e w1 = Ret a w'.
Proof.
  unfold try_catch. destruct (body w) as [a1 w1|e w1|c w1]; [by left| |done].
  intros H. right. by exists e, w1.
Qed.

(** X18: the intermediate JPEG does not outlive its HEIC's turn in the
    batch.  Whenever the loop body returns for a name ending in [.heic]
    either the count is unchanged (no pair was made from it), or it has
    gone up by one and the JPEG the transcoder had written, [<stem>.jpg]
    in the working directory, no longer exists. *)
Theorem process_file_removes_intermediate inputDir outputDir
    (convertAllHeic deleteConverted : bool) file n w n' w' :
  Js.endsWith (Js.toLowerCase file) ".heic" = true →
  V1.process_file env inputDir outputDir convertAllHeic deleteConverted file n w
  = Ret n' w' →
  n' = n
  ∨ (n' = (n + 1)%N
     ∧ node_at env (files w')
         (Path.name (Path.parse (Path.join inputDir file)) +:+ ".jpg") = None).
Proof.
  intros Hheic. unfold V1.process_file. rewrite Hheic.
  set (filePath := Path.join inputDir file).
  set (jpegPath := Path.name (Path.parse filePath) +:+ ".jpg").
  intros H.
  apply bind_Ret in H as (wanted & w1 & _ & H).
  destruct wanted; [|injection H as <- _; by left].
  apply bind_Ret in H as (jpeg & w2 & Hjpeg & H).
  apply bind_Ret in H as (n1 & w3 & Hbranch & H).
  apply bind_Ret in H as ([] & w4 & Hdel & [= <- <-]).
  assert (∀ k, files w3 !! k = None → files w4 !! k = None) as Hkeep.
  { intros k Hk. destruct deleteConverted; [|by injection Hdel as <-].
    apply bind_Ret in Hdel as (ex & w5 & [= <- <-] & Hdel).
    destruct (bool_decide _); [|by injection Hdel as <-].
    apply try_catch_Ret in Hdel as [Hdel|(e & w6 & Hthrow & Hwarn)].
    - apply bind_Ret in Hdel as ([] & w6 & Hun & [= <-]).
      rewrite run_unlinkSync in Hun. simpl in Hun.
      destruct (at_path env (files w3) filePath (Fs.unlink (files w3))) as [|m'] eqn:Hu; [done|].
      injection Hun as <-. simpl.
      apply at_path_unlink in Hu as (kf & d & _ & _ & _ & -> & _).
      destruct (decide (kf = k)) as [->|]; [apply lookup_delete_eq|].
      by rewrite lookup_delete_ne.
    - injection Hwarn as <-. simpl.
      apply bind_Throw in Hthrow as [Hun|([] & w7 & _ & Hlog)]; [|done].
      rewrite run_unlinkSync in Hun. simpl in Hun.
      destruct (at_path env (files w3) filePath (Fs.unlink (files w3))); [|done].
      by injection Hun as _ <-. }
  pose proof (run_convertHeicToJpeg filePath w1) as Hconv. fold jpegPath in Hconv.
  cbv zeta in Hconv.
  destruct (heicconvert env (files w1) filePath jpegPath) as [e|m1];
    rewrite Hconv in Hjpeg; injection Hjpeg as <- <-; simpl in Hbranch.
  { injection Hbranch as <- _. by left. }
  destruct (Js.truthy jpegPath); [|injection Hbranch as <- _; by left].
  apply bind_Ret in Hbranch as (video & w5 & _ & Hbranch).
  destruct video as [videoPath|]; simpl in Hbranch;
    [destruct (Js.truthy videoPath)|]; try (injection Hbranch as <- _; by left).
  apply bind_Ret in Hbranch as ([] & w6 & _ & Hbranch).
  apply bind_Ret in Hbranch as ([] & w7 & Hun & [= <- <-]).
  right. split; [done|].
  rewrite run_unlinkSync in Hun.
  destruct (at_path env (files w6) jpegPath (Fs.unlink (files w6))) as [|m'] eqn:Hu; [done|].
  injection Hun as <-. simpl in Hkeep.
  apply at_path_unlink in Hu as (kj & d & Hkj & Hne & _ & -> & _).
  destruct (node_at env (files w4) _) as [x|] eqn:Hn; [|done].
  apply node_at_key in Hn as (k & Hk & Hl). fold jpegPath in Hk.
  rewrite Hkj in Hk. injection Hk as <-. rewrite look_ne in Hl by done.
  by rewrite (Hkeep kj) in Hl by apply lookup_delete_eq.
Qed.

End Transcoder.

(** ** Orderly computations *)

Lemma orderly_weaken {A} cs cs' (m : M A) : cs ⊆ cs' → orderly cs m → orderly cs' m.
Proof.
  intros Hsub Hm w. destruct (Hm w) as (H1 & H2 & H3).
  split; [done|]. split; [done|]. intros c Hc. apply Hsub. by apply H3.
Qed.

Lemma orderly_ret {A} cs (a : A) : orderly cs (mret a).
Proof. intros w. simpl. by repeat split. Qed.

Lemma orderly_throw {A} cs e : orderly cs (throw (A := A) e).
Proof. intros w. simpl. by repeat split. Qed.

Lemma orderly_exit {A} cs c : c ∈ cs → orderly cs (exit (A := A) c).
Proof. intros Hc w. simpl. split; [done|]. split; [done|]. by intros ? [= <-]. Qed.

Lemma orderly_bind {A B} cs (m : M A) (k : A → M B) :
  orderly cs m → (∀ a, orderly cs (k a)) → orderly cs (m ≫= k).
Proof.
  intros Hm Hk w. destruct (Hm w) as (H1 & H2 & H3).
  change ((m ≫= k) w) with (bind m k w). unfold bind.
  destruct (m w) as [a w1|e w1|c w1]; simpl in *;
    [|by (split; [|split]; [done..|intros ? [= <-]; by apply H3])..].
  destruct (Hk a w1) as (K1 & K2 & K3).
  split; [by etrans|]. split; [by etrans|done].
Qed.

Lemma orderly_try_catch {A} cs (body : M A) handler :
  orderly cs body → (∀ e, orderly cs (handler e)) → orderly cs (try_catch body handler).
Proof.
  intros Hm Hk w. destruct (Hm w) as (H1 & H2 & H3). unfold try_catch.
  destruct (body w) as [a w1|e w1|c w1]; simpl in *; [done| |done].
  destruct (Hk e w1) as (K1 & K2 & K3).
  split; [by etrans|]. split; [by etrans|done].
Qed.

Lemma orderly_emit cs e : orderly cs (emit e).
Proof. intros w. simpl. by repeat split. Qed.

Lemma orderly_get_files cs : orderly cs get_files.
Proof. intros w. simpl. by repeat split. Qed.

Lemma orderly_set_files cs m : orderly cs (set_files m).
Proof. intros w. simpl. by repeat split. Qed.

Lemma orderly_sys {A} cs call p (r : errno + A) : orderly cs (sys call p r).
Proof. destruct r; [apply orderly_throw|apply orderly_ret]. Qed.

Lemma orderly_lib {A} cs (r : error + A) : orderly cs (lib r).
Proof. destruct r; [apply orderly_throw|apply orderly_ret]. Qed.

Lemma orderly_push_problematic cs p : orderly cs (push_problematic p).
Proof.
  intros w. simpl. split; [by apply prefix_app_r|]. by repeat split.
Qed.

Lemma orderly_push_processed cs ps : orderly cs (push_processed ps).
Proof.
  intros w. simpl. split; [done|]. split; [by apply prefix_app_r|done].
Qed.

Lemma orderly_get_problematic cs : orderly cs get_problematic.
Proof. intros w. simpl. by repeat split. Qed.

Lemma orderly_get_processed cs : orderly cs get_processed.
Proof. intros w. simpl. by repeat split. Qed.

Lemma orderly_for_of {A} cs (xs : list A) body :
  (∀ x, orderly cs (body x)) → orderly cs (for_of xs body).
Proof.
  intros Hb. induction xs as [|x xs IH]; [apply orderly_ret|].
  simpl. apply orderly_bind; [apply Hb|done].
Qed.

Lemma orderly_for_fold {A S} cs (xs : list A) (s : S) body :
  (∀ x s, orderly cs (body x s)) → orderly cs (for_fold xs s body).
Proof.
  intros Hb. revert s. induction xs as [|x xs IH]; intros s; [apply orderly_ret|].
  simpl. apply orderly_bind; [apply Hb|done].
Qed.

Lemma orderly_if_truthy {A} cs o (yes : string → M A) no :
  (∀ s, orderly cs (yes s)) → orderly cs no → orderly cs (if_truthy o yes no).
Proof. intros Hy Hn. destruct o as [s|]; simpl; [|done]. by destruct (Js.truthy s). Qed.

Ltac orderly_step :=
  first
    [ apply orderly_ret | apply orderly_throw | apply orderly_emit
    | apply orderly_get_files | apply orderly_set_files | apply orderly_sys
    | apply orderly_lib | apply orderly_push_problematic
    | apply orderly_push_processed | apply orderly_get_problematic
    | apply orderly_get_processed
    | apply orderly_bind; [|intros ?]
    | apply orderly_try_catch; [|intros ?]
    | apply orderly_for_of; intros ?
    | apply orderly_for_fold; intros ? ?
    | apply orderly_if_truthy; [intros ?|]
    | match goal with
      | |- orderly _ (if ?b then _ else _) => destruct b
      | |- orderly _ (match ?o with Some _ => _ | None => _ end) => destruct o
      end ].

Section Orderly.
Context (env : Env).

Lemma orderly_fs cs :
  (∀ p, orderly cs (existsSync env p))
  ∧ (∀ p, orderly cs (lstatSync env p))
  ∧ (∀ p, orderly cs (statSync env p))
  ∧ (∀ p, orderly cs (readFileSync env p))
  ∧ (∀ p d, orderly cs (writeFileSync env p d))
  ∧ (∀ p, orderly cs (mkdirSync env p))
  ∧ (∀ p, orderly cs (readdirSync env p))
  ∧ (∀ p, orderly cs (unlinkSync env p))
  ∧ (∀ p q, orderly cs (renameSync env p q)).
Proof.
  unfold existsSync, lstatSync, statSync, readFileSync, writeFileSync, mkdirSync,
    readdirSync, unlinkSync, renameSync.
  split_and!; intros; repeat orderly_step.
Qed.

Lemma orderly_services cs :
  (∀ a b, orderly cs (heicconvert_call env a b))
  ∧ (∀ f t, orderly cs (exiftool_write env f t))
  ∧ (∀ f, orderly cs (exiftool_read env f))
  ∧ (∀ q a, orderly cs (prompt q a)).
Proof.
  unfold heicconvert_call, exiftool_write, exiftool_read, prompt.
  split_and!; intros; repeat orderly_step.
Qed.

Ltac orderly_tac :=
  unfold console_log, console_warn, console_error;
  repeat first
    [ orderly_step | apply orderly_fs | apply orderly_services
    | apply orderly_exit; assumption ].

Lemma orderly_validateDirectory cs dir : orderly cs (V1.validateDirectory env dir).
Proof. unfold V1.validateDirectory. orderly_tac. Qed.

Lemma orderly_validateMedia cs p v : orderly cs (V1.validateMedia env p v).
Proof. unfold V1.validateMedia, V1.validateFile. orderly_tac. Qed.

Lemma orderly_convertHeicToJpeg cs p : orderly cs (V1.convertHeicToJpeg env p).
Proof. unfold V1.convertHeicToJpeg. orderly_tac. Qed.

Lemma orderly_createMotionPhoto cs p v o : orderly cs (V1.createMotionPhoto env p v o).
Proof.
  unfold V1.createMotionPhoto, V1.mergeFiles, V1.addXmpMetadata.
  apply orderly_bind; [apply orderly_validateMedia|intros ok].
  orderly_tac.
Qed.

Lemma orderly_matchingVideo cs p d : orderly cs (V1.matchingVideo env p d).
Proof. unfold V1.matchingVideo. orderly_tac. Qed.

Lemma orderly_uniquePath cs d f : orderly cs (V1.uniquePath env d f).
Proof.
  assert (∀ fuel name ext counter newFilename,
            orderly cs (V1.uniquePath_loop env fuel d name ext counter newFilename))
    as Hloop.
  { induction fuel as [|fuel IH]; intros name ext counter newFilename; simpl.
    - apply orderly_throw.
    - apply orderly_bind; [apply orderly_fs|intros ex].
      destruct ex; [apply IH|apply orderly_ret]. }
  intros w. apply Hloop.
Qed.

Lemma orderly_process_file cs i o c d file n :
  orderly cs (V1.process_file env i o c d file n).
Proof.
  unfold V1.process_file.
  destruct (Js.endsWith _ ".heic").
  - apply orderly_bind.
    { destruct c; [apply orderly_ret|].
      apply orderly_bind; [apply orderly_matchingVideo|intros; apply orderly_ret]. }
    intros wanted. destruct wanted; [|apply orderly_ret].
    apply orderly_bind; [apply orderly_convertHeicToJpeg|intros jpeg].
    apply orderly_bind.
    { apply orderly_if_truthy; [intros jpegPath|apply orderly_ret].
      apply orderly_bind; [apply orderly_matchingVideo|intros video].
      apply orderly_if_truthy; [intros videoPath|apply orderly_ret].
      apply orderly_bind; [apply orderly_createMotionPhoto|intros _].
      orderly_tac. }
    intros n'. orderly_tac.
  - destruct (V1.is_jpeg_name file); [|apply orderly_ret].
    apply orderly_bind; [apply orderly_matchingVideo|intros video].
    apply orderly_if_truthy; [intros videoPath|apply orderly_ret].
    apply orderly_bind; [apply orderly_createMotionPhoto|intros _].
    apply orderly_ret.
Qed.

Lemma orderly_move_other cs i o file : orderly cs (V1.move_other env i o file).
Proof.
  unfold V1.move_other.
  destruct (bool_decide _); [|apply orderly_ret].
  apply orderly_bind; [apply orderly_get_processed|intros processed].
  destruct (negb _); [|apply orderly_ret].
  apply orderly_bind; [apply orderly_uniquePath|intros p].
  orderly_tac.
Qed.

Lemma orderly_processDirectory cs i o m c d :
  1 ∈ cs → orderly cs (V1.processDirectory env i o m c d).
Proof.
  intros H1. unfold V1.processDirectory.
  apply orderly_bind; [orderly_tac|intros _].
  apply orderly_bind; [apply orderly_validateDirectory|intros okIn].
  apply orderly_bind; [orderly_tac|intros _].
  apply orderly_bind; [apply orderly_validateDirectory|intros okOut].
  apply orderly_bind; [orderly_tac|intros _].
  apply orderly_bind; [apply orderly_fs|intros names].
  apply orderly_bind.
  { apply orderly_for_fold. intros file n. apply orderly_process_file. }
  intros n.
  apply orderly_bind; [orderly_tac|intros _].
  apply orderly_bind; [orderly_tac|intros _].
  apply orderly_bind; [|intros _; orderly_tac].
  destruct m; [|apply orderly_ret].
  apply orderly_bind; [apply orderly_fs|intros _].
  apply orderly_for_of. intros file. apply orderly_move_other.
Qed.

Lemma orderly_main cs a : 0 ∈ cs → 1 ∈ cs → orderly cs (V1.main env a).
Proof.
  intros H0 H1. unfold V1.main.
  apply orderly_bind; [orderly_tac|intros _].
  apply orderly_bind; [apply orderly_services|intros line1].
  apply orderly_bind; [apply orderly_validateDirectory|intros ok].
  apply orderly_bind; [orderly_tac|intros _].
  apply orderly_bind; [apply orderly_services|intros line2].
  apply orderly_bind; [apply orderly_services|intros line3].
  apply orderly_bind; [apply orderly_services|intros line4].
  apply orderly_bind; [apply orderly_services|intros line5].
  apply orderly_bind; [by apply orderly_processDirectory|intros _].
  orderly_tac.
Qed.

Lemma bind_no_return {A B} (m : M A) (k : A → M B) :
  (∀ a w1 b, ending_of (k a w1) ≠ Returned b) →
  ∀ w b, ending_of ((m ≫= k) w) ≠ Returned b.
Proof.
  intros Hk w b. rewrite run_bind. destruct (m w); [apply Hk|done..].
Qed.

(** X5: however a run of the interactive converter ends, every entry
    that was on [problematicFiles] or [processedFiles] is still there, in
    its place: the program only ever appends to the two lists.  [main]
    never returns to its caller: it ends the process with status 0 or 1,
    or it is left by an exception. *)
Theorem main_only_appends a w :
  problematicFiles w `prefix_of` problematicFiles (final_world (V1.main env a w))
  ∧ processedFiles w `prefix_of` processedFiles (final_world (V1.main env a w))
  ∧ (∀ c, ending_of (V1.main env a w) = Exited c → c = 0 ∨ c = 1)
  ∧ ∀ x, ending_of (V1.main env a w) ≠ Returned x.
Proof.
  destruct (orderly_main [0; 1] a) with (w := w) as (Hp & Hq & Hc).
  { by left. } { right. by left. }
  split; [done|]. split; [done|]. split.
  - intros c Hex. apply Hc in Hex.
    apply elem_of_cons in Hex as [->|Hex]; [by left|].
    apply elem_of_cons in Hex as [->|Hex]; [by right|].
    by apply elem_of_nil in Hex.
  - revert w Hp Hq Hc. unfold V1.main. intros w _ _ _.
    repeat (apply bind_no_return; intros; cbv zeta).
    done.
Qed.

Lemma for_of_logs {A} (xs : list A) (body : A → M unit) (e : A → event) w :
  (∀ x w, body x w = Ret tt (log_to w [e x])) →
  for_of xs body w = Ret tt (log_to w (e <$> xs)).
Proof.
  intros Hb. revert w. induction xs as [|x xs IH]; intros w; simpl.
  { unfold_M. by rewrite log_to_nil. }
  rewrite run_bind, Hb, IH. by rewrite log_to_app.
Qed.

(** X6: how a run of the interactive converter can end with a status.
    The status is 1 (a directory was rejected) or 0.  With status 0 the
    last thing done was to close the prompt, and either no file was
    recorded as problematic, or [problematic_files.txt] in the working
    directory holds the heading followed by the recorded paths, one per
    line, and nothing else. *)
Theorem main_report a w :
  match V1.main env a w with
  | Ret _ _ => False
  | Throw _ _ => True
  | Exit c w' =>
      c = 1
      ∨ (c = 0
         ∧ last (trace w') = Some RlClose
         ∧ (problematicFiles w' = []
            ∨ node_at env (files w') "problematic_files.txt"
              = Some (File (bytes_of (V1.report_header +:+ nl
                                      +:+ Js.join nl (problematicFiles w'))))))
  end.
Proof.
  unfold V1.main, prompt. rewrite !run_bind. simpl.
  rewrite !run_bind. simpl. rewrite run_bind, run_validateDirectory.
  destruct (negb (Js.truthy _)); simpl; [by left|].
  destruct (node_at env _ _) as [[d|]|]; simpl; [by left| |by left].
  repeat (rewrite !run_bind; simpl).
  match goal with
  | |- context [V1.processDirectory env ?i ?o ?m ?c ?d ?w0] =>
      pose proof (orderly_processDirectory [1] i o m c d ltac:(by left) w0)
        as (_ & _ & Hc);
      destruct (V1.processDirectory env i o m c d w0) as [[] w1|e w1|c1 w1]
  end; simpl in *; [|done|].
  2:{ left. specialize (Hc c1 eq_refl). apply elem_of_cons in Hc as [->|Hc]; [done|].
      by apply elem_of_nil in Hc. }
  clear Hc. rewrite !run_bind. simpl.
  destruct (bool_decide (problematicFiles w1 = [])) eqn:Hnone; simpl.
  { right. split; [done|]. split; [by rewrite last_snoc|]. left.
    by apply bool_decide_eq_true in Hnone. }
  rewrite !run_bind. simpl.
  rewrite run_bind, (for_of_logs _ _ (Console Warn)) by done.
  rewrite run_writeFileSync. simpl.
  destruct (at_path env _ "problematic_files.txt" _) as [c|m2] eqn:Hw; simpl; [done|].
  right. split; [done|]. split; [by rewrite last_snoc|]. right.
  by apply at_path_write in Hw as (k & _ & _ & _ & _ & Hk & _).
Qed.

End Orderly.

(** ** The output directory *)

Section Output.
Context (env : Env).

Lemma node_at_truthy m p n : node_at env m p = Some n → Js.truthy p = true.
Proof. intros H. apply truthy_true. intros ->. by rewrite node_at_empty in H. Qed.

(** X7: the interactive converter does not create its output directory.
    When the input directory is accepted and the output path does not
    name a directory, [processDirectory] ends the process with status 1
    before it has listed the input directory, and so does [main], after
    its five questions, on the output path typed (or [output]).  Nothing
    but probes has happened by then. *)
Theorem invalid_output_directory_is_fatal (a : V1.Answers) inputDir outputDir
    (moveOtherImages convertAllHeic deleteConverted : bool) w :
  (node_at env (files w) inputDir = Some Dir →
   node_at env (files w) outputDir ≠ Some Dir →
   ∃ es,
     V1.processDirectory env inputDir outputDir moveOtherImages convertAllHeic
       deleteConverted w
     = Exit 1 (log_to w es)
     ∧ Forall probe es
     ∧ last es = Some (Console Err "Invalid output directory."))
  ∧ (node_at env (files w) (V1.or_default (V1.ansInput a) "photos") = Some Dir →
     node_at env (files w) (V1.or_default (V1.ansOutput a) "output") ≠ Some Dir →
     ∃ es,
       V1.main env a w = Exit 1 (log_to w es)
       ∧ Forall probe es
       ∧ last es = Some (Console Err "Invalid output directory.")).
Proof.
  assert (∀ i o m c d w,
            node_at env (files w) i = Some Dir → node_at env (files w) o ≠ Some Dir →
            ∃ es, V1.processDirectory env i o m c d w = Exit 1 (log_to w es)
                  ∧ Forall probe es
                  ∧ last es = Some (Console Err "Invalid output directory.")) as Hpd.
  { clear. intros i o m c d w Hin Hout.
    unfold V1.processDirectory. rewrite !run_bind. simpl.
    rewrite run_bind, run_validateDirectory.
    rewrite (node_at_truthy _ _ _ Hin). simpl. rewrite Hin. simpl.
    rewrite !run_bind. simpl. rewrite run_bind, run_validateDirectory.
    destruct (Js.truthy o); simpl.
    2:{ unfold_M. simpl. eexists. rewrite !log_to_app. split; [done|].
        split; [by repeat constructor|done]. }
    destruct (node_at env (files w) o) as [[x|]|]; simpl; [| done |];
      unfold_M; simpl; eexists; rewrite !log_to_app; (split; [done|]);
      (split; [by repeat constructor|done]). }
  split; [by apply Hpd|].
  intros Hin Hout.
  unfold V1.main, prompt. rewrite !run_bind. simpl.
  rewrite !run_bind. simpl. rewrite run_bind, run_validateDirectory.
  rewrite (node_at_truthy _ _ _ Hin). simpl. rewrite Hin. simpl.
  repeat (rewrite !run_bind; simpl).
  match goal with
  | |- context [V1.processDirectory env ?i ?o ?m ?c ?d ?w0] =>
      destruct (Hpd i o m c d w0) as (es & -> & Hes & Hlast); [done..|]
  end.
  simpl. eexists. rewrite !log_to_app. split; [done|]. split.
  - repeat (apply Forall_cons; split; [done|]). done.
  - rewrite !last_app. by rewrite Hlast.
Qed.

End Output.

(** In a directory that has no [output] beside it, the run stops there. *)
Lemma invalid_output_directory_is_fatal_witness :
  ∃ es,
    V1.main Sample.env Sample.answers Sample.longer_stem
    = Exit 1 (log_to Sample.longer_stem es)
    ∧ Forall probe es
    ∧ last es = Some (Console Err "Invalid output directory.").
Proof.
  refine (proj2 (invalid_output_directory_is_fatal Sample.env Sample.answers "" ""
                   false false false Sample.longer_stem) _ _).
  - vm_compute. reflexivity.
  - assert (node_at Sample.env (files Sample.longer_stem)
              (V1.or_default (V1.ansOutput Sample.answers) "output") = None) as ->
      by (vm_compute; reflexivity).
    discriminate.
Defined.

(** ** Free names and the move step *)

Section Moving.
Context (env : Env).

Lemma uniquePath_loop_first fuel destination name ext counter newFilename w :
  (∃ j, (j < fuel)%nat
        ∧ node_at env (files w)
            (Path.join destination (tried name ext counter newFilename j)) = None) →
  ∃ j,
    V1.uniquePath_loop env fuel destination name ext counter newFilename w
    = Ret (Path.join destination (tried name ext counter newFilename j))
        (log_to w ((λ i, FsExists (Path.join destination
                                     (tried name ext counter newFilename i)))
                     <$> seq 0 (S j)))
    ∧ node_at env (files w)
        (Path.join destination (tried name ext counter newFilename j)) = None
    ∧ ∀ i, (i < j)%nat →
           is_Some (node_at env (files w)
                      (Path.join destination (tried name ext counter newFilename i))).
Proof.
  revert counter newFilename w.
  induction fuel as [|fuel IH]; intros counter newFilename w (j & Hj & Hfree); [lia|].
  simpl V1.uniquePath_loop. rewrite run_bind, run_existsSync. simpl.
  destruct (node_at env (files w) (Path.join destination newFilename)) as [n|] eqn:Hn.
  - rewrite bool_decide_eq_true_2 by eauto.
    destruct j as [|j]; [simpl in Hfree; congruence|].
    destruct (IH (counter + 1)%N (V1.candidate name ext counter)
                (log_to w [FsExists (Path.join destination newFilename)]))
      as (j' & Hrun & Hnone & Hbefore).
    { exists j. split; [lia|done]. }
    exists (S j'). split; [|split; [done|]].
    + rewrite Hrun, log_to_app. do 2 f_equal.
      change (seq 0 (S (S j'))) with (0%nat :: seq 1 (S j')).
      rewrite <- fmap_S_seq, <- list_fmap_compose. done.
    + intros [|i] Hi; [simpl; by rewrite Hn|]. apply Hbefore. lia.
  - rewrite bool_decide_eq_false_2 by (by intros [? ?]).
    exists 0%nat. split; [done|]. split; [done|]. intros i Hi. lia.
Qed.

(** X8: [uniquePath] tries the given name first and then the numbered
    names [name(1)ext], [name(2)ext], ... in order, and returns the first
    of them that names no entry: every name tried before it exists, and
    the existence tests on the names up to it are all it has done.  In
    particular a free name is returned as it is. *)
Theorem uniquePath_first_free destination filename w :
  let name := Path.name (Path.parse filename) in
  let ext := Path.ext (Path.parse filename) in
  let nth_path i := Path.join destination (tried name ext 1 filename i) in
  ∃ j,
    V1.uniquePath env destination filename w
    = Ret (nth_path j) (log_to w ((λ i, FsExists (nth_path i)) <$> seq 0 (S j)))
    ∧ node_at env (files w) (nth_path j) = None
    ∧ (∀ i, (i < j)%nat → is_Some (node_at env (files w) (nth_path i)))
    ∧ (node_at env (files w) (Path.join destination filename) = None → j = 0%nat).
Proof.
  intros name ext nth_path. unfold V1.uniquePath. fold name. fold ext.
  set (K := default (cwd env) (locate env destination)).
  destruct (free_key (files w)
              (λ j, K ++ [V1.candidate name ext (1 + N.of_nat j)%N]))
    as (j0 & Hj0 & Hfree0).
  { intros j j' H. apply app_inv_head in H. injection H as H.
    apply candidate_inj in H. lia. }
  destruct (uniquePath_loop_first (S (S (size (files w)))) destination name ext 1
              filename w) as (j & Hrun & Hnone & Hbefore).
  { exists (S j0). split; [lia|]. rewrite tried_S.
    apply node_at_join_None; [apply candidate_plain|done]. }
  exists j. split; [done|]. split; [done|]. split; [done|].
  intros Hfree. destruct j as [|j]; [done|].
  destruct (Hbefore 0%nat) as [n Hn]; [lia|]. simpl in Hn. congruence.
Qed.

(** X9: what the move step does to a regular file of the input
    directory.  If its extension is one of the seven that are moved and
    its path is not on [processedFiles], the file arrives with its
    content under a name that was free and is gone from the input
    directory; otherwise the step does nothing at all. *)
Theorem move_other_moves inputDir otherFilesDir file w w' d :
  V1.move_other env inputDir otherFilesDir file w = Ret tt w' →
  node_at env (files w) (Path.join inputDir file) = Some (File d) →
  if bool_decide (Js.toLowerCase (Path.extname file) ∈ V1.movable_exts)
     && negb (bool_decide (Path.join inputDir file ∈ processedFiles w))
  then ∃ p,
         node_at env (files w) p = None
         ∧ node_at env (files w') p = Some (File d)
         ∧ node_at env (files w') (Path.join inputDir file) = None
         ∧ last (trace w')
           = Some (Console Log ("Moved " +:+ Path.basename p +:+ " to output directory."))
  else w' = w.
Proof.
  unfold V1.move_other. intros Hrun Hsrc.
  destruct (bool_decide (Js.toLowerCase (Path.extname file) ∈ V1.movable_exts));
    simpl; [|by injection Hrun as <-].
  apply bind_Ret in Hrun as (processed & w0 & [= <- <-] & Hrun).
  destruct (negb (bool_decide (Path.join inputDir file ∈ processedFiles w)));
    simpl; [|by injection Hrun as <-].
  apply bind_Ret in Hrun as (p & w1 & Hp & Hrun).
  apply uniquePath_loop_Ret in Hp as [(es & -> & _) Hfree].
  apply bind_Ret in Hrun as ([] & w2 & Hren & Hrun).
  apply renameSync_Ret in Hren as (ks & kd & m' & Hks & Hkd & Hren & ->).
  injection Hrun as <-. simpl in *.
  exists p. split; [done|].
  unfold node_at in Hsrc, Hfree. rewrite Hks in Hsrc. rewrite Hkd in Hfree.
  assert (ks ≠ []) as Hks0.
  { intros ->. unfold Fs.look in Hsrc. by rewrite decide_True in Hsrc. }
  assert (kd ≠ []) as Hkd0.
  { intros ->. unfold Fs.look in Hfree. by rewrite decide_True in Hfree. }
  assert (ks ≠ kd) as Hne by congruence.
  unfold Fs.rename in Hren. rewrite Hsrc, Hfree in Hren.
  destruct (Fs.look (files w) (Fs.parent kd)) as [[]|]; [done| |done].
  rewrite decide_False in Hren by done. injection Hren as <-.
  set (m' := <[kd := File d]> (delete ks (files w))).
  assert (∀ k, Fs.look (files w) k = Some Dir → Fs.look m' k = Some Dir) as Hdirs.
  { intros k Hk.
    assert (k ≠ ks) as H1 by congruence. assert (k ≠ kd) as H2 by congruence.
    unfold Fs.look in *. case_decide; [done|]. unfold m'.
    by rewrite lookup_insert_ne, lookup_delete_ne. }
  split_and!.
  - unfold node_at. rewrite (resolve_mono env _ _ _ _ Hdirs Hkd).
    rewrite look_ne by done. apply lookup_insert_eq.
  - unfold node_at. rewrite (resolve_mono env _ _ _ _ Hdirs Hks).
    rewrite look_ne by done. unfold m'.
    rewrite lookup_insert_ne by done. apply lookup_delete_eq.
  - by rewrite last_snoc.
Qed.

End Moving.

(** The still of the sample pair is moved into [output], where its name is
    taken. *)
Lemma move_other_moves_witness :
  ∃ p,
    node_at Sample.env (files Sample.second_run) p = None
    ∧ node_at Sample.env
        (files (final_world (V1.move_other Sample.env "photos" "output" "IMG_0001.jpg"
                               Sample.second_run))) p
      = Some (File Sample.still)
    ∧ node_at Sample.env
        (files (final_world (V1.move_other Sample.env "photos" "output" "IMG_0001.jpg"
                               Sample.second_run))) "photos/IMG_0001.jpg"
      = None
    ∧ last (trace (final_world (V1.move_other Sample.env "photos" "output"
                                  "IMG_0001.jpg" Sample.second_run)))
      = Some (Console Log ("Moved " +:+ Path.basename p +:+ " to output directory.")).
Proof.
  pose proof (ending_Returned
                (V1.move_other Sample.env "photos" "output" "IMG_0001.jpg"
                   Sample.second_run) tt ltac:(vm_compute; reflexivity)) as Hrun.
  exact (move_other_moves Sample.env "photos" "output" "IMG_0001.jpg"
           Sample.second_run _ Sample.still Hrun ltac:(vm_compute; reflexivity)).
Defined.

(** ** A directory without pairs *)

Lemma find_none {A} (f : A → bool) (l : list A) :
  Forall (λ y, f y = false) l → List.find f l = None.
Proof. induction 1 as [|y l Hy _ IH]; simpl; [done|]. by rewrite Hy. Qed.

Section NoPairs.
Context (env : Env).

Lemma at_path_readdir_dir m p names :
  at_path env m p (Fs.readdir m) = inr names → node_at env m p = Some Dir.
Proof.
  unfold at_path, node_at, Fs.readdir.
  destruct (Fs.resolve m (cwd env) p) as [c|k]; simpl; [done|].
  by destruct (Fs.look m k) as [[]|].
Qed.

(** X10: a directory in which no name ends in [.heic] and no still has a
    video whose name starts with its stem is left exactly as it is by
    [processDirectory] (without the move option): the call returns, it
    has only probed and listed the directory, no file and neither of the
    two lists has changed, and the count it prints is 0. *)
Theorem processDirectory_without_pairs inputDir outputDir
    (convertAllHeic deleteConverted : bool) names w :
  at_path env (files w) inputDir (Fs.readdir (files w)) = inr names →
  node_at env (files w) outputDir = Some Dir →
  Forall (λ file,
            Js.endsWith (Js.toLowerCase file) ".heic" = false
            ∧ (V1.is_jpeg_name file = true →
               Forall (λ other,
                         V1.video_match
                           (Path.name (Path.parse (Path.join inputDir file))) other
                         = false) names)) names →
  ∃ es,
    V1.processDirectory env inputDir outputDir false convertAllHeic deleteConverted w
    = Ret tt (log_to w es)
    ∧ Console Log "Found 0 matching HEIC/JPEG and MOV/MP4 pairs." ∈ es
    ∧ Forall (λ e, probe e ∨ e = FsReaddir inputDir) es.
Proof.
  intros Hdir Hout Hnames.
  pose proof (at_path_readdir_dir _ _ _ Hdir) as Hin.
  assert (∀ rest es0,
            Forall (λ file,
                      Js.endsWith (Js.toLowerCase file) ".heic" = false
                      ∧ (V1.is_jpeg_name file = true →
                         Forall (λ other,
                                   V1.video_match
                                     (Path.name (Path.parse (Path.join inputDir file)))
                                     other = false) names)) rest →
            ∃ es1,
              for_fold rest 0%N
                (V1.process_file env inputDir outputDir convertAllHeic deleteConverted)
                (log_to w es0)
              = Ret 0%N (log_to w (es0 ++ es1))
              ∧ Forall (λ e, probe e ∨ e = FsReaddir inputDir) es1) as Hloop.
  { induction rest as [|file rest IH]; intros es0 Hrest.
    { exists []. rewrite app_nil_r. by split. }
    apply Forall_cons in Hrest as [[Hheic Hjpeg] Hrest].
    assert (∃ es',
              V1.process_file env inputDir outputDir convertAllHeic deleteConverted
                file 0%N (log_to w es0)
              = Ret 0%N (log_to w (es0 ++ es'))
              ∧ Forall (λ e, probe e ∨ e = FsReaddir inputDir) es')
      as (es' & Hstep & Hes').
    { unfold V1.process_file. rewrite Hheic.
      destruct (V1.is_jpeg_name file).
      - rewrite run_bind, run_matchingVideo. simpl files. rewrite Hdir.
        rewrite find_none by by apply Hjpeg. simpl. unfold_M. rewrite log_to_app.
        eexists. split; [done|]. apply Forall_cons. split; [by right|done].
      - exists []. rewrite app_nil_r. by split. }
    simpl for_fold. rewrite run_bind, Hstep.
    destruct (IH (es0 ++ es') Hrest) as (es1 & -> & Hes1).
    exists (es' ++ es1). rewrite <- app_assoc. split; [done|].
    by apply Forall_app. }
  unfold V1.processDirectory. rewrite !run_bind. simpl.
  rewrite run_bind, run_validateDirectory.
  rewrite (node_at_truthy _ _ _ _ Hin). simpl. rewrite Hin. simpl.
  rewrite !run_bind. simpl. rewrite run_bind, run_validateDirectory.
  rewrite (node_at_truthy _ _ _ _ Hout). simpl. rewrite Hout. simpl.
  rewrite !run_bind. simpl. rewrite run_bind, run_readdirSync. simpl.
  rewrite Hdir. rewrite !log_to_app. rewrite run_bind.
  match goal with
  | |- context [for_fold names 0%N _ (log_to w ?es0)] =>
      destruct (Hloop names es0 Hnames) as (es1 & -> & Hes1)
  end.
  unfold_M. simpl. rewrite !log_to_app. eexists. split; [done|]. split.
  - rewrite !elem_of_app. right. right. left. by left.
  - rewrite !Forall_app. split_and!; try done;
      repeat (apply Forall_cons; split; [by (left + right)|]); done.
Qed.

End NoPairs.

(** A still without a video, a video without a still and a text file. *)
Lemma processDirectory_without_pairs_witness :
  ∃ es,
    V1.processDirectory Sample.env "photos" "output" false false false Sample.no_pairs
    = Ret tt (log_to Sample.no_pairs es)
    ∧ Console Log "Found 0 matching HEIC/JPEG and MOV/MP4 pairs." ∈ es
    ∧ Forall (λ e, probe e ∨ e = FsReaddir "photos") es.
Proof.
  refine (processDirectory_without_pairs Sample.env "photos" "output" false false
            ["IMG_0006.mov"; "notes.txt"; "IMG_0005.jpg"] Sample.no_pairs _ _ _).
  - vm_compute. reflexivity.
  - vm_compute. reflexivity.
  - repeat (apply List.Forall_cons;
            [split; [vm_compute; reflexivity|];
             first [ intros _; repeat (apply List.Forall_cons;
                                       [vm_compute; reflexivity|]); apply List.Forall_nil
                   | intros H; vm_compute in H; discriminate H ]|]).
    apply List.Forall_nil.
Defined.

(** ** The command-line muxer: scanning a directory *)

Lemma normalize_not_dot_slash x rest : rest ≠ "" → Path.normalize x ≠ "./" +:+ rest.
Proof.
  intros Hrest. unfold Path.normalize. case_decide; [done|].
  set (segs := Path.normalize_segments _ _ _).
  assert (Forall (λ s, s ≠ "" ∧ s ≠ "." ∧ slash ∉ Js.chars s) segs) as Hsegs.
  { apply normalize_segments_clean; [constructor|].
    apply Forall_forall. intros seg. apply split_free. }
  case_decide as Hbody.
  - destruct (Path.isAbsolute x); [done|].
    destruct (Js.endsWith x "/"); [|done]. intros [= E]. by apply Hrest.
  - destruct (Path.isAbsolute x); [done|].
    destruct Hsegs as [|s segs' (Hs & Hdot & Hfree) _]; [done|].
    destruct s as [|c [|c2 s1]]; [done| |].
    + destruct segs'; simpl; intros [= -> _]; done.
    + assert (c2 ≠ slash) as Hc2. { intros ->. apply Hfree. simpl. right. by left. }
      destruct segs'; simpl; intros [= _ -> _]; done.
Qed.

Lemma join_not_dot_slash a b rest : rest ≠ "" → Path.join a b ≠ "./" +:+ rest.
Proof.
  intros Hrest. unfold Path.join.
  repeat case_decide; [done|by apply normalize_not_dot_slash..].
Qed.

Lemma find_some_elem {A} (f : A → bool) (l : list A) x :
  List.find f l = Some x → x ∈ l ∧ f x = true.
Proof.
  induction l as [|y l IH]; simpl; [done|].
  destruct (f y) eqn:Hy.
  - intros [= <-]. split; [by left|done].
  - intros [? ?]%IH. split; [by right|done].
Qed.

Section Scanning.
Context (env : Env).

(** What a pair found by the scan looks like: the still is a listed name
    joined to the directory, the video is the still's path without its
    extension, under [./], with one of the four extensions, and exists. *)
Lemma scan_file_Ret fileDir file acc w acc' w' :
  V2.scan_file env fileDir file acc w = Ret acc' w' →
  ∃ es,
    w' = log_to w es ∧ Forall probe es
    ∧ (acc' = acc
       ∨ ∃ ext,
           acc' = acc ++ [(Path.join fileDir file,
                           ("./" +:+ Path.dir (Path.parse (Path.join fileDir file))
                            +:+ "/" +:+ Path.name (Path.parse (Path.join fileDir file)))
                           +:+ ext)]
           ∧ ext ∈ probed_exts
           ∧ V1.is_jpeg_name file = true
           ∧ is_Some (node_at env (files w)
                        (("./" +:+ Path.dir (Path.parse (Path.join fileDir file))
                          +:+ "/" +:+ Path.name (Path.parse (Path.join fileDir file)))
                         +:+ ext))).
Proof.
  unfold V2.scan_file. rewrite run_bind, run_lstatSync.
  destruct (node_at env (files w) (Path.join fileDir file)) as [st|]; [|done].
  destruct (_ || _) eqn:Htest.
  2:{ intros [= <- <-]. exists [FsLstat (Path.join fileDir file)].
      split; [done|]. split; [by repeat constructor|by left]. }
  assert (V1.is_jpeg_name file = true) as Hjpeg.
  { unfold V1.is_jpeg_name. apply orb_true_iff.
    apply orb_true_iff in Htest as [[_ ?]%andb_true_iff|?]; [by left|by right]. }
  rewrite run_bind.
  destruct (run_matchingVideo_v2 env (Path.join fileDir file)
              (log_to w [FsLstat (Path.join fileDir file)])) as (es & -> & Hes).
  simpl files. rewrite log_to_app.
  destruct (List.find _ probed_exts) as [ext|] eqn:Hfind.
  - apply find_some_elem in Hfind as [Hext Hthere].
    apply bool_decide_eq_true in Hthere.
    rewrite bool_decide_eq_false_2.
    2:{ intros E. apply (f_equal Js.chars) in E. rewrite !chars_app in E.
        simpl in E. discriminate E. }
    intros [= <- <-]. eexists. split; [done|].
    split; [constructor; [done|done]|]. right. exists ext. by split_and!.
  - rewrite bool_decide_eq_true_2 by done.
    intros [= <- <-]. eexists. split; [done|].
    split; [constructor; [done|done]|]. by left.
Qed.

Lemma scan_loop_Ret fileDir names acc w pairs w' :
  for_fold names acc (V2.scan_file env fileDir) w = Ret pairs w' →
  ∃ es found,
    w' = log_to w es ∧ Forall probe es ∧ pairs = acc ++ found
    ∧ Forall (λ pair,
                ∃ file ext,
                  file ∈ names ∧ ext ∈ probed_exts
                  ∧ V1.is_jpeg_name file = true
                  ∧ pair.1 = Path.join fileDir file
                  ∧ pair.2 = ("./" +:+ Path.dir (Path.parse pair.1) +:+ "/"
                              +:+ Path.name (Path.parse pair.1)) +:+ ext
                  ∧ is_Some (node_at env (files w) pair.2)) found.
Proof.
  revert acc w. induction names as [|file names IH]; intros acc w; simpl.
  { intros [= <- <-]. exists [], []. rewrite log_to_nil, app_nil_r. by repeat split. }
  intros (acc1 & w1 & Hstep & Hrest)%bind_Ret.
  apply scan_file_Ret in Hstep as (es1 & -> & Hes1 & Hacc1).
  apply IH in Hrest as (es2 & found & -> & Hes2 & -> & Hfound).
  exists (es1 ++ es2).
  assert (Forall (λ pair,
                    ∃ file0 ext,
                      file0 ∈ file :: names ∧ ext ∈ probed_exts
                      ∧ V1.is_jpeg_name file0 = true
                      ∧ pair.1 = Path.join fileDir file0
                      ∧ pair.2 = ("./" +:+ Path.dir (Path.parse pair.1) +:+ "/"
                                  +:+ Path.name (Path.parse pair.1)) +:+ ext
                      ∧ is_Some (node_at env (files w) pair.2)) found) as Hfound'.
  { eapply Forall_impl; [exact Hfound|].
    intros pair (file0 & ext & ? & ? & ? & ? & ? & ?).
    exists file0, ext. split; [by right|done]. }
  destruct Hacc1 as [->|(ext & -> & Hext & Hjpeg & Hthere)].
  - exists found. rewrite log_to_app. split; [done|].
    split; [by apply Forall_app|]. split; [done|done].
  - eexists (_ :: found). rewrite log_to_app. split; [done|].
    split; [by apply Forall_app|]. split; [by rewrite <- app_assoc|].
    constructor; [|done]. exists file, ext. simpl.
    split; [by left|done].
Qed.

Lemma processDirectory_v2_Ret fileDir w pairs w' :
  V2.processDirectory env fileDir false w = Ret pairs w' →
  ∃ names es,
    at_path env (files w) fileDir (Fs.readdir (files w)) = inr names
    ∧ w' = log_to w es
    ∧ Forall (λ e, probe e ∨ e = FsReaddir fileDir) es
    ∧ Forall (λ pair,
                ∃ file ext,
                  file ∈ names ∧ ext ∈ probed_exts
                  ∧ V1.is_jpeg_name file = true
                  ∧ pair.1 = Path.join fileDir file
                  ∧ pair.2 = ("./" +:+ Path.dir (Path.parse pair.1) +:+ "/"
                              +:+ Path.name (Path.parse pair.1)) +:+ ext
                  ∧ is_Some (node_at env (files w) pair.2)) pairs.
Proof.
  unfold V2.processDirectory. intros H.
  apply bind_Ret in H as ([] & w1 & [= <-] & H).
  apply bind_Ret in H as ([] & w2 & [= <-] & H).
  apply bind_Ret in H as (names & w3 & Hdir & H).
  rewrite run_readdirSync in Hdir. simpl in Hdir.
  destruct (at_path env (files w) fileDir (Fs.readdir (files w))) as [|names'] eqn:Hls; [done|].
  injection Hdir as -> <-.
  apply bind_Ret in H as (found & w4 & Hloop & H).
  apply scan_loop_Ret in Hloop as (es & found' & -> & Hes & -> & Hfound).
  unfold_M in H. simpl in H. injection H as <- <-.
  exists names, ([Console Log ("Processing dir: " +:+ fileDir)] ++ [FsReaddir fileDir]
                 ++ es ++ [Console Log ("Found " +:+ pretty (length found') +:+ " pairs.")]
                 ++ [Console Log ("subset of found image/video pairs: "
                                  +:+ Js.json_array (V2.json_pair <$> take 9 found'))]).
  split; [done|]. split.
  { unfold log_to. simpl. by rewrite <- !app_assoc. }
  split; [|done].
  rewrite !Forall_app. split_and!.
  - constructor; [by left|done].
  - constructor; [by right|done].
  - eapply Forall_impl; [exact Hes|]. by left.
  - constructor; [by left|done].
  - constructor; [by left|done].
Qed.

(** A video path as the scan writes it is no path [path.join] returns. *)
Lemma video_not_joined x ext a b :
  ext ∈ probed_exts → ("./" +:+ x) +:+ ext ≠ Path.join a b.
Proof.
  intros Hext.
  change (("./" +:+ x) +:+ ext) with ("./" +:+ (x +:+ ext)).
  intros E. symmetry in E. revert E. apply join_not_dot_slash.
  intros E. apply (f_equal Js.chars) in E. rewrite !chars_app in E.
  apply app_eq_nil in E as [_ E]. apply (chars_inj ext "") in E. subst ext.
  repeat (apply elem_of_cons in Hext as [?|Hext]; [done|]).
  by apply elem_of_nil in Hext.
Qed.


(** X11: the pairs the command-line muxer finds in a directory.  The scan
    changes nothing (it probes, lists the directory and prints).  In each
    pair the still is a listed name ending, case folded, in [.jpg] or
    [.jpeg], joined to the directory; the video is the still's path with
    [./] in front and its extension replaced by exactly one of [.mov],
    [.mp4], [.MOV], [.MP4], and it exists.  Written that way, the video
    is never equal to a listed name joined to the directory. *)
Theorem processDirectory_v2_pairs fileDir w pairs w' :
  V2.processDirectory env fileDir false w = Ret pairs w' →
  ∃ names es,
    at_path env (files w) fileDir (Fs.readdir (files w)) = inr names
    ∧ w' = log_to w es
    ∧ Forall (λ e, probe e ∨ e = FsReaddir fileDir) es
    ∧ Forall (λ pair,
                ∃ file ext,
                  file ∈ names ∧ ext ∈ probed_exts
                  ∧ V1.is_jpeg_name file = true
                  ∧ pair.1 = Path.join fileDir file
                  ∧ pair.2 = ("./" +:+ Path.dir (Path.parse pair.1) +:+ "/"
                              +:+ Path.name (Path.parse pair.1)) +:+ ext
                  ∧ is_Some (node_at env (files w) pair.2)
                  ∧ ∀ other, pair.2 ≠ Path.join fileDir other) pairs.
Proof.
  intros (names & es & Hdir & Hw & Hes & Hpairs)%processDirectory_v2_Ret.
  exists names, es. split_and!; try done.
  eapply Forall_impl; [exact Hpairs|].
  intros pair (file & ext & Hfile & Hext & Hjpeg & H1 & H2 & Hthere).
  exists file, ext. split_and!; try done.
  intros other. rewrite H2. by apply video_not_joined.
Qed.


(** X23: how the scan of the command-line muxer treats a directory
    whose name looks like a still.  The test is bracketed as
    [(isFile && .jpg) || .jpeg]: a directory whose name ends in [.jpg]
    (and not in [.jpeg]) is passed over, but one whose name ends in
    [.jpeg] is paired with a video of its stem like a regular file. *)
Theorem scan_file_pairs_a_directory fileDir file acc w :
  node_at env (files w) (Path.join fileDir file) = Some Dir →
  let q := Path.parse (Path.join fileDir file) in
  let base := "./" +:+ Path.dir q +:+ "/" +:+ Path.name q in
  if Js.endsWith (Js.toLowerCase file) ".jpeg" then
    (∃ ext, ext ∈ probed_exts ∧ is_Some (node_at env (files w) (base +:+ ext))) →
    ∃ ext es,
      ext ∈ probed_exts
      ∧ V2.scan_file env fileDir file acc w
        = Ret (acc ++ [(Path.join fileDir file, base +:+ ext)]) (log_to w es)
  else
    V2.scan_file env fileDir file acc w
    = Ret acc (log_to w [FsLstat (Path.join fileDir file)]).
Proof.
  intros Hdir q base. unfold V2.scan_file. rewrite run_bind, run_lstatSync, Hdir.
  simpl. destruct (Js.endsWith (Js.toLowerCase file) ".jpeg"); [|done].
  intros (ext0 & Hext0 & Hthere0). rewrite run_bind.
  destruct (run_matchingVideo_v2 env (Path.join fileDir file)
              (log_to w [FsLstat (Path.join fileDir file)])) as (es & -> & Hes).
  simpl files. fold q. fold base.
  destruct (List.find _ probed_exts) as [ext|] eqn:Hfind.
  - apply find_some_elem in Hfind as [Hext Hthere].
    rewrite bool_decide_eq_false_2.
    2:{ intros E. apply (f_equal Js.chars) in E. unfold base in E.
        rewrite !chars_app in E. simpl in E. discriminate E. }
    exists ext. eexists. split; [done|]. simpl. by rewrite log_to_app.
  - exfalso. clear -Hfind Hext0 Hthere0.
    assert (∀ l, ext0 ∈ l →
                 List.find (λ ext, bool_decide (is_Some (node_at env (files w)
                                                           (base +:+ ext)))) l
                 ≠ None) as Hnone.
    { induction l as [|x l IH]; intros Hin; [by apply elem_of_nil in Hin|].
      simpl. apply elem_of_cons in Hin as [<-|Hin].
      - by rewrite bool_decide_eq_true_2.
      - destruct (bool_decide _); [done|by apply IH]. }
    by apply (Hnone probed_exts).
Qed.




End Scanning.

(** The sample pair, found by the scan. *)
Lemma processDirectory_v2_pairs_witness :
  ∃ names es,
    at_path Sample.env (files Sample.one_pair) "photos" (Fs.readdir (files Sample.one_pair)) = inr names
    ∧ final_world (V2.processDirectory Sample.env "photos" false Sample.one_pair)
      = log_to Sample.one_pair es
    ∧ Forall (λ e, probe e ∨ e = FsReaddir "photos") es
    ∧ Forall (λ pair,
                ∃ file ext,
                  file ∈ names ∧ ext ∈ probed_exts
                  ∧ V1.is_jpeg_name file = true
                  ∧ pair.1 = Path.join "photos" file
                  ∧ pair.2 = ("./" +:+ Path.dir (Path.parse pair.1) +:+ "/"
                              +:+ Path.name (Path.parse pair.1)) +:+ ext
                  ∧ is_Some (node_at Sample.env (files Sample.one_pair) pair.2)
                  ∧ ∀ other, pair.2 ≠ Path.join "photos" other)
        [("photos/IMG_0001.jpg", "./photos/IMG_0001.mov")].
Proof.
  pose proof (ending_Returned
                (V2.processDirectory Sample.env "photos" false Sample.one_pair)
                [("photos/IMG_0001.jpg", "./photos/IMG_0001.mov")]
                ltac:(vm_compute; reflexivity)) as Hrun.
  exact (processDirectory_v2_pairs Sample.env "photos" Sample.one_pair _ _ Hrun).
Defined.

(** A directory named [album.jpeg] beside [album.mov]. *)
Lemma scan_file_pairs_a_directory_witness :
  ∃ ext es,
    ext ∈ probed_exts
    ∧ V2.scan_file Sample.env "photos" "album.jpeg" [] Sample.odd_names
      = Ret ([] ++ [(Path.join "photos" "album.jpeg",
                     ("./" +:+ Path.dir (Path.parse (Path.join "photos" "album.jpeg"))
                      +:+ "/"
                      +:+ Path.name (Path.parse (Path.join "photos" "album.jpeg")))
                     +:+ ext)])
          (log_to Sample.odd_names es).
Proof.
  refine (scan_file_pairs_a_directory Sample.env "photos" "album.jpeg" []
            Sample.odd_names _ _).
  - vm_compute. reflexivity.
  - exists ".mov". split; [by left|]. apply (bool_decide_unpack _).
    vm_compute. exact I.
Defined.


(** ** The command-line muxer: its arguments *)

Section Arguments.
Context (env : Env) (copyFileSync : string → string → M unit).

(** Given a still and a video and no directory, [main] validates the pair
    and hands it to [convert] if it passes. *)
Lemma run_main_v2_pair args w :
  Js.truthy_opt (V2.dir args) = false →
  Js.truthy_opt (V2.photo args) = true → Js.truthy_opt (V2.video args) = true →
  let photoPath := default "" (V2.photo args) in
  let videoPath := default "" (V2.video args) in
  ∃ es,
    Forall probe es
    ∧ V2.main env copyFileSync args w
      = if media_ok env (files w) photoPath videoPath
        then V2.convert env photoPath videoPath
               (Js.or_else (V2.output args) "output") (log_to w es)
        else Ret tt (log_to w es).
Proof.
  intros Hdir Hp Hv photoPath videoPath. unfold V2.main. rewrite Hdir, Hp, Hv.
  destruct (run_validateMedia_v2 env photoPath videoPath w) as (es & Hval & Hes & _).
  exists es. split; [done|].
  simpl. rewrite !run_bind. simpl. rewrite run_bind.
  fold photoPath. fold videoPath.
  change ((mret tt : M unit) w) with (Ret tt w). cbv iota. rewrite run_bind, Hval.
  by destruct (media_ok env (files w) photoPath videoPath).
Qed.

(** X13: the command-line muxer without [--dir].  If [--photo] or
    [--video] is missing (or empty) it ends the process with status 1,
    having printed one message and done nothing else: the first message
    when both are missing, the second when one is.  Given both, it
    validates the pair; a pair that passes is handed to [convert] with
    the output directory given (or [output]); for a pair that fails it
    returns normally, having only probed and printed. *)
Theorem main_v2_without_dir args w :
  Js.truthy_opt (V2.dir args) = false →
  let photoPath := default "" (V2.photo args) in
  let videoPath := default "" (V2.video args) in
  if negb (Js.truthy_opt (V2.photo args)) || negb (Js.truthy_opt (V2.video args))
  then
    V2.main env copyFileSync args w
    = Exit 1
        (log_to w
           [Console Err
              (if Js.truthy_opt (V2.photo args) || Js.truthy_opt (V2.video args)
               then "Both --photo and --video must be provided."
               else "Either --dir or --photo and --video are required.")])
  else
    ∃ es,
      Forall probe es
      ∧ V2.main env copyFileSync args w
        = if media_ok env (files w) photoPath videoPath
          then V2.convert env photoPath videoPath
                 (Js.or_else (V2.output args) "output") (log_to w es)
          else Ret tt (log_to w es).
Proof.
  intros Hdir photoPath videoPath.
  destruct (Js.truthy_opt (V2.photo args)) eqn:Hp,
           (Js.truthy_opt (V2.video args)) eqn:Hv;
    try (unfold V2.main; by rewrite Hdir, Hp, Hv).
  by apply run_main_v2_pair.
Qed.

(** X14: with [--dir] the directory is checked before anything else, and
    [--photo] and [--video] play no part.  A path that is not a directory
    ends the process with status 1 after the probes of the check; a
    directory together with [--recurse] ends it with status 1 before the
    directory is listed. *)
Theorem main_v2_checks_directory_first args d w :
  V2.dir args = Some d → d ≠ "" →
  ∃ es,
    Forall probe es
    ∧ (node_at env (files w) d ≠ Some Dir →
       V2.main env copyFileSync args w = Exit 1 (log_to w es))
    ∧ (node_at env (files w) d = Some Dir → V2.recurse args = true →
       V2.main env copyFileSync args w
       = Exit 1 (log_to w (es ++ [Console Log ("Processing dir: " +:+ d);
                                  Console Err "Recursive traversal is not implemented yet."]))).
Proof.
  intros Hdir Hd. unfold V2.main. rewrite Hdir. simpl.
  rewrite truthy_true by done.
  destruct (run_validateDirectory_v2 env d w) as (es & Hrun & Hes & _).
  exists es. split; [done|]. split.
  - intros Hno. rewrite run_bind, Hrun. by rewrite bool_decide_eq_false_2.
  - intros Hyes ->. rewrite run_bind, Hrun. rewrite bool_decide_eq_true_2 by done.
    unfold V2.processDirectory. unfold_M. simpl. by rewrite !log_to_app.
Qed.

End Arguments.

(** Only a photo is named. *)
Lemma main_v2_without_dir_witness :
  V2.main Sample.env (λ _ _, mret tt)
    (V2.mkArgs None false (Some "photos/IMG_0001.jpg") None None false) Sample.one_pair
  = Exit 1 (log_to Sample.one_pair
              [Console Err "Both --photo and --video must be provided."]).
Proof.
  exact (main_v2_without_dir Sample.env (λ _ _, mret tt)
           (V2.mkArgs None false (Some "photos/IMG_0001.jpg") None None false)
           Sample.one_pair eq_refl).
Defined.

(** A directory and [--recurse]. *)
Lemma main_v2_checks_directory_first_witness :
  ∃ es,
    Forall probe es
    ∧ (node_at Sample.env (files Sample.one_pair) "photos" ≠ Some Dir →
       V2.main Sample.env (λ _ _, mret tt)
         (V2.mkArgs (Some "photos") true None None None false) Sample.one_pair
       = Exit 1 (log_to Sample.one_pair es))
    ∧ (node_at Sample.env (files Sample.one_pair) "photos" = Some Dir → true = true →
       V2.main Sample.env (λ _ _, mret tt)
         (V2.mkArgs (Some "photos") true None None None false) Sample.one_pair
       = Exit 1 (log_to Sample.one_pair
                   (es ++ [Console Log ("Processing dir: " +:+ "photos");
                           Console Err "Recursive traversal is not implemented yet."]))).
Proof.
  exact (main_v2_checks_directory_first Sample.env (λ _ _, mret tt)
           (V2.mkArgs (Some "photos") true None None None false) "photos"
           Sample.one_pair eq_refl ltac:(discriminate)).
Defined.

(** ** From a pair to a motion photo *)

Section EndToEnd.
Context (env : Env).

(** X15: [createMotionPhoto] from end to end, with a metadata service
    that gives back the motion-photo tags it was given, under their names
    without the group.  For a pair that passes validation and whose
    output path is not the still itself, a call that returns has left, at
    [outputPath] joined with the still's base name, a file whose metadata
    gives [MicroVideoOffset] as the length of the video, and the other
    three keys their fixed values. *)
Theorem createMotionPhoto_end_to_end photoPath videoPath outputPath w w' video :
  reads_back_what_was_written env → reads_the_file_only env →
  media_ok env (files w) photoPath videoPath = true →
  node_at env (files w) videoPath = Some (File video) →
  locate env (Path.join outputPath (Path.basename photoPath)) ≠ locate env photoPath →
  V1.createMotionPhoto env photoPath videoPath outputPath w = Ret tt w' →
  let merged := Path.join outputPath (Path.basename photoPath) in
  metadata env w' merged "MicroVideoOffset" = Some (VNum (Z.of_nat (length video)))
  ∧ metadata env w' merged "MicroVideo" = Some (VNum 1)
  ∧ metadata env w' merged "MicroVideoVersion" = Some (VNum 1)
  ∧ metadata env w' merged "MicroVideoPresentationTimestampUs" = Some (VNum 1500000).
Proof.
  intros Hback Hlocal Hok Hvideo Hne Hrun merged.
  destruct (run_validateMedia env photoPath videoPath w) as (es & Hval & _ & Hes).
  pose proof Hrun as Hrun'.
  rewrite (run_createMotionPhoto env _ _ outputPath _ _ Hval), Hok, (Hes Hok) in Hrun'.
  apply bind_Ret in Hrun' as (merged' & w2 & Hmerge & _).
  destruct (createMotionPhoto_offset env _ _ _ _ _ _ Hok Hmerge)
    as (total & still & video' & _ & _ & Hvideo' & Hrun2 & Hlen).
  assert (merged' = merged) as ->.
  { by apply mergeFiles_Ret in Hmerge as (? & ? & ? & ? & -> & _). }
  rewrite Hvideo in Hvideo'. injection Hvideo' as <-.
  destruct (Hlen Hne) as [_ Hoff]. rewrite Hoff in Hrun2.
  rewrite Hrun in Hrun2. symmetry in Hrun2.
  pose proof (λ key v, addXmpMetadata_sets_tags env merged _ _ _ key v
                         Hback Hlocal Hrun2) as Hset.
  split_and!.
  - exact (Hset "XMP:MicroVideoOffset" _ eq_refl).
  - exact (Hset "XMP:MicroVideo" _ eq_refl).
  - exact (Hset "XMP:MicroVideoVersion" _ eq_refl).
  - exact (Hset "XMP:MicroVideoPresentationTimestampUs" _ eq_refl).
Qed.

Lemma mergeFiles_v2_ends photoPath videoPath outputPath w :
  match V2.mergeFiles env photoPath videoPath outputPath w with
  | Exit _ _ => False
  | _ => True
  end.
Proof.
  unfold V2.mergeFiles. rewrite run_bind. simpl. rewrite run_bind, run_mkdirSync.
  by destruct (Fs.mkdir_p _ _ _).
Qed.

(** X16: with a metadata service that refuses keys written with dots, the
    command-line muxer cannot complete a conversion: [convert] always
    ends with an exception, whatever the pair and the state of the file
    system, and so does [main] when it is given a still and a video that
    pass validation. *)
Theorem convert_v2_never_completes copyFileSync photoPath videoPath outputPath w :
  refuses_dotted_names env →
  (∃ e w', V2.convert env photoPath videoPath outputPath w = Throw e w')
  ∧ (photoPath ≠ "" → videoPath ≠ "" →
     media_ok env (files w) photoPath videoPath = true →
     ∃ e w',
       V2.main env copyFileSync
         (V2.mkArgs None false (Some photoPath) (Some videoPath) (Some outputPath) false)
         w
       = Throw e w').
Proof.
  intros Hrefuse.
  assert (∀ o w, ∃ e w', V2.convert env photoPath videoPath o w = Throw e w') as Hconv.
  { clear w outputPath. intros o w. unfold V2.convert. rewrite run_bind.
    pose proof (mergeFiles_v2_ends photoPath videoPath o w) as Hm.
    destruct (V2.mergeFiles env photoPath videoPath o w) as [merged w1|e w1|c w1];
      [|by eauto|done].
    rewrite run_bind, run_statSync.
    destruct (node_at env (files w1) photoPath) as [pn|]; [|by eauto].
    rewrite run_bind, run_statSync. simpl.
    destruct (node_at env (files w1) merged) as [mn|]; [|by eauto].
    destruct (addXmpMetadata_v2_throws env merged
                (Fs.node_size mn - Fs.node_size pn)
                (log_to (log_to w1 [FsStat photoPath]) [FsStat merged]) Hrefuse)
      as (e & w' & -> & _). by eauto. }
  split; [apply Hconv|].
  intros Hp Hv Hok.
  assert (Js.truthy_opt (Some photoPath) = true) as Htp
    by (simpl; by rewrite truthy_true).
  assert (Js.truthy_opt (Some videoPath) = true) as Htv
    by (simpl; by rewrite truthy_true).
  pose proof (run_main_v2_pair env copyFileSync
                (V2.mkArgs None false (Some photoPath) (Some videoPath)
                   (Some outputPath) false) w eq_refl Htp Htv) as Hmain.
  simpl in Hmain.
  destruct Hmain as (es & _ & ->). rewrite Hok. apply Hconv.
Qed.

End EndToEnd.

(** The sample pair, muxed by the interactive converter with the toy
    service: the offset read back is the length of the clip. *)
Lemma createMotionPhoto_end_to_end_witness :
  let w' := final_world (V1.createMotionPhoto Sample.env "photos/IMG_0001.jpg"
                           "photos/IMG_0001.mov" "output" Sample.one_pair) in
  let merged := Path.join "output" (Path.basename "photos/IMG_0001.jpg") in
  metadata Sample.env w' merged "MicroVideoOffset"
  = Some (VNum (Z.of_nat (length Sample.clip)))
  ∧ metadata Sample.env w' merged "MicroVideo" = Some (VNum 1)
  ∧ metadata Sample.env w' merged "MicroVideoVersion" = Some (VNum 1)
  ∧ metadata Sample.env w' merged "MicroVideoPresentationTimestampUs"
    = Some (VNum 1500000).
Proof.
  cbv zeta.
  pose proof (ending_Returned
                (V1.createMotionPhoto Sample.env "photos/IMG_0001.jpg"
                   "photos/IMG_0001.mov" "output" Sample.one_pair) tt
                ltac:(vm_compute; reflexivity)) as Hrun.
  refine (createMotionPhoto_end_to_end Sample.env "photos/IMG_0001.jpg"
            "photos/IMG_0001.mov" "output" Sample.one_pair _ Sample.clip
            (toy_reads_back _) (toy_reads_the_file_only _) _ _ _ Hrun).
  - vm_compute. reflexivity.
  - vm_compute. reflexivity.
  - intros H. vm_compute in H. discriminate H.
Defined.

(** A second run of the command-line muxer over the sample pair, with
    the toy service. *)
Lemma convert_v2_never_completes_witness :
  (∃ e w',
     V2.convert Sample.env "photos/IMG_0001.jpg" "photos/IMG_0001.mov" "output"
       Sample.second_run = Throw e w')
  ∧ ∃ e w',
      V2.main Sample.env (λ _ _, mret tt)
        (V2.mkArgs None false (Some "photos/IMG_0001.jpg") (Some "photos/IMG_0001.mov")
           (Some "output") false) Sample.second_run
      = Throw e w'.
Proof.
  destruct (convert_v2_never_completes Sample.env (λ _ _, mret tt)
              "photos/IMG_0001.jpg" "photos/IMG_0001.mov" "output" Sample.second_run
              (toy_refuses Sample.home)) as [H1 H2].
  split; [exact H1|].
  apply H2; [discriminate|discriminate|vm_compute; reflexivity].
Defined.

(** A live photo: the HEIC is transcoded, muxed with its video, and the
    JPEG in between is removed. *)
Lemma process_file_removes_intermediate_witness :
  let r := V1.process_file Sample.env "photos" "output" false false "IMG_0007.heic"
             0%N Sample.live_photo in
  ending_of r = Returned 1%N
  ∧ (1%N = 0%N
     ∨ (1%N = (0 + 1)%N
        ∧ node_at Sample.env (files (final_world r))
            (Path.name (Path.parse (Path.join "photos" "IMG_0007.heic")) +:+ ".jpg")
          = None)).
Proof.
  cbv zeta.
  pose proof (ending_Returned
                (V1.process_file Sample.env "photos" "output" false false
                   "IMG_0007.heic" 0%N Sample.live_photo) 1%N
                ltac:(vm_compute; reflexivity)) as Hrun.
  split; [vm_compute; reflexivity|].
  exact (process_file_removes_intermediate Sample.env "photos" "output" false false
           "IMG_0007.heic" 0%N Sample.live_photo _ _ eq_refl Hrun).
Defined.

(** The streamed merge of the sample pair. *)
Lemma mergeFiles_v2_streams_concatenation_witness :
  let w1 := final_world (V2.mergeFiles Sample.env "photos/IMG_0001.jpg"
                           "photos/IMG_0001.mov" "output" Sample.one_pair) in
  let w2 := final_world (V2.run_pending Sample.env w1) in
  node_at Sample.env (files w2) "output/IMG_0001.jpg"
  = Some (File (Sample.still ++ Sample.clip))
  ∧ node_at Sample.env (files w2) "photos/IMG_0001.jpg" = Some (File Sample.still)
  ∧ node_at Sample.env (files w2) "photos/IMG_0001.mov" = Some (File Sample.clip).
Proof.
  cbv zeta.
  pose proof (ending_Returned
                (V2.mergeFiles Sample.env "photos/IMG_0001.jpg" "photos/IMG_0001.mov"
                   "output" Sample.one_pair) "output/IMG_0001.jpg"
                ltac:(vm_compute; reflexivity)) as Hmerge.
  pose proof (ending_Returned
                (V2.run_pending Sample.env
                   (final_world (V2.mergeFiles Sample.env "photos/IMG_0001.jpg"
                                   "photos/IMG_0001.mov" "output" Sample.one_pair))) tt
                ltac:(vm_compute; reflexivity)) as Hrun.
  refine (mergeFiles_v2_streams_concatenation Sample.env "photos/IMG_0001.jpg"
            "photos/IMG_0001.mov" "output" Sample.one_pair "output/IMG_0001.jpg"
            _ _ Sample.still Sample.clip eq_refl Hmerge Hrun _ _ _ _).
  - vm_compute. reflexivity.
  - vm_compute. reflexivity.
  - intros H. vm_compute in H. discriminate H.
  - intros H. vm_compute in H. discriminate H.
Defined.

(** ** Failures *)

Section Failures.
Context (env : Env).

(** X21: every way the scanning resolver can end.  If the directory
    cannot be listed it throws the error of [readdirSync]; otherwise it
    returns, having listed the directory and nothing else, and what it
    returns is [null] exactly when no listed name starts with the stem
    and ends in a video extension. *)
Theorem matchingVideo_null_or_throw photoPath videoDir w :
  match at_path env (files w) videoDir (Fs.readdir (files w)) with
  | inl c =>
      V1.matchingVideo env photoPath videoDir w
      = Throw (SysError c "scandir" videoDir) (log_to w [FsReaddir videoDir])
  | inr names =>
      ∃ r,
        V1.matchingVideo env photoPath videoDir w
        = Ret r (log_to w [FsReaddir videoDir])
        ∧ (r = None
           ↔ Forall (λ file,
                       V1.video_match (Path.name (Path.parse photoPath)) file = false)
               names)
  end.
Proof.
  rewrite run_matchingVideo.
  destruct (at_path env (files w) videoDir (Fs.readdir (files w))) as [c|names]; [done|].
  eexists. split; [done|].
  destruct (List.find _ names) as [file|] eqn:Hfind; simpl.
  - split; [done|]. intros Hall. by rewrite find_none in Hfind.
  - split; [|done]. intros _. clear -Hfind.
    induction names as [|file names IH]; [constructor|]. simpl in Hfind.
    destruct (V1.video_match _ file) eqn:Hm; [done|]. constructor; [done|by apply IH].
Qed.


End Failures.

